(** * next-handlebars: the template, partial and layout pipeline

    A shallow embedding of [src/next-handlebars.ts] (class [NextHandlebars]
    and the folder listings beside it) and proofs about its caches, its
    partial resolver and its layout composer.

    Conventions of the embedding.
    - A JavaScript string is a [string]; a character is a code unit < 256.
    - A JavaScript object used as a dictionary is a [gmap string _]; an
      object whose key order is observed through [Object.keys] is an
      association list in [Object.keys] order.  Prototype chains are left
      out.
    - The instance ([this]) and the trace of calls made to the outside
      world (file system, glob, Handlebars) are threaded through a state and
      error monad.  The outside world is a parameter, [Env].
    - A promise is represented by the way it settles, so a cache holds
      fulfilled and rejected promises.  An [await] runs the awaited
      operation to completion, and the state after a call is the state in
      which everything the call started has come to its end.
    - The operations that [Promise.all] starts together run one after the
      other, in call order, each of them to its end whatever becomes of the
      others: nothing cancels them.  Of several failures the first in call
      order is the one reported, where the code reports the first in time.
    - The one place where the synchronous prefix of an asynchronous callback
      decides the outcome, [getPartials], separates the prefix from the
      rest: a callback that throws before its first [await] has failed
      before any other callback can, so its error is the one reported.
    - [renderView] is the call with an options object and no callback. *)

From Stdlib Require Import Ascii ZArith.
From stdpp Require Import base gmap strings list fin_maps pretty.
From Equations Require Import Equations.

(** ** JavaScript strings *)

Module JS.

Definition chars (s : string) : list ascii := String.list_ascii_of_string s.
Definition str (l : list ascii) : string := String.string_of_list_ascii l.

(** [s.endsWith(suffix)] *)
Definition endsWith (s suffix : string) : bool :=
  let n := String.length s in
  let k := String.length suffix in
  (k <=? n)%nat && String.eqb (String.substring (n - k) k s) suffix.

(** [s.substring(0, n)] for [n <= s.length] *)
Definition substring0 (s : string) (n : nat) : string := String.substring 0 n s.

(** [s.charCodeAt(i) === c]; false when [i] is out of range *)
Definition charIs (s : string) (i : nat) (c : ascii) : bool :=
  match String.get i s with
  | Some c' => Ascii.eqb c' c
  | None => false
  end.

(** White space and line terminators below 256, as [String.prototype.trim]
    sees them: TAB, LF, VT, FF, CR, SPACE and NBSP. *)
Definition isWhiteSpace (c : ascii) : bool :=
  match c with
  | "009" | "010" | "011" | "012" | "013" | " " | "160" => true
  | _ => false
  end%char.

Fixpoint trimStartL (l : list ascii) : list ascii :=
  match l with
  | c :: l' => if isWhiteSpace c then trimStartL l' else l
  | [] => []
  end.

Definition trimL (l : list ascii) : list ascii :=
  reverse (trimStartL (reverse (trimStartL l))).

(** [s.trim()] *)
Definition trim (s : string) : string := str (trimL (chars s)).

End JS.

(** ** node:path, POSIX flavour

    [dirname] and [extname] follow Node's index loops; [normalizeString],
    [resolve], [join] and [relative] are read at the level of path segments.
    [resolve] takes the working directory of the process as an argument. *)

Module Path.

Definition SLASH : ascii := "/"%char.
Definition DOT : ascii := "."%char.

(** The loop of [dirname]: [for (i = path.length - 1; i >= 1; --i)];
    the result is [end], [None] standing for [-1]. *)
Fixpoint dirname_scan (path : string) (i : nat) (matchedSlash : bool) : option nat :=
  match i with
  | O => None
  | S j =>
      if JS.charIs path i SLASH then
        if matchedSlash then dirname_scan path j true else Some i
      else dirname_scan path j false
  end.

Definition dirname (path : string) : string :=
  if (String.length path =? 0)%nat then "." else
  let hasRoot := JS.charIs path 0 SLASH in
  match dirname_scan path (String.length path - 1) true with
  | None => if hasRoot then "/" else "."
  | Some e => if hasRoot && (e =? 1)%nat then "//" else JS.substring0 path e
  end.

Record ext_state := ExtState {
  startDot : option nat;
  startPart : nat;
  endIdx : option nat;
  matchedSlash : bool;
  preDotState : Z
}.

(** The loop of [extname]: [for (i = path.length - 1; i >= 0; --i)];
    [n] is [i + 1]. *)
Fixpoint extname_scan (path : string) (n : nat) (st : ext_state) : ext_state :=
  match n with
  | O => st
  | S i =>
      if JS.charIs path i SLASH then
        if negb (matchedSlash st)
        then ExtState (startDot st) (i + 1) (endIdx st) (matchedSlash st) (preDotState st)
        else extname_scan path i st
      else
        let st1 :=
          match endIdx st with
          | None => ExtState (startDot st) (startPart st) (Some (i + 1)) false (preDotState st)
          | Some _ => st
          end in
        let st2 :=
          if JS.charIs path i DOT then
            match startDot st1 with
            | None => ExtState (Some i) (startPart st1) (endIdx st1) (matchedSlash st1) (preDotState st1)
            | Some _ =>
                if negb (preDotState st1 =? 1)%Z
                then ExtState (startDot st1) (startPart st1) (endIdx st1) (matchedSlash st1) 1
                else st1
            end
          else
            match startDot st1 with
            | Some _ => ExtState (startDot st1) (startPart st1) (endIdx st1) (matchedSlash st1) (-1)
            | None => st1
            end in
        extname_scan path i st2
  end.

Definition extname (path : string) : string :=
  let st := extname_scan path (String.length path) (ExtState None 0 None true 0) in
  match startDot st, endIdx st with
  | Some sd, Some e =>
      if (preDotState st =? 0)%Z
         || ((preDotState st =? 1)%Z && (sd =? e - 1)%nat && (sd =? startPart st + 1)%nat)
      then ""
      else String.substring sd (e - sd) path
  | _, _ => ""
  end.

(** Segments of a path: the pieces between slashes, empty ones included. *)
Fixpoint split_go (cur : list ascii) (l : list ascii) : list string :=
  match l with
  | [] => [JS.str (reverse cur)]
  | c :: l' =>
      if Ascii.eqb c SLASH then JS.str (reverse cur) :: split_go [] l'
      else split_go (c :: cur) l'
  end.
Definition split (path : string) : list string := split_go [] (JS.chars path).

Fixpoint joinWith (sep : string) (l : list string) : string :=
  match l with
  | [] => ""
  | [s] => s
  | s :: l' => s +:+ sep +:+ joinWith sep l'
  end.

(** One segment of [normalizeString]; [res] is the result so far, last
    segment first. *)
Definition normalize_step (allowAboveRoot : bool) (res : list string) (seg : string)
  : list string :=
  if String.eqb seg "" || String.eqb seg "." then res
  else if String.eqb seg ".." then
    match res with
    | top :: rest =>
        if String.eqb top ".." then (if allowAboveRoot then ".." :: res else res)
        else rest
    | [] => if allowAboveRoot then [".."] else []
    end
  else seg :: res.

Definition normalizeString (path : string) (allowAboveRoot : bool) : string :=
  joinWith "/" (reverse (foldl (normalize_step allowAboveRoot) [] (split path))).

Definition isAbsolute (path : string) : bool := JS.charIs path 0 SLASH.

(** The loop of [resolve], over the arguments from the last to the first
    and then the working directory. *)
Fixpoint resolve_loop (cwd : string) (rev_args : list string) (resolvedPath : string)
  : string * bool :=
  match rev_args with
  | [] =>
      if (String.length cwd =? 0)%nat then (resolvedPath, false)
      else (cwd +:+ "/" +:+ resolvedPath, isAbsolute cwd)
  | p :: rest =>
      if (String.length p =? 0)%nat then resolve_loop cwd rest resolvedPath
      else if isAbsolute p then (p +:+ "/" +:+ resolvedPath, true)
      else resolve_loop cwd rest (p +:+ "/" +:+ resolvedPath)
  end.

Definition resolve (cwd : string) (args : list string) : string :=
  let '(resolvedPath, resolvedAbsolute) := resolve_loop cwd (reverse args) "" in
  let r := normalizeString resolvedPath (negb resolvedAbsolute) in
  if resolvedAbsolute then "/" +:+ r
  else if (0 <? String.length r)%nat then r else ".".

Definition normalize (path : string) : string :=
  if (String.length path =? 0)%nat then "." else
  let abs := isAbsolute path in
  let trailingSeparator := JS.charIs path (String.length path - 1) SLASH in
  let p := normalizeString path (negb abs) in
  if (String.length p =? 0)%nat then
    (if abs then "/" else if trailingSeparator then "./" else ".")
  else
    let p' := if trailingSeparator then p +:+ "/" else p in
    if abs then "/" +:+ p' else p'.

Definition join (args : list string) : string :=
  match filter (λ a, a ≠ "") args with
  | [] => "."
  | l => normalize (joinWith "/" l)
  end.

Fixpoint strip_common (a b : list string) : list string * list string :=
  match a, b with
  | x :: a', y :: b' => if String.eqb x y then strip_common a' b' else (a, b)
  | _, _ => (a, b)
  end.

Definition segments (abs : string) : list string :=
  filter (λ s, s ≠ "") (split abs).

Definition relative (cwd from to : string) : string :=
  if String.eqb from to then "" else
  let from' := resolve cwd [from] in
  let to' := resolve cwd [to] in
  if String.eqb from' to' then "" else
  let '(up, down) := strip_common (segments from') (segments to') in
  joinWith "/" (((λ _, "..") <$> up) ++ down).

End Path.

(** ** JavaScript values *)

(** A compiled template or a precompiled specification, as Handlebars
    returns it; opaque here. *)
Inductive artifact := Artifact (id : string).

#[warnings="-register-all"]
Inductive value :=
| VUndefined
| VNull
| VBool (b : bool)
| VNum (n : Z)
| VStr (s : string)
| VArr (vs : list value)
| VObj (o : gmap string value)
| VFn (name : string)
| VArtifact (a : artifact).

Abbreviation jsobj := (gmap string value).

Definition truthy (v : value) : bool :=
  match v with
  | VUndefined | VNull => false
  | VBool b => b
  | VNum n => negb (n =? 0)%Z
  | VStr s => negb (String.eqb s "")
  | _ => true
  end.

(** [a || b] and [a && b] *)
Definition js_or (a b : value) : value := if truthy a then a else b.
Definition js_and (a b : value) : value := if truthy a then b else a.

(** [o.k] on a dictionary: [undefined] when the key is missing. *)
Definition prop (o : jsobj) (k : string) : value := default VUndefined (o !! k).

(** [v.k] on any value that is not nullish. *)
Definition member (v : value) (k : string) : value :=
  match v with
  | VObj o => prop o k
  | _ => VUndefined
  end.

(** [{...v}]: own enumerable properties of [v]. *)
Definition spread (v : value) : jsobj :=
  match v with
  | VObj o => o
  | VArr vs => list_to_map (imap (λ i x, (pretty i, x)) vs)
  | VStr s => list_to_map (imap (λ i c, (pretty i, VStr (String c ""))) (JS.chars s))
  | _ => ∅
  end.

(** [{...a, ...b}]: the keys of [b] win. *)
Definition spread2 (a b : value) : jsobj := spread b ∪ spread a.

(** ** Errors and promises *)

Inductive exn :=
| Error (message : string)
| TypeError (message : string)
| FsError (code path : string)
| HandlebarsError (message : string).

(** The way a promise (or a call) settles. *)
Inductive settled (A : Type) :=
| Fulfilled (a : A)
| Rejected (e : exn).
Arguments Fulfilled {A} a.
Arguments Rejected {A} e.

Definition settled_map {A B} (f : A → B) (p : settled A) : settled B :=
  match p with
  | Fulfilled a => Fulfilled (f a)
  | Rejected e => Rejected e
  end.

Definition is_rejected {A} (p : settled A) : Prop :=
  match p with Rejected _ => True | Fulfilled _ => False end.

(** What [_fsCache] holds: the text of a file or the listing of a directory. *)
Inductive fsval :=
| FileText (text : string)
| FileList (paths : list string).

(** ** The outside world *)

Inductive event :=
| ReadFile (path : string) (encoding : value)
| Glob (pattern cwd : string)
| Compile (precompile : bool) (text : string) (options : value)
| Invoke (template : artifact) (context options : jsobj).

Record Env := {
  cwd : string;
  readFile : string → value → settled string;
  glob : string → string → settled (list string);
  hb_compile : string → value → settled artifact;
  hb_precompile : string → value → settled artifact;
  hb_invoke : artifact → jsobj → jsobj → settled string
}.

(** ** The instance *)

Record PartialsDirObject := {
  pd_dir : option string;
  pd_templates : option (list (string * artifact));
  pd_namespace : option string;
  pd_rename : option (string → option string → string)
}.

Inductive PartialsDirEntry :=
| DirString (s : string)
| DirObject (o : PartialsDirObject).

Inductive PartialsDir :=
| OneDir (d : PartialsDirEntry)
| DirArray (l : list PartialsDirEntry).

Record ConfigOptions := {
  cfg_extname : option string;
  cfg_encoding : option value;
  cfg_layoutsDir : option string;
  cfg_partialsDir : option PartialsDir;
  cfg_defaultLayout : option value;
  cfg_helpers : option value;
  cfg_compilerOptions : option value;
  cfg_runtimeOptions : option value
}.

Record NextHandlebars := {
  config : ConfigOptions;
  encoding : value;
  layoutsDir : option string;
  extname : string;
  compiled : gmap string (settled artifact);
  precompiled : gmap string (settled artifact);
  _fsCache : gmap string (settled fsval);
  partialsDir : option PartialsDir;
  compilerOptions : value;
  runtimeOptions : value;
  helpers : value;
  defaultLayout : value
}.

Definition set_fsCache (f : gmap string (settled fsval) → gmap string (settled fsval))
  (h : NextHandlebars) : NextHandlebars :=
  {| config := config h; encoding := encoding h; layoutsDir := layoutsDir h;
     extname := extname h; compiled := compiled h; precompiled := precompiled h;
     _fsCache := f (_fsCache h); partialsDir := partialsDir h;
     compilerOptions := compilerOptions h; runtimeOptions := runtimeOptions h;
     helpers := helpers h; defaultLayout := defaultLayout h |}.

Definition set_compiled (f : gmap string (settled artifact) → gmap string (settled artifact))
  (h : NextHandlebars) : NextHandlebars :=
  {| config := config h; encoding := encoding h; layoutsDir := layoutsDir h;
     extname := extname h; compiled := f (compiled h); precompiled := precompiled h;
     _fsCache := _fsCache h; partialsDir := partialsDir h;
     compilerOptions := compilerOptions h; runtimeOptions := runtimeOptions h;
     helpers := helpers h; defaultLayout := defaultLayout h |}.

Definition set_precompiled (f : gmap string (settled artifact) → gmap string (settled artifact))
  (h : NextHandlebars) : NextHandlebars :=
  {| config := config h; encoding := encoding h; layoutsDir := layoutsDir h;
     extname := extname h; compiled := compiled h; precompiled := f (precompiled h);
     _fsCache := _fsCache h; partialsDir := partialsDir h;
     compilerOptions := compilerOptions h; runtimeOptions := runtimeOptions h;
     helpers := helpers h; defaultLayout := defaultLayout h |}.

Definition set_dirs (pd : option PartialsDir) (ld : option string)
  (h : NextHandlebars) : NextHandlebars :=
  {| config := config h; encoding := encoding h; layoutsDir := ld;
     extname := extname h; compiled := compiled h; precompiled := precompiled h;
     _fsCache := _fsCache h; partialsDir := pd;
     compilerOptions := compilerOptions h; runtimeOptions := runtimeOptions h;
     helpers := helpers h; defaultLayout := defaultLayout h |}.

(** The constructor: [Object.assign(this, defaultConfig, config)], then the
    extension is normalised and the caches start empty. *)
Definition create (cfg : ConfigOptions) : NextHandlebars :=
  let ext := default ".handlebars" (cfg_extname cfg) in
  {| config := cfg;
     encoding := default (VStr "utf8") (cfg_encoding cfg);
     layoutsDir := cfg_layoutsDir cfg;
     extname := if JS.charIs ext 0 Path.DOT then ext else "." +:+ ext;
     compiled := ∅;
     precompiled := ∅;
     _fsCache := ∅;
     partialsDir := cfg_partialsDir cfg;
     compilerOptions := default VUndefined (cfg_compilerOptions cfg);
     runtimeOptions := default VUndefined (cfg_runtimeOptions cfg);
     helpers := default VUndefined (cfg_helpers cfg);
     defaultLayout := default (VStr "main") (cfg_defaultLayout cfg) |}.

(** ** The monad: the instance, the trace, and exceptions *)

Record machine := Machine {
  self : NextHandlebars;
  trace : list event
}.

Definition M (A : Type) : Type := machine → settled A * machine.

Definition ret {A} (a : A) : M A := λ m, (Fulfilled a, m).
Definition throw {A} (e : exn) : M A := λ m, (Rejected e, m).
Definition bind {A B} (c : M A) (k : A → M B) : M B :=
  λ m, match c m with
       | (Fulfilled a, m') => k a m'
       | (Rejected e, m') => (Rejected e, m')
       end.

Notation "'let*' x := c 'in' k" := (bind c (λ x, k))
  (at level 10, x pattern, c at level 100, k at level 200).

(** [await p] *)
Definition await {A} (p : settled A) : M A := λ m, (p, m).
(** [try { body } catch (err) { handler }] *)
Definition try_catch {A} (body : M A) (handler : exn → M A) : M A :=
  λ m, match body m with
       | (Fulfilled a, m') => (Fulfilled a, m')
       | (Rejected e, m') => handler e m'
       end.
(** The promise of an asynchronous call, known by the way it settles. *)
Definition promise {A} (c : M A) : M (settled A) :=
  λ m, let '(r, m') := c m in (Fulfilled r, m').

Definition this : M NextHandlebars := λ m, (Fulfilled (self m), m).
Definition update (f : NextHandlebars → NextHandlebars) : M unit :=
  λ m, (Fulfilled tt, Machine (f (self m)) (trace m)).
Definition emit (e : event) : M unit :=
  λ m, (Fulfilled tt, Machine (self m) (trace m ++ [e])).

Fixpoint mapM {A B} (f : A → M B) (l : list A) : M (list B) :=
  match l with
  | [] => ret []
  | x :: l' => let* y := f x in let* ys := mapM f l' in ret (y :: ys)
  end.

(** How [Promise.all] settles, given how its promises settle. *)
Fixpoint Promise_all {A} (promises : list (settled A)) : settled (list A) :=
  match promises with
  | [] => Fulfilled []
  | Fulfilled a :: promises => settled_map (cons a) (Promise_all promises)
  | Rejected e :: _ => Rejected e
  end.

(** ** The methods of [NextHandlebars] *)

(** [PartialTemplateOptions]; of [cache] only the truthiness is observed. *)
Record PartialTemplateOptions := {
  opt_encoding : value;
  opt_cache : bool;
  opt_precompiled : bool;
  opt_throwTestError : bool
}.

(** [{ cache }] and [{ cache, encoding }] *)
Definition options_cache (cache : bool) : PartialTemplateOptions :=
  {| opt_encoding := VUndefined; opt_cache := cache;
     opt_precompiled := false; opt_throwTestError := false |}.
Definition options_cache_encoding (cache : bool) (enc : value) : PartialTemplateOptions :=
  {| opt_encoding := enc; opt_cache := cache;
     opt_precompiled := false; opt_throwTestError := false |}.

(** The selector of [resetCache]. *)
Inductive CacheSelector :=
| SelUndefined
| SelString (filePath : string)
| SelFunction (filter : string → bool)
| SelArray (filePaths : list string).

(** What one directory contributes to [getPartials]. *)
Record PartialsEntry := {
  pe_templates : list (string * artifact);
  pe_namespace : option string;
  pe_rename : option (string → option string → string)
}.

(** [obj[k] = v] on an object whose key order is kept (keys that are array
    indices, which JavaScript lists first, and the key [__proto__], which
    JavaScript does not list, do not occur among file names with an
    extension). *)
Fixpoint obj_set {A} (k : string) (v : A) (o : list (string * A)) : list (string * A) :=
  match o with
  | [] => [(k, v)]
  | (k', v') :: o' => if String.eqb k' k then (k, v) :: o' else (k', v') :: obj_set k v o'
  end.

(** [array.indexOf(x)], [None] standing for [-1]. *)
Fixpoint indexOf (l : list string) (x : string) : option nat :=
  match l with
  | [] => None
  | y :: l' => if String.eqb y x then Some 0 else S <$> indexOf l' x
  end.

(** A string argument of a [node:path] function; anything else is refused. *)
Definition path_arg (v : value) : M string :=
  match v with
  | VStr s => ret s
  | _ => throw (TypeError "The path argument must be of type string")
  end.

(** The measure under which [dirname] makes progress. *)
Definition height (p : string) : nat :=
  if String.eqb p "/" || String.eqb p "." then 0 else S (String.length p).

(** Where [_getDir] stands after its synchronous prefix. *)
Inductive DirPending :=
| DirCached (dir : settled fsval)
| DirStarted (dir : settled fsval)
| DirThrew (err : exn).

(** Where the callback of [partialsDirs.map] stands after its synchronous
    prefix. *)
Inductive MapperPending :=
| MapperThrew (err : exn)
| MapperHas (templates : list (string * artifact))
    (ns : option string) (rename : option (string → option string → string))
| MapperAwaits (dirPath : string) (dir : DirPending)
    (ns : option string) (rename : option (string → option string → string)).

Definition first_thrown (l : list MapperPending) : option exn :=
  head (omap (λ p, match p with MapperThrew e => Some e | _ => None end) l).

Section Methods.

Context (env : Env).

Definition resolve1 (p : string) : string := Path.resolve (cwd env) [p].

Definition template_cache (pre : bool) (h : NextHandlebars)
  : gmap string (settled artifact) :=
  if pre then precompiled h else compiled h.

Definition set_template_cache (pre : bool)
  (f : gmap string (settled artifact) → gmap string (settled artifact))
  : NextHandlebars → NextHandlebars :=
  if pre then set_precompiled f else set_compiled f.

(** [_getFile], lines 707-727 *)
Definition _getFile (filePath : string) (options : PartialTemplateOptions) : M fsval :=
  let filePath := resolve1 filePath in
  let* h := this in
  let cache := _fsCache h in
  let encoding := js_or (opt_encoding options) (encoding h) in
  match (if opt_cache options then cache !! filePath else None) with
  | Some file => await file
  | None =>
      try_catch
        (let file := readFile env filePath (js_or encoding (VStr "utf8")) in
         let* _ := emit (ReadFile filePath (js_or encoding (VStr "utf8"))) in
         let* _ := update (set_fsCache (<[filePath := settled_map FileText file]>)) in
         await (settled_map FileText file))
        (λ err,
         let* _ := update (set_fsCache (delete filePath)) in
         throw err)
  end.

(** [[...(await dir)]] *)
Definition spread_list (v : fsval) : list string :=
  match v with
  | FileList paths => paths
  | FileText text => (λ c, String c "") <$> JS.chars text
  end.

(** [_getDir], lines 674-705, up to its first [await] *)
Definition _getDir_begin (dirPath : string) (options : PartialTemplateOptions)
  : M DirPending :=
  let dirPath := resolve1 dirPath in
  let* h := this in
  let cache := _fsCache h in
  match (if opt_cache options then cache !! dirPath else None) with
  | Some dir => ret (DirCached dir)
  | None =>
      let pattern := "**/*" +:+ extname h in
      let dir := settled_map FileList (glob env pattern dirPath) in
      let* _ := emit (Glob pattern dirPath) in
      let* _ := update (set_fsCache (<[dirPath := dir]>)) in
      if opt_throwTestError options then
        let* _ := update (set_fsCache (delete dirPath)) in
        ret (DirThrew (Error "test"))
      else ret (DirStarted dir)
  end.

(** [_getDir] from its first [await] on *)
Definition _getDir_end (dirPath : string) (pending : DirPending) : M (list string) :=
  let dirPath := resolve1 dirPath in
  match pending with
  | DirCached dir => let* v := await dir in ret (spread_list v)
  | DirStarted dir =>
      try_catch
        (let* v := await dir in ret (spread_list v))
        (λ err,
         let* _ := update (set_fsCache (delete dirPath)) in
         throw err)
  | DirThrew err => throw err
  end.

Definition _getDir (dirPath : string) (options : PartialTemplateOptions)
  : M (list string) :=
  let* pending := _getDir_begin dirPath options in
  _getDir_end dirPath pending.

(** [_compileTemplate] and [_precompileTemplate], lines 627-652, applied
    to what [_getFile] resolved to *)
Definition compileTemplate (pre : bool) (file : fsval) (options : value) : M artifact :=
  match file with
  | FileText template =>
      let options := match options with VUndefined => VObj ∅ | _ => options end in
      let* _ := emit (Compile pre (JS.trim template) options) in
      await ((if pre then hb_precompile env else hb_compile env) (JS.trim template) options)
  | FileList _ => throw (TypeError "template.trim is not a function")
  end.

(** [getTemplate], lines 295-331 *)
Definition getTemplate (filePath : string) (options : PartialTemplateOptions)
  : M artifact :=
  let filePath := resolve1 filePath in
  let* h := this in
  let encoding := js_or (opt_encoding options) (encoding h) in
  let pre := opt_precompiled options in
  match (if opt_cache options then template_cache pre h !! filePath else None) with
  | Some template => await template
  | None =>
      try_catch
        (let* template :=
           promise
             (let* file := _getFile filePath (options_cache_encoding (opt_cache options) encoding) in
              let* h := this in
              compileTemplate pre file (compilerOptions h)) in
         let* _ := update (set_template_cache pre (<[filePath := template]>)) in
         await template)
        (λ err,
         let* _ := update (set_template_cache pre (delete filePath)) in
         throw err)
  end.

(** [getTemplates], lines 351-378, from the first [await] on *)
Definition getTemplates_end (dirPath : string) (options : PartialTemplateOptions)
  (pending : DirPending) : M (list (string * artifact)) :=
  let* filePaths := _getDir_end dirPath pending in
  let* promises :=
    mapM (λ filePath, promise (getTemplate (Path.join [dirPath; filePath]) options))
      filePaths in
  let* templates := await (Promise_all promises) in
  ret (foldl (λ hash kv, obj_set kv.1 kv.2 hash) [] (zip filePaths templates)).

Definition getTemplates (dirPath : string) (options : PartialTemplateOptions)
  : M (list (string * artifact)) :=
  let* pending := _getDir_begin dirPath (options_cache (opt_cache options)) in
  getTemplates_end dirPath options pending.

(** [_getTemplateName], lines 729-741 *)
Definition _getTemplateName (h : NextHandlebars) (filePath : string)
  (namespace : option string) : string :=
  let name :=
    if JS.endsWith filePath (extname h)
    then JS.substring0 filePath (String.length filePath - String.length (extname h))
    else filePath in
  match namespace with
  | Some ns => if negb (String.eqb ns "") then ns +:+ "/" +:+ name else name
  | None => name
  end.

(** The callback of [partialsDirs.map], lines 221-251, up to its first
    [await] *)
Definition partials_mapper_begin (options : PartialTemplateOptions)
  (dir : PartialsDirEntry) : M MapperPending :=
  let '(dirPath, dirTemplates, dirNamespace, dirRename) :=
    match dir with
    | DirString s => (Some s, None, None, None)
    | DirObject o => (pd_dir o, pd_templates o, pd_namespace o, pd_rename o)
    end in
  let dirPath := default "" dirPath in
  if String.eqb dirPath "" && negb (bool_decide (is_Some dirTemplates)) then
    ret (MapperThrew (Error "A partials dir must be a string or config object"))
  else
    match dirTemplates with
    | Some templates => ret (MapperHas templates dirNamespace dirRename)
    | None =>
        let* pending := _getDir_begin dirPath (options_cache (opt_cache options)) in
        ret (MapperAwaits dirPath pending dirNamespace dirRename)
    end.

(** The callback of [partialsDirs.map] from its first [await] on *)
Definition partials_mapper_end (options : PartialTemplateOptions)
  (pending : MapperPending) : M PartialsEntry :=
  match pending with
  | MapperThrew err => throw err
  | MapperHas templates ns rename =>
      ret {| pe_templates := templates; pe_namespace := ns; pe_rename := rename |}
  | MapperAwaits dirPath dir ns rename =>
      let* templates := getTemplates_end dirPath options dir in
      ret {| pe_templates := templates; pe_namespace := ns; pe_rename := rename |}
  end.

(** [partials[partialName] = template] on the plain object [partials].
    The name [__proto__] makes no key: that assignment goes to the
    prototype of the object.  What the object inherits from then on is not
    part of the model, whose objects are their own keys. *)
Definition partials_set (partialName : string) (template : artifact)
  (partials : gmap string artifact) : gmap string artifact :=
  if String.eqb partialName "__proto__" then partials
  else <[partialName := template]> partials.

(** The loops of lines 258-271 *)
Definition merge_entry (h : NextHandlebars) (partials : gmap string artifact)
  (dir : PartialsEntry) : gmap string artifact :=
  let getTemplateNameFn :=
    match pe_rename dir with
    | Some rename => rename
    | None => _getTemplateName h
    end in
  foldl (λ partials kv, partials_set (getTemplateNameFn kv.1 (pe_namespace dir)) kv.2 partials)
    partials (pe_templates dir).

Definition merge_partials (h : NextHandlebars) (dirs : list PartialsEntry)
  : gmap string artifact :=
  foldl (merge_entry h) ∅ dirs.

(** [getPartials], lines 193-274.  Every callback of [partialsDirs.map]
    runs up to its first [await] before [Promise.all] is called; a callback
    that threw by then has rejected already, and [Promise.all] rejects with
    its error before any other callback can end.  The other callbacks go
    on all the same, each to its end. *)
Definition getPartials (options : PartialTemplateOptions) : M (gmap string artifact) :=
  let* h := this in
  match partialsDir h with
  | None => ret ∅
  | Some pd =>
      let partialsDirs := match pd with DirArray l => l | OneDir d => [d] end in
      let* started := mapM (partials_mapper_begin options) partialsDirs in
      let* promises := mapM (λ pending, promise (partials_mapper_end options pending)) started in
      match first_thrown started with
      | Some err => throw err
      | None =>
          let* dirs := await (Promise_all promises) in
          let* h := this in
          ret (merge_partials h dirs)
      end
  end.

End Methods.

(** ** Termination of the walk towards the root *)

Lemma dirname_scan_bound path i matched e :
  Path.dirname_scan path i matched = Some e →
  if matched then e < i else e ≤ i.
Proof.
  revert matched e. induction i as [|j IH]; intros matched e; simpl; [done|].
  destruct (JS.charIs path (S j) Path.SLASH).
  - destruct matched.
    + intros H. apply IH in H. simpl in H. lia.
    + intros [= <-]. lia.
  - intros H. apply IH in H. simpl in H. destruct matched; lia.
Qed.

Lemma length_substring0 s n :
  n ≤ String.length s → String.length (String.substring 0 n s) = n.
Proof.
  revert n. induction s as [|c s IH]; intros [|n] Hn; simpl in *; try lia; try done.
  rewrite IH; lia.
Qed.

Lemma height_pos p : p ≠ "/" → p ≠ "." → height p = S (String.length p).
Proof.
  intros H1 H2. unfold height.
  destruct (String.eqb_spec p "/"); [done|].
  destruct (String.eqb_spec p "."); done.
Qed.

Lemma dirname_height p :
  Path.dirname p ≠ p → height (Path.dirname p) < height p.
Proof.
  intros Hne.
  destruct (decide (p = "/")) as [->|H1]; [by destruct Hne|].
  destruct (decide (p = ".")) as [->|H2]; [by destruct Hne|].
  rewrite (height_pos p) by done.
  unfold Path.dirname in *.
  destruct (String.length p =? 0)%nat eqn:Hlen; [cbn; lia|].
  apply Nat.eqb_neq in Hlen.
  destruct (Path.dirname_scan p (String.length p - 1) true) as [e|] eqn:Hscan.
  - apply dirname_scan_bound in Hscan.
    destruct (JS.charIs p 0 Path.SLASH && (e =? 1)%nat) eqn:Hroot.
    + apply andb_true_iff in Hroot as [_ He%Nat.eqb_eq]. subst e.
      cbn. lia.
    + unfold height, JS.substring0.
      destruct (_ || _); [lia|].
      rewrite length_substring0; lia.
  - destruct (JS.charIs p 0 Path.SLASH); cbn; lia.
Qed.

(** The loop of [_resolveViewsPath], lines 753-760: [lastDir] is the
    directory looked at last, [dir] its parent. *)
Equations? closest_parent (absoluteViews : list string) (views : list value)
  (lastDir : string) : value by wf (height lastDir) lt :=
  closest_parent absoluteViews views lastDir
    with Equations.Prop.Logic.inspect (String.eqb (Path.dirname lastDir) lastDir) := {
    | exist _ true _ => VNull
    | exist _ false Hne with indexOf absoluteViews (Path.dirname lastDir) := {
      | Some index => default VUndefined (views !! index)
      | None => closest_parent absoluteViews views (Path.dirname lastDir) } }.
Proof.
  apply dirname_height. by apply String.eqb_neq.
Qed.

(** The directories above [p], nearest first, up to the root of the file
    system. *)
Equations? ancestors (p : string) : list string by wf (height p) lt :=
  ancestors p with Equations.Prop.Logic.inspect (String.eqb (Path.dirname p) p) := {
    | exist _ true _ => []
    | exist _ false Hne => Path.dirname p :: ancestors (Path.dirname p) }.
Proof. apply dirname_height. by apply String.eqb_neq. Qed.

Section Rendering.

Context (env : Env).

(** [_resolveViewsPath], lines 743-764 *)
Definition _resolveViewsPath (views : value) (file : string) : M value :=
  match views with
  | VArr views =>
      let lastDir := resolve1 env file in
      let* absoluteViews := mapM (λ v, let* s := path_arg v in ret (resolve1 env s)) views in
      ret (closest_parent absoluteViews views lastDir)
  | _ => ret views
  end.

(** [_resolveLayoutPath], lines 766-776; [None] stands for [null]. *)
Definition _resolveLayoutPath (layoutPath : value) : M (option string) :=
  if negb (truthy layoutPath) then ret None
  else
    let* layoutPath := path_arg layoutPath in
    let* h := this in
    let layoutPath :=
      if String.eqb (Path.extname layoutPath) "" then layoutPath +:+ extname h
      else layoutPath in
    ret (Some (Path.resolve (cwd env) [default "" (layoutsDir h); layoutPath])).

(** [_renderTemplate], lines 662-670 *)
Definition _renderTemplate (template : artifact) (context options : jsobj) : M string :=
  let* _ := emit (Invoke template context options) in
  let* html := await (hb_invoke env template context options) in
  ret (JS.trim html).

(** What [render] hands to the template, lines 421-446: the merged
    helpers and runtime options, and the data channel with its [exphbs]
    entry. *)
Definition template_options (h : NextHandlebars) (filePath : string)
  (options : jsobj) (partials : value) : jsobj :=
  let helpers := VObj (spread2 (helpers h) (prop options "helpers")) in
  let runtimeOptions := VObj (spread2 (runtimeOptions h) (prop options "runtimeOptions")) in
  let exphbs :=
    <["runtimeOptions" := runtimeOptions]>
      (<["partials" := partials]>
         (<["helpers" := helpers]>
            (<["filePath" := VStr filePath]> options))) in
  let data := VObj (<["exphbs" := VObj exphbs]> (spread (prop options "data"))) in
  <["partials" := partials]>
    (<["helpers" := helpers]>
       (<["data" := data]> (spread runtimeOptions))).

(** [render], lines 400-449 *)
Definition render (filePath : string) (context options : jsobj) : M string :=
  let* h := this in
  let encoding := js_or (prop options "encoding") (encoding h) in
  let cache := truthy (prop options "cache") in
  let* template := promise (getTemplate env filePath (options_cache_encoding cache encoding)) in
  let* partials :=
    if truthy (prop options "partials") then ret (Fulfilled (prop options "partials"))
    else
      promise
        (let* partials := getPartials env (options_cache_encoding cache encoding) in
         ret (VObj (VArtifact <$> partials))) in
  let* template := await template in
  let* partials := await partials in
  let* h := this in
  _renderTemplate template context (template_options h filePath options partials).

(** [this.config.partialsDir || ...]: an empty string is the only falsy
    directory specification. *)
Definition partialsDir_or (a : option PartialsDir) (b : string) : option PartialsDir :=
  match a with
  | None | Some (OneDir (DirString "")) => Some (OneDir (DirString b))
  | Some pd => Some pd
  end.

Definition string_or (a : option string) (b : string) : string :=
  match a with
  | None | Some "" => b
  | Some s => s
  end.

(** The options handed to [render], lines 546-556 *)
Definition renderOptions (h : NextHandlebars) (options : jsobj)
  (encoding view helpers partials : value) : jsobj :=
  list_to_map
    [("cache", prop options "cache");
     ("encoding", encoding);
     ("view", view);
     ("layout", match options !! "layout" with
                | Some layout => layout
                | None => defaultLayout h
                end);
     ("data", prop options "data");
     ("helpers", helpers);
     ("partials", partials);
     ("runtimeOptions", prop options "runtimeOptions")].

(** Lines 525-531 of [renderView]: the name of the view, and the
    directories derived from the views root. *)
Definition renderView_view (viewPath : string) (viewsPath : value) : M value :=
  if truthy viewsPath then
    let* viewsPath := path_arg viewsPath in
    let* h := this in
    let view := _getTemplateName h (Path.relative (cwd env) viewsPath viewPath) None in
    let* _ :=
      update (set_dirs
        (partialsDir_or (cfg_partialsDir (config h)) (Path.join [viewsPath; "partials/"]))
        (Some (string_or (cfg_layoutsDir (config h)) (Path.join [viewsPath; "layouts/"])))) in
    ret (VStr view)
  else ret VUndefined.

(** Lines 533-556 of [renderView]: helpers, partials and the options for
    [render]. *)
Definition renderView_options (options : jsobj) (view : value) : M jsobj :=
  let* h := this in
  let encoding := js_or (prop options "encoding") (encoding h) in
  let helpers := VObj (spread2 (helpers h) (prop options "helpers")) in
  let* registered :=
    getPartials env (options_cache_encoding (truthy (prop options "cache")) encoding) in
  let partials :=
    VObj (spread2 (VObj (VArtifact <$> registered))
            (js_or (prop options "partials") (VObj ∅))) in
  let* h := this in
  ret (renderOptions h options encoding view helpers partials).

(** Lines 520-556 of [renderView]: everything before the [try]. *)
Definition renderView_prepare (viewPath : string) (options : jsobj) : M jsobj :=
  let views := js_and (prop options "settings") (member (prop options "settings") "views") in
  let* viewsPath := _resolveViewsPath views viewPath in
  let* view := renderView_view viewPath viewsPath in
  renderView_options options view.

(** Lines 558-573 of [renderView]: the body of the [try]. *)
Definition renderView_body (viewPath : string) (context renderOptions : jsobj)
  : M string :=
  let* html := render viewPath context renderOptions in
  let* layoutPath := _resolveLayoutPath (prop renderOptions "layout") in
  match layoutPath with
  | Some layoutPath =>
      if negb (String.eqb layoutPath "") then
        render layoutPath (<["body" := VStr html]> context)
          (<["layout" := VUndefined]> renderOptions)
      else ret html
  | None => ret html
  end.

(** [renderView], lines 492-580, called with an options object and no
    callback: the promise it returns settles the way the [try] block
    ends.  The options object is the context. *)
Definition renderView (viewPath : string) (options : jsobj) : M string :=
  let context := options in
  let* renderOptions := renderView_prepare viewPath options in
  renderView_body viewPath context renderOptions.

(** [resetCache], lines 591-616 *)
Definition resetCache (filePathsOrFilter : CacheSelector) (h : NextHandlebars)
  : NextHandlebars :=
  let filePaths :=
    match filePathsOrFilter with
    | SelUndefined => (map_to_list (_fsCache h)).*1
    | SelString filePath => [filePath]
    | SelFunction f => filter (λ k, f k = true) (map_to_list (_fsCache h)).*1
    | SelArray filePaths => filePaths
    end in
  foldl (λ h filePath, set_fsCache (delete filePath) h) h filePaths.

End Rendering.

(** ** The folder listings beside the class *)

(** An entry of [readdir(..., { withFileTypes: true })]. *)
Record Dirent := {
  dirent_name : string;
  dirent_isDirectory : bool
}.

(** The file system as the listings see it. *)
Record Disk := {
  disk_cwd : string;
  existsSync : string → bool;
  readdir : string → settled (list Dirent)
}.

(** What [console.log] was given. *)
Inductive logged :=
| LogPath (label : string) (path : string)
| LogEntries (label : string) (entries : list Dirent).

(** The inner loop of [findAppSubfoldersWithRouteTsx], lines 68-75, and of
    [listFoldersWithRouteTs], lines 803-810: the directories among
    [entries] that hold [routeFile] are pushed on [result]. *)
Definition push_route_folders (disk : Disk) (fullPath routeFile : string)
  (entries : list Dirent) (result : list string) : list string :=
  foldl (λ result entry,
           if dirent_isDirectory entry then
             if existsSync disk (Path.join [fullPath; dirent_name entry; routeFile])
             then result ++ [dirent_name entry]
             else result
           else result)
    result entries.

(** The outer loop of [findAppSubfoldersWithRouteTsx], lines 64-77. *)
Fixpoint findApp_loop (disk : Disk) (appDirs : list string) (result : list string)
  : settled (list string) :=
  match appDirs with
  | [] => Fulfilled result
  | appDir :: appDirs =>
      let fullPath := Path.resolve (disk_cwd disk) [appDir] in
      if existsSync disk fullPath then
        match readdir disk fullPath with
        | Fulfilled entries =>
            findApp_loop disk appDirs
              (push_route_folders disk fullPath "route.tsx" entries result)
        | Rejected e => Rejected e
        end
      else findApp_loop disk appDirs result
  end.

(** [findAppSubfoldersWithRouteTsx], lines 60-80 *)
Definition findAppSubfoldersWithRouteTsx (disk : Disk) : settled (list string) :=
  findApp_loop disk ["app"; "src/app"] [].

(** [listFoldersInCurrentProject], lines 790-793 *)
Definition listFoldersInCurrentProject (disk : Disk) : settled (list string) :=
  match readdir disk (disk_cwd disk) with
  | Fulfilled entries =>
      Fulfilled ((λ folder, Path.join [dirent_name folder])
                   <$> filter (λ entry, dirent_isDirectory entry = true) entries)
  | Rejected e => Rejected e
  end.

(** [listFoldersWithRouteTs], lines 795-813: the result and what went to
    the console. *)
Definition listFoldersWithRouteTs (disk : Disk) : settled (list string) * list logged :=
  let srcDir := Path.resolve (disk_cwd disk) ["src/app"] in
  match readdir disk srcDir with
  | Fulfilled entries =>
      (Fulfilled (push_route_folders disk srcDir "route.ts" entries []),
       [LogPath "srcDir" srcDir; LogEntries "entries" entries])
  | Rejected e => (Rejected e, [LogPath "srcDir" srcDir])
  end.

(** ** The vocabulary of the statements *)

(** Everything of an instance but its three caches. *)
Definition same_settings (h h' : NextHandlebars) : Prop :=
  config h' = config h ∧ encoding h' = encoding h ∧ layoutsDir h' = layoutsDir h
  ∧ extname h' = extname h ∧ partialsDir h' = partialsDir h
  ∧ compilerOptions h' = compilerOptions h ∧ runtimeOptions h' = runtimeOptions h
  ∧ helpers h' = helpers h ∧ defaultLayout h' = defaultLayout h.

(** From [m] to [m'] the settings are kept and the trace grows by events
    that satisfy [P]. *)
Definition grows (P : event → Prop) (m m' : machine) : Prop :=
  same_settings (self m) (self m')
  ∧ ∃ evs, trace m' = trace m ++ evs ∧ Forall P evs.

Definition respects {A} (P : event → Prop) (c : M A) : Prop :=
  ∀ m, grows P m (c m).2.

(** A string of white space only. *)
Definition blank (s : string) : Prop :=
  Forall (λ c, JS.isWhiteSpace c = true) (JS.chars s).

(** The environment in which the file at [path] holds [text]. *)
Definition with_file (env : Env) (path text : string) : Env :=
  {| cwd := cwd env;
     readFile := λ p enc, if String.eqb p path then Fulfilled text else readFile env p enc;
     glob := glob env;
     hb_compile := hb_compile env;
     hb_precompile := hb_precompile env;
     hb_invoke := hb_invoke env |}.

Definition is_invoke (e : event) : Prop :=
  match e with Invoke _ _ _ => True | _ => False end.

Definition no_invoke (e : event) : Prop := ¬ is_invoke e.

(** A cache after the promise stored under [k] has settled as [p]: the
    entry stays when it is fulfilled and is deleted when it is rejected. *)
Definition settle_in {A} (k : string) (p : settled A)
  (c : gmap string (settled A)) : gmap string (settled A) :=
  match p with
  | Fulfilled _ => <[k := p]> c
  | Rejected _ => delete k c
  end.

(** What a cache-enabled call finds under [k]. *)
Definition cached {A} (cache : bool) (c : gmap string (settled A)) (k : string)
  : option (settled A) :=
  if cache then c !! k else None.

(** The encoding [_getFile] reads with. *)
Definition read_encoding (options : PartialTemplateOptions) (h : NextHandlebars) : value :=
  js_or (js_or (opt_encoding options) (encoding h)) (VStr "utf8").

(** The options [compileTemplate] hands to Handlebars. *)
Definition compile_options (options : value) : value :=
  match options with VUndefined => VObj ∅ | _ => options end.

Definition handlebars (env : Env) (pre : bool) : string → value → settled artifact :=
  if pre then hb_precompile env else hb_compile env.

(** A concrete world for examples: one view, one layout and one partial
    under [/srv/views]; Handlebars is replaced by an engine that knows the
    layout [<body>{{{body}}}</body>] and renders every other template as
    its own text. *)
Definition demo_env : Env :=
  {| cwd := "/srv";
     readFile := λ p _,
       if String.eqb p "/srv/views/home.hbs" then Fulfilled " <p>X</p> "
       else if String.eqb p "/srv/views/layouts/main.hbs"
       then Fulfilled "<body>{{{body}}}</body>"
       else if String.eqb p "/srv/views/partials/card.hbs" then Fulfilled "<i>card</i>"
       else Rejected (FsError "ENOENT" p);
     glob := λ _ d,
       if String.eqb d "/srv/views/partials" then Fulfilled ["card.hbs"]
       else Rejected (FsError "ENOENT" d);
     hb_compile := λ text _, Fulfilled (Artifact text);
     hb_precompile := λ text _, Fulfilled (Artifact text);
     hb_invoke := λ template context _,
       match template with
       | Artifact text =>
           if String.eqb text "<body>{{{body}}}</body>" then
             match context !! "body" with
             | Some (VStr body) => Fulfilled ("<body>" +:+ body +:+ "</body>")
             | _ => Fulfilled "<body></body>"
             end
           else Fulfilled text
       end |}.

Definition demo_config : ConfigOptions :=
  {| cfg_extname := Some "hbs"; cfg_encoding := None;
     cfg_layoutsDir := Some "views/layouts"; cfg_partialsDir := None;
     cfg_defaultLayout := None; cfg_helpers := None;
     cfg_compilerOptions := None; cfg_runtimeOptions := None |}.

Definition demo : machine := Machine (create demo_config) [].

(** The three caches of [h'] hold what those of [h] hold. *)
Definition caches_kept (h h' : NextHandlebars) : Prop :=
  _fsCache h' = _fsCache h ∧ compiled h' = compiled h ∧ precompiled h' = precompiled h.

(** A cache that holds a rejected promise. *)
Definition poisoned {A} (c : gmap string (settled A)) : Prop :=
  ∃ k e, c !! k = Some (Rejected e).

(** No cache of the instance holds a rejected promise. *)
Definition clean (h : NextHandlebars) : Prop :=
  ¬ poisoned (_fsCache h) ∧ ¬ poisoned (compiled h) ∧ ¬ poisoned (precompiled h).

(** The path and the artifacts a descriptor supplies. *)
Definition entry_path (dir : PartialsDirEntry) : string :=
  match dir with
  | DirString s => s
  | DirObject o => default "" (pd_dir o)
  end.

Definition entry_templates (dir : PartialsDirEntry) : option (list (string * artifact)) :=
  match dir with
  | DirString _ => None
  | DirObject o => pd_templates o
  end.

Definition entry_namespace (dir : PartialsDirEntry) : option string :=
  match dir with
  | DirString _ => None
  | DirObject o => pd_namespace o
  end.

Definition entry_rename (dir : PartialsDirEntry)
  : option (string → option string → string) :=
  match dir with
  | DirString _ => None
  | DirObject o => pd_rename o
  end.

(** A descriptor with neither a path nor artifacts. *)
Definition invalid_entry (dir : PartialsDirEntry) : Prop :=
  entry_path dir = "" ∧ entry_templates dir = None.

(** The directory a descriptor has listed: it has a path and no artifacts. *)
Definition listed_path (dir : PartialsDirEntry) : option string :=
  match entry_templates dir with
  | Some _ => None
  | None => if String.eqb (entry_path dir) "" then None else Some (entry_path dir)
  end.

Definition partialsDirs (pd : PartialsDir) : list PartialsDirEntry :=
  match pd with DirArray l => l | OneDir d => [d] end.

Definition config_error : exn :=
  Error "A partials dir must be a string or config object".

(** The trace of [m'] is the trace of [m]: nothing was asked of the outside
    world. *)
Definition no_io (m m' : machine) : Prop := trace m' = trace m.

(** A configuration whose second descriptor supplies nothing. *)
Definition bad_config : ConfigOptions :=
  {| cfg_extname := Some "hbs"; cfg_encoding := None;
     cfg_layoutsDir := Some "views/layouts";
     cfg_partialsDir :=
       Some (DirArray
               [DirString "views/partials";
                DirObject {| pd_dir := None; pd_templates := None;
                             pd_namespace := None; pd_rename := None |}]);
     cfg_defaultLayout := None; cfg_helpers := None;
     cfg_compilerOptions := None; cfg_runtimeOptions := None |}.

(** The name under which [getPartials] files the template at [filePath] of
    the directory [dir]. *)
Definition canonical_name (h : NextHandlebars) (dir : PartialsEntry)
  (filePath : string) : string :=
  match pe_rename dir with
  | Some rename => rename
  | None => _getTemplateName h
  end filePath (pe_namespace dir).

(** [namespace/name] when a namespace is given, an empty one counting as
    none. *)
Definition with_namespace (namespace : option string) (name : string) : string :=
  match namespace with
  | Some ns => if String.eqb ns "" then name else ns +:+ "/" +:+ name
  | None => name
  end.

(** Two descriptors with the file [card.hbs] each: with a namespace on the
    first both partials are there; without it the second one wins. *)
Definition card_dir (namespace : option string) (template : string) : PartialsDirEntry :=
  DirObject {| pd_dir := None;
               pd_templates := Some [("card.hbs", Artifact template)];
               pd_namespace := namespace; pd_rename := None |}.

Definition cards_config (namespace : option string) : ConfigOptions :=
  {| cfg_extname := Some "hbs"; cfg_encoding := None; cfg_layoutsDir := None;
     cfg_partialsDir := Some (DirArray [card_dir namespace "A"; card_dir None "B"]);
     cfg_defaultLayout := None; cfg_helpers := None;
     cfg_compilerOptions := None; cfg_runtimeOptions := None |}.

(** The candidate picked: of the nearest ancestor that is a candidate, the
    first position it has among the candidates. *)
Definition nearest_candidate (absoluteViews : list string) (file : string) : option nat :=
  head (omap (indexOf absoluteViews) (ancestors file)).

(** The template invocations of a trace, in order. *)
Definition invocations (evs : list event) : list (artifact * jsobj * jsobj) :=
  omap (λ e, match e with
             | Invoke template context options => Some (template, context, options)
             | _ => None
             end) evs.

(** The file of the layout named [layout], lines 771-775. *)
Definition layout_file (env : Env) (h : NextHandlebars) (layout : string) : string :=
  Path.resolve (cwd env)
    [default "" (layoutsDir h);
     if String.eqb (Path.extname layout) "" then layout +:+ extname h else layout].

(** The layout in effect, line 551. *)
Definition effective_layout (h : NextHandlebars) (options : jsobj) : value :=
  match options !! "layout" with
  | Some layout => layout
  | None => defaultLayout h
  end.

Definition is_glob (e : event) : Prop :=
  match e with Glob _ _ => True | _ => False end.

(** The directories [getPartials] has to list, resolved, in the order of
    their descriptors. *)
Definition listed_dirs (env : Env) (pd : PartialsDir) : list string :=
  resolve1 env <$> omap listed_path (partialsDirs pd).

(** The listings that are issued for the directories [dirs]: every one of
    them when [cache] is off; with [cache] on, those that neither the file
    cache, whose keys are [held], nor an earlier directory of the list
    provides. *)
Fixpoint unserved (cache : bool) (held : gset string) (dirs : list string)
  : list string :=
  match dirs with
  | [] => []
  | dir :: dirs =>
      (if cache && bool_decide (dir ∈ held) then [] else [dir])
      ++ unserved cache ({[dir]} ∪ held) dirs
  end.

(** The key under which a pending callback has put a listing that failed
    into the file cache: the callback removes it when it goes on. *)
Definition owned (env : Env) (pending : MapperPending) : option string :=
  match pending with
  | MapperAwaits dirPath (DirStarted (Rejected _)) _ _ => Some (resolve1 env dirPath)
  | _ => None
  end.

(** The rejected promises of the file cache are under the keys [keys], and
    the template caches hold none. *)
Definition rejected_within (keys : list string) (h : NextHandlebars) : Prop :=
  (∀ k e, _fsCache h !! k = Some (Rejected e) → k ∈ keys)
  ∧ ¬ poisoned (compiled h) ∧ ¬ poisoned (precompiled h).

(** The template of a file that is read and compiled afresh: the text of
    the file, trimmed, handed to Handlebars.  The path has been resolved by
    [getTemplate] and is resolved again by [_getFile]. *)
Definition fresh_template (env : Env) (h : NextHandlebars)
  (options : PartialTemplateOptions) (filePath : string) : settled artifact :=
  match readFile env (resolve1 env (resolve1 env filePath)) (read_encoding options h) with
  | Fulfilled text =>
      handlebars env (opt_precompiled options) (JS.trim text)
        (compile_options (compilerOptions h))
  | Rejected e => Rejected e
  end.

(** The templates of a directory that is listed afresh: one key for each
    listed path, with the fresh template of that path in the directory. *)
Definition fresh_templates (env : Env) (h : NextHandlebars)
  (options : PartialTemplateOptions) (dirPath : string)
  : settled (list (string * artifact)) :=
  match glob env ("**/*" +:+ extname h) (resolve1 env dirPath) with
  | Fulfilled filePaths =>
      settled_map
        (λ templates,
           foldl (λ hash kv, obj_set kv.1 kv.2 hash) [] (zip filePaths templates))
        (Promise_all
           ((λ filePath, fresh_template env h options (Path.join [dirPath; filePath]))
              <$> filePaths))
  | Rejected e => Rejected e
  end.

(** What a descriptor stands for when nothing comes from a cache: its own
    artifacts when it has some, else the fresh templates of its
    directory, under its namespace and its rename function. *)
Definition fresh_entry (env : Env) (h : NextHandlebars)
  (options : PartialTemplateOptions) (d : PartialsDirEntry) : settled PartialsEntry :=
  settled_map
    (λ templates, {| pe_templates := templates; pe_namespace := entry_namespace d;
                     pe_rename := entry_rename d |})
    (match entry_templates d with
     | Some templates => Fulfilled templates
     | None =>
         if String.eqb (entry_path d) "" then Rejected config_error
         else fresh_templates env h options (entry_path d)
     end).

(** The entry [e] comes from the descriptor [d]: it has the namespace and
    the rename function of [d], and the artifacts of [d] or else templates
    that [getTemplates] returned for the directory of [d]. *)
Definition loaded_from (env : Env) (options : PartialTemplateOptions)
  (d : PartialsDirEntry) (e : PartialsEntry) : Prop :=
  pe_namespace e = entry_namespace d
  ∧ pe_rename e = entry_rename d
  ∧ match entry_templates d with
    | Some templates => pe_templates e = templates
    | None =>
        ∃ pending m1 m2,
          getTemplates_end env (entry_path d) options pending m1
          = (Fulfilled (pe_templates e), m2)
    end.

(** Two directories, [a] and [b], with a file [card.hbs] each. *)
Definition shelf_env : Env :=
  {| cwd := "/srv";
     readFile := λ p _,
       if String.eqb p "/srv/a/card.hbs" then Fulfilled "A"
       else if String.eqb p "/srv/b/card.hbs" then Fulfilled "B"
       else Rejected (FsError "ENOENT" p);
     glob := λ _ d,
       if String.eqb d "/srv/a" || String.eqb d "/srv/b" then Fulfilled ["card.hbs"]
       else Rejected (FsError "ENOENT" d);
     hb_compile := λ text _, Fulfilled (Artifact text);
     hb_precompile := λ text _, Fulfilled (Artifact text);
     hb_invoke := λ template _ _, match template with Artifact text => Fulfilled text end |}.

Definition shelf_config (namespace : option string) : ConfigOptions :=
  {| cfg_extname := Some "hbs"; cfg_encoding := None; cfg_layoutsDir := None;
     cfg_partialsDir :=
       Some (DirArray [DirObject {| pd_dir := Some "a"; pd_templates := None;
                                    pd_namespace := namespace; pd_rename := None |};
                       DirString "b"]);
     cfg_defaultLayout := None; cfg_helpers := None;
     cfg_compilerOptions := None; cfg_runtimeOptions := None |}.

(** Two promises settle alike: both fail, with the same error, or both
    succeed, with values that [R] relates. *)
Definition settled_alike {A} (R : A → A → Prop) (p q : settled A) : Prop :=
  match p, q with
  | Fulfilled a, Fulfilled b => R a b
  | Rejected e, Rejected e' => e = e'
  | _, _ => False
  end.

(** Two texts that are the same once trimmed. *)
Definition same_trimmed (a b : string) : Prop := JS.trim a = JS.trim b.

(** Two values of the file cache that differ at most by white space around
    the text of a file. *)
Definition fsval_alike (v w : fsval) : Prop :=
  match v, w with
  | FileText a, FileText b => same_trimmed a b
  | FileList l, FileList l' => l = l'
  | _, _ => False
  end.

(** No partials directory of the instance is the file [key]. *)
Definition dirs_apart (env : Env) (key : string) (h : NextHandlebars) : Prop :=
  ∀ pd d p, partialsDir h = Some pd → d ∈ partialsDirs pd → listed_path d = Some p →
    resolve1 env p ≠ key.

(** Two instances that differ at most by white space around the text the
    file cache holds for the file [key]. *)
Definition alike_self (env : Env) (key : string) (ha hb : NextHandlebars) : Prop :=
  same_settings ha hb
  ∧ compiled ha = compiled hb
  ∧ precompiled ha = precompiled hb
  ∧ (∀ k, k ≠ key → _fsCache ha !! k = _fsCache hb !! k)
  ∧ option_Forall2 (settled_alike fsval_alike) (_fsCache ha !! key) (_fsCache hb !! key)
  ∧ dirs_apart env key ha.

Definition alike (env : Env) (key : string) (ma mb : machine) : Prop :=
  trace ma = trace mb ∧ alike_self env key (self ma) (self mb).

(** Run from states that are alike, the two computations end alike. *)
Definition simulates {A} (env : Env) (key : string) (R : A → A → Prop) (ca cb : M A)
  : Prop :=
  ∀ ma mb, alike env key ma mb →
    settled_alike R (ca ma).1 (cb mb).1 ∧ alike env key (ca ma).2 (cb mb).2.

(** Two worlds that differ at most by white space around the text of the
    file [key]. *)
Definition worlds_alike (key : string) (ea eb : Env) : Prop :=
  cwd ea = cwd eb
  ∧ (∀ pattern dir, glob ea pattern dir = glob eb pattern dir)
  ∧ (∀ text o, hb_compile ea text o = hb_compile eb text o)
  ∧ (∀ text o, hb_precompile ea text o = hb_precompile eb text o)
  ∧ (∀ template context o, hb_invoke ea template context o
                           = hb_invoke eb template context o)
  ∧ (∀ p enc, p ≠ key → readFile ea p enc = readFile eb p enc)
  ∧ (∀ enc, settled_alike same_trimmed (readFile ea key enc) (readFile eb key enc)).

(** The demo instance with a directory of partials. *)
Definition partials_config : ConfigOptions :=
  {| cfg_extname := Some "hbs"; cfg_encoding := None;
     cfg_layoutsDir := Some "views/layouts";
     cfg_partialsDir := Some (OneDir (DirString "views/partials"));
     cfg_defaultLayout := None; cfg_helpers := None;
     cfg_compilerOptions := None; cfg_runtimeOptions := None |}.

(** An instance whose partials directory is the file of the demo view. *)
Definition view_as_dir_config : ConfigOptions :=
  {| cfg_extname := Some "hbs"; cfg_encoding := None;
     cfg_layoutsDir := Some "views/layouts";
     cfg_partialsDir := Some (OneDir (DirString "views/home.hbs"));
     cfg_defaultLayout := None; cfg_helpers := None;
     cfg_compilerOptions := None; cfg_runtimeOptions := None |}.

(** The selector [sel] names the key [k] of the file cache. *)
Definition selects (sel : CacheSelector) (k : string) : Prop :=
  match sel with
  | SelUndefined => True
  | SelString filePath => filePath = k
  | SelFunction f => f k = true
  | SelArray filePaths => k ∈ filePaths
  end.

(** The entry of a descriptor that brings its templates along. *)
Definition supplied_entry (d : PartialsDirEntry) : PartialsEntry :=
  {| pe_templates := default [] (entry_templates d);
     pe_namespace := entry_namespace d;
     pe_rename := entry_rename d |}.

(** How the callback of a descriptor that brings its templates along
    stands after its synchronous prefix. *)
Definition supplied_pending (d : PartialsDirEntry) : MapperPending :=
  MapperHas (default [] (entry_templates d)) (entry_namespace d) (entry_rename d).

(** The calls a user of an instance can make, and the instance after a
    series of them, each in the world of its time. *)
Inductive call :=
| CallGetTemplate (filePath : string) (options : PartialTemplateOptions)
| CallGetTemplates (dirPath : string) (options : PartialTemplateOptions)
| CallGetPartials (options : PartialTemplateOptions)
| CallRender (filePath : string) (context options : jsobj)
| CallRenderView (viewPath : string) (options : jsobj)
| CallResetCache (filePathsOrFilter : CacheSelector).

Definition run_call (m : machine) (c : Env * call) : machine :=
  let env := c.1 in
  match c.2 with
  | CallGetTemplate filePath options => (getTemplate env filePath options m).2
  | CallGetTemplates dirPath options => (getTemplates env dirPath options m).2
  | CallGetPartials options => (getPartials env options m).2
  | CallRender filePath context options => (render env filePath context options m).2
  | CallRenderView viewPath options => (renderView env viewPath options m).2
  | CallResetCache sel => Machine (resetCache sel (self m)) (trace m)
  end.

Definition after (calls : list (Env * call)) (m : machine) : machine :=
  foldl run_call m calls.

(** The settings no method assigns to: all but the two directories. *)
Definition fixed_settings (h h' : NextHandlebars) : Prop :=
  config h' = config h ∧ encoding h' = encoding h ∧ extname h' = extname h
  ∧ compilerOptions h' = compilerOptions h ∧ runtimeOptions h' = runtimeOptions h
  ∧ helpers h' = helpers h ∧ defaultLayout h' = defaultLayout h.

(** The directories among [entries] that hold the file [routeFile], by
    name and in the order of the listing. *)
Definition route_folders (disk : Disk) (root routeFile : string) (entries : list Dirent)
  : list string :=
  dirent_name
    <$> filter (λ entry, dirent_isDirectory entry = true
                         ∧ existsSync disk (Path.join [root; dirent_name entry; routeFile])
                           = true) entries.

(** What [findAppSubfoldersWithRouteTsx] lists of a root: nothing when the
    root does not exist. *)
Definition listing_if_exists (disk : Disk) (root : string) : settled (list Dirent) :=
  if existsSync disk root then readdir disk root else Fulfilled [].

(** A name as a directory entry has it: not empty, not [.] or [..], and
    without a slash. *)
Definition plain_name (name : string) : Prop :=
  name ≠ "" ∧ name ≠ "." ∧ name ≠ ".."
  ∧ Forall (λ c, c ≠ Path.SLASH) (JS.chars name).

(** A project with [app/blog/route.tsx] and an [app/docs] without a route,
    and no [src/app]. *)
Definition demo_disk : Disk :=
  {| disk_cwd := "/proj";
     existsSync := λ p, String.eqb p "/proj/app" || String.eqb p "/proj/app/blog/route.tsx";
     readdir := λ p,
       if String.eqb p "/proj/app" then
         Fulfilled [{| dirent_name := "blog"; dirent_isDirectory := true |};
                    {| dirent_name := "docs"; dirent_isDirectory := true |};
                    {| dirent_name := "page.tsx"; dirent_isDirectory := false |}]
       else if String.eqb p "/proj" then
         Fulfilled [{| dirent_name := "app"; dirent_isDirectory := true |};
                    {| dirent_name := "package.json"; dirent_isDirectory := false |}]
       else Rejected (FsError "ENOENT" p) |}.

(** ** node:path on examples *)

Example dirname_nested : Path.dirname "/a/b/c.hbs" = "/a/b".
Proof. reflexivity. Qed.
Example dirname_top : Path.dirname "/a" = "/".
Proof. reflexivity. Qed.
Example dirname_root : Path.dirname "/" = "/".
Proof. reflexivity. Qed.
Example dirname_double : Path.dirname "/a//b" = "/a/".
Proof. reflexivity. Qed.
Example extname_plain : Path.extname "main" = "".
Proof. reflexivity. Qed.
Example extname_hbs : Path.extname "layouts/main.hbs" = ".hbs".
Proof. reflexivity. Qed.
Example extname_dotfile : Path.extname ".profile" = "".
Proof. reflexivity. Qed.
Example extname_dotdot : Path.extname ".." = "".
Proof. reflexivity. Qed.
Example extname_trailing : Path.extname "a.b/" = ".b".
Proof. reflexivity. Qed.
Example resolve_rel : Path.resolve "/srv/app" ["views/layouts/"; "main.handlebars"]
  = "/srv/app/views/layouts/main.handlebars".
Proof. reflexivity. Qed.
Example resolve_abs : Path.resolve "/srv/app" ["/views"; "../x/./y"] = "/x/y".
Proof. reflexivity. Qed.
Example resolve_empty : Path.resolve "/srv/app" [""; "main.hbs"] = "/srv/app/main.hbs".
Proof. reflexivity. Qed.
Example join_partials : Path.join ["/srv/views"; "partials/"] = "/srv/views/partials/".
Proof. reflexivity. Qed.
Example relative_view : Path.relative "/srv" "/srv/views" "/srv/views/blog/post.hbs"
  = "blog/post.hbs".
Proof. reflexivity. Qed.
Example relative_up : Path.relative "/srv" "/srv/views/a" "/srv/x" = "../../x".
Proof. reflexivity. Qed.
Example trim_blank_lines : JS.trim (String "010" (" <h1>x</h1> " +:+ String "010" ""))
  = "<h1>x</h1>".
Proof. reflexivity. Qed.

(** ** What the methods leave alone, and what they tell the outside world *)

Lemma same_settings_refl h : same_settings h h.
Proof. by repeat split. Qed.

Lemma same_settings_trans h1 h2 h3 :
  same_settings h1 h2 → same_settings h2 h3 → same_settings h1 h3.
Proof.
  unfold same_settings. intros (?&?&?&?&?&?&?&?&?) (?&?&?&?&?&?&?&?&?).
  repeat split; congruence.
Qed.

Lemma grows_refl P m : grows P m m.
Proof.
  split; [apply same_settings_refl|]. exists []. by rewrite app_nil_r.
Qed.

Lemma grows_trans P m1 m2 m3 : grows P m1 m2 → grows P m2 m3 → grows P m1 m3.
Proof.
  intros [S1 (e1 & T1 & F1)] [S2 (e2 & T2 & F2)]. split.
  - by eapply same_settings_trans.
  - exists (e1 ++ e2). rewrite T2, T1, app_assoc. split; [done|].
    by apply Forall_app.
Qed.

Lemma grows_weaken (P Q : event → Prop) m m' :
  (∀ e, P e → Q e) → grows P m m' → grows Q m m'.
Proof.
  intros HPQ [S (evs & T & F)]. split; [done|]. exists evs. split; [done|].
  eapply Forall_impl; eauto.
Qed.

Section Respects.

Context (P : event → Prop).

Lemma respects_ret {A} (a : A) : respects P (ret a).
Proof. intros m. apply grows_refl. Qed.

Lemma respects_throw {A} e : respects P (@throw A e).
Proof. intros m. apply grows_refl. Qed.

Lemma respects_await {A} (p : settled A) : respects P (await p).
Proof. intros m. apply grows_refl. Qed.

Lemma respects_this : respects P this.
Proof. intros m. apply grows_refl. Qed.

Lemma respects_bind {A B} (c : M A) (k : A → M B) :
  respects P c → (∀ a, respects P (k a)) → respects P (bind c k).
Proof.
  intros Hc Hk m. unfold bind. specialize (Hc m).
  destruct (c m) as [[a|e] m1]; simpl in *; [|done].
  eapply grows_trans; [done|]. apply Hk.
Qed.

Lemma respects_try_catch {A} (c : M A) (k : exn → M A) :
  respects P c → (∀ e, respects P (k e)) → respects P (try_catch c k).
Proof.
  intros Hc Hk m. unfold try_catch. specialize (Hc m).
  destruct (c m) as [[a|e] m1]; simpl in *; [done|].
  eapply grows_trans; [done|]. apply Hk.
Qed.

Lemma respects_promise {A} (c : M A) : respects P c → respects P (promise c).
Proof.
  intros Hc m. unfold promise. specialize (Hc m). by destruct (c m).
Qed.

Lemma respects_emit e : P e → respects P (emit e).
Proof.
  intros He m. split; [apply same_settings_refl|].
  exists [e]. split; [done|]. by constructor.
Qed.

Lemma respects_update f :
  (∀ h, same_settings h (f h)) → respects P (update f).
Proof.
  intros Hf m. split; [apply Hf|]. exists []. simpl. by rewrite app_nil_r.
Qed.

Lemma respects_mapM {A B} (f : A → M B) l :
  (∀ a, respects P (f a)) → respects P (mapM f l).
Proof.
  intros Hf. induction l as [|x l IH]; simpl.
  - apply respects_ret.
  - apply respects_bind; [done|]. intros y.
    apply respects_bind; [done|]. intros ys. apply respects_ret.
Qed.

Lemma same_settings_fsCache f h : same_settings h (set_fsCache f h).
Proof. by repeat split. Qed.

Lemma same_settings_template_cache pre f h :
  same_settings h (set_template_cache pre f h).
Proof. destruct pre; by repeat split. Qed.

Context (env : Env).
Context (P_read : ∀ p enc, P (ReadFile p enc)).
Context (P_glob : ∀ pat d, P (Glob pat d)).
Context (P_compile : ∀ pre text o, P (Compile pre (JS.trim text) o)).

Lemma _getFile_respects filePath options : respects P (_getFile env filePath options).
Proof.
  unfold _getFile. apply respects_bind; [apply respects_this|]. intros h.
  destruct (if opt_cache options then _ else _); [apply respects_await|].
  apply respects_try_catch.
  - apply respects_bind; [by apply respects_emit|]. intros _.
    apply respects_bind; [|intros _; apply respects_await].
    apply respects_update, same_settings_fsCache.
  - intros e. apply respects_bind; [|intros _; apply respects_throw].
    apply respects_update, same_settings_fsCache.
Qed.

Lemma _getDir_begin_respects dirPath options :
  respects P (_getDir_begin env dirPath options).
Proof.
  unfold _getDir_begin. apply respects_bind; [apply respects_this|]. intros h.
  destruct (if opt_cache options then _ else _); [apply respects_ret|].
  apply respects_bind; [by apply respects_emit|]. intros _.
  apply respects_bind; [apply respects_update, same_settings_fsCache|]. intros _.
  destruct (opt_throwTestError options); [|apply respects_ret].
  apply respects_bind; [|intros _; apply respects_ret].
  apply respects_update, same_settings_fsCache.
Qed.

Lemma _getDir_end_respects dirPath pending :
  respects P (_getDir_end env dirPath pending).
Proof.
  unfold _getDir_end. destruct pending.
  - apply respects_bind; [apply respects_await|]. intros; apply respects_ret.
  - apply respects_try_catch.
    + apply respects_bind; [apply respects_await|]. intros; apply respects_ret.
    + intros e. apply respects_bind; [|intros _; apply respects_throw].
      apply respects_update, same_settings_fsCache.
  - apply respects_throw.
Qed.

Lemma compileTemplate_respects pre file options :
  respects P (compileTemplate env pre file options).
Proof.
  unfold compileTemplate. destruct file; [|apply respects_throw].
  apply respects_bind; [by apply respects_emit|]. intros _. apply respects_await.
Qed.

Lemma getTemplate_respects filePath options :
  respects P (getTemplate env filePath options).
Proof.
  unfold getTemplate. apply respects_bind; [apply respects_this|]. intros h.
  destruct (if opt_cache options then _ else _); [apply respects_await|].
  apply respects_try_catch.
  - apply respects_bind.
    + apply respects_promise. apply respects_bind; [apply _getFile_respects|].
      intros file. apply respects_bind; [apply respects_this|]. intros h'.
      apply compileTemplate_respects.
    + intros t. apply respects_bind; [|intros _; apply respects_await].
      apply respects_update. intros ?. apply same_settings_template_cache.
  - intros e. apply respects_bind; [|intros _; apply respects_throw].
    apply respects_update. intros ?. apply same_settings_template_cache.
Qed.

Lemma getTemplates_end_respects dirPath options pending :
  respects P (getTemplates_end env dirPath options pending).
Proof.
  unfold getTemplates_end. apply respects_bind; [apply _getDir_end_respects|].
  intros filePaths. apply respects_bind.
  { apply respects_mapM. intros; apply respects_promise, getTemplate_respects. }
  intros promises. apply respects_bind; [apply respects_await|].
  intros; apply respects_ret.
Qed.

Lemma partials_mapper_begin_respects options dir :
  respects P (partials_mapper_begin env options dir).
Proof.
  unfold partials_mapper_begin.
  destruct (match dir with DirString _ => _ | DirObject _ => _ end)
    as [[[dirPath dirTemplates] ns] rn].
  destruct (_ && _); [apply respects_ret|].
  destruct dirTemplates; [apply respects_ret|].
  apply respects_bind; [apply _getDir_begin_respects|]. intros; apply respects_ret.
Qed.

Lemma partials_mapper_end_respects options pending :
  respects P (partials_mapper_end env options pending).
Proof.
  unfold partials_mapper_end. destruct pending.
  - apply respects_throw.
  - apply respects_ret.
  - apply respects_bind; [apply getTemplates_end_respects|].
    intros; apply respects_ret.
Qed.

Lemma getPartials_respects options : respects P (getPartials env options).
Proof.
  unfold getPartials. apply respects_bind; [apply respects_this|]. intros h.
  destruct (partialsDir h) as [pd|]; [|apply respects_ret].
  apply respects_bind.
  { apply respects_mapM. intros; apply partials_mapper_begin_respects. }
  intros started. apply respects_bind.
  { apply respects_mapM. intros; apply respects_promise, partials_mapper_end_respects. }
  intros promises. destruct (first_thrown started); [apply respects_throw|].
  apply respects_bind; [apply respects_await|].
  intros dirs. apply respects_bind; [apply respects_this|].
  intros; apply respects_ret.
Qed.

Lemma render_respects filePath context options :
  (∀ a ro, P (Invoke a context ro)) →
  respects P (render env filePath context options).
Proof.
  intros P_invoke. unfold render.
  apply respects_bind; [apply respects_this|]. intros h.
  apply respects_bind; [apply respects_promise, getTemplate_respects|]. intros template.
  apply respects_bind.
  { destruct (truthy _); [apply respects_ret|]. apply respects_promise.
    apply respects_bind; [apply getPartials_respects|]. intros; apply respects_ret. }
  intros partials. apply respects_bind; [apply respects_await|]. intros template'.
  apply respects_bind; [apply respects_await|]. intros partials'.
  apply respects_bind; [apply respects_this|]. intros h'.
  unfold _renderTemplate.
  apply respects_bind; [by apply respects_emit|]. intros _.
  apply respects_bind; [apply respects_await|]. intros; apply respects_ret.
Qed.

End Respects.

(** ** The cache invalidator *)

Lemma resetCache_fold (l : list string) (h : NextHandlebars) :
  foldl (λ h filePath, set_fsCache (delete filePath) h) h l
  = set_fsCache (λ c, foldl (λ c filePath, delete filePath c) c l) h.
Proof.
  revert h. induction l as [|p l IH]; intros h; simpl.
  - by destruct h.
  - rewrite IH. by destruct h.
Qed.

Lemma lookup_foldl_delete {A} (l : list string) (c : gmap string A) (k : string) :
  foldl (λ c filePath, delete filePath c) c l !! k
  = if decide (k ∈ l) then None else c !! k.
Proof.
  revert c. induction l as [|p l IH]; intros c; cbn [foldl].
  - case_decide as Hk; [|done]. by apply elem_of_nil in Hk.
  - rewrite IH. clear IH.
    destruct (decide (k ∈ l)) as [Hin|Hnin].
    + rewrite decide_True; [done|]. by apply list_elem_of_further.
    + destruct (decide (p = k)) as [->|Hne].
      * rewrite lookup_delete_eq, decide_True; [done|]. apply list_elem_of_here.
      * rewrite lookup_delete_ne, decide_False; [done| |done].
        intros [?|?]%elem_of_cons; congruence.
Qed.

Lemma elem_of_cache_keys {A} (c : gmap string A) (k : string) :
  k ∈ (map_to_list c).*1 ↔ is_Some (c !! k).
Proof.
  rewrite list_elem_of_fmap. split.
  - intros [[k' v] [-> Hin]]. apply elem_of_map_to_list in Hin. by exists v.
  - intros [v Hv]. exists (k, v). split; [done|]. by apply elem_of_map_to_list.
Qed.

(** C9. [resetCache] without a selector empties the file cache; with a
    string it removes that one key; with a list, exactly the listed keys;
    with a predicate, exactly the cached keys the predicate accepts.
    Removing a key that is not cached changes nothing, and the compiled and
    precompiled template caches are never touched. *)
Theorem resetCache_removes (h : NextHandlebars) :
  _fsCache (resetCache SelUndefined h) = ∅
  ∧ (∀ p, _fsCache (resetCache (SelString p) h) = delete p (_fsCache h))
  ∧ (∀ l k, _fsCache (resetCache (SelArray l) h) !! k
            = if decide (k ∈ l) then None else _fsCache h !! k)
  ∧ (∀ f k, _fsCache (resetCache (SelFunction f) h) !! k
            = if f k then None else _fsCache h !! k)
  ∧ (∀ p, resetCache (SelString p) (set_fsCache (delete p) h)
          = set_fsCache (delete p) h)
  ∧ (∀ sel, compiled (resetCache sel h) = compiled h
            ∧ precompiled (resetCache sel h) = precompiled h
            ∧ same_settings h (resetCache sel h)).
Proof.
  unfold resetCache. split; [|split; [|split; [|split; [|split]]]].
  - rewrite resetCache_fold. apply map_empty. intros k. simpl.
    rewrite lookup_foldl_delete.
    case_decide as Hk; [done|].
    rewrite elem_of_cache_keys in Hk. by apply eq_None_not_Some.
  - done.
  - intros l k. rewrite resetCache_fold. simpl. apply lookup_foldl_delete.
  - intros f k. rewrite resetCache_fold. simpl. rewrite lookup_foldl_delete.
    destruct (f k) eqn:Hf.
    + case_decide as Hk; [done|]. apply eq_None_not_Some. intros Hs.
      apply Hk. apply list_elem_of_filter. split; [done|].
      by apply elem_of_cache_keys.
    + rewrite decide_False; [done|].
      intros [Hk _]%list_elem_of_filter. congruence.
  - intros p. simpl. destruct h; unfold set_fsCache; simpl.
    by rewrite delete_delete_eq.
  - intros sel. rewrite resetCache_fold. by repeat split.
Qed.

(** ** Running a computation step by step *)

Lemma bind_fulfilled {A B} (c : M A) (k : A → M B) m b m' :
  bind c k m = (Fulfilled b, m') →
  ∃ a m1, c m = (Fulfilled a, m1) ∧ k a m1 = (Fulfilled b, m').
Proof.
  unfold bind. destruct (c m) as [[a|e] m1]; [|done]. intros H. by exists a, m1.
Qed.

Lemma bind_run {A B} (c : M A) (k : A → M B) m a m1 :
  c m = (Fulfilled a, m1) → bind c k m = k a m1.
Proof. unfold bind. by intros ->. Qed.

Lemma bind_rejected {A B} (c : M A) (k : A → M B) m e m1 :
  c m = (Rejected e, m1) → bind c k m = (Rejected e, m1).
Proof. unfold bind. by intros ->. Qed.

Lemma bind_eq {A B} (c : M A) (k : A → M B) m r m1 :
  c m = (r, m1) →
  bind c k m = match r with
               | Fulfilled a => k a m1
               | Rejected e => (Rejected e, m1)
               end.
Proof. unfold bind. by intros ->. Qed.

(** ** White space around a template *)

Lemma chars_app s t : JS.chars (s +:+ t) = JS.chars s ++ JS.chars t.
Proof. induction s as [|c s IH]; simpl; [done|]. unfold JS.chars in *. by rewrite IH. Qed.

Lemma trimStartL_blank pre l :
  Forall (λ c, JS.isWhiteSpace c = true) pre →
  JS.trimStartL (pre ++ l) = JS.trimStartL l.
Proof. induction 1 as [|c pre Hc _ IH]; simpl; [done|]. by rewrite Hc. Qed.

Lemma trimStartL_all_blank l :
  Forall (λ c, JS.isWhiteSpace c = true) l → JS.trimStartL l = [].
Proof. intros H. rewrite <- (app_nil_r l). by rewrite trimStartL_blank. Qed.

Lemma trimStartL_app l post :
  JS.trimStartL l ≠ [] → JS.trimStartL (l ++ post) = JS.trimStartL l ++ post.
Proof.
  induction l as [|c l IH]; simpl; [done|].
  destruct (JS.isWhiteSpace c); [done|]. done.
Qed.

Lemma trimStartL_nil_blank l :
  JS.trimStartL l = [] → Forall (λ c, JS.isWhiteSpace c = true) l.
Proof.
  induction l as [|c l IH]; simpl; [constructor|].
  destruct (JS.isWhiteSpace c) eqn:Hc; [|done]. intros H. constructor; auto.
Qed.

Lemma trimL_blank_around pre l post :
  Forall (λ c, JS.isWhiteSpace c = true) pre →
  Forall (λ c, JS.isWhiteSpace c = true) post →
  JS.trimL (pre ++ l ++ post) = JS.trimL l.
Proof.
  intros Hpre Hpost. unfold JS.trimL. rewrite trimStartL_blank by done.
  destruct (JS.trimStartL l) as [|c l'] eqn:Hl.
  - rewrite (trimStartL_all_blank (l ++ post)); [done|].
    apply Forall_app. split; [by apply trimStartL_nil_blank|done].
  - rewrite trimStartL_app by (by rewrite Hl). rewrite Hl.
    rewrite reverse_app. rewrite trimStartL_blank; [done|].
    by apply Forall_reverse.
Qed.

Lemma trim_blank_around pre raw post :
  blank pre → blank post → JS.trim (pre +:+ raw +:+ post) = JS.trim raw.
Proof.
  intros Hpre Hpost. unfold JS.trim. rewrite !chars_app.
  by rewrite trimL_blank_around.
Qed.

(** ** The view renderer *)

(** How [render] ends: everything before the template is invoked leaves
    the settings alone and invokes nothing; the template is invoked at most
    once, with the context given, and its output is trimmed. *)
Lemma render_shape env filePath context options m r m' :
  render env filePath context options m = (r, m') →
  ∃ m1, grows no_invoke m m1
    ∧ self m' = self m1
    ∧ ((trace m' = trace m1 ∧ is_rejected r)
       ∨ ∃ template partials,
           let ro := template_options (self m1) filePath options partials in
           trace m' = trace m1 ++ [Invoke template context ro]
           ∧ r = settled_map JS.trim (hb_invoke env template context ro)).
Proof.
  unfold render. unfold bind at 1, this at 1.
  set (enc := js_or _ _). set (cache := truthy (prop options "cache")).
  assert (Hgt : grows no_invoke m
                 (getTemplate env filePath (options_cache_encoding cache enc) m).2)
    by (apply getTemplate_respects; intros; intros []).
  unfold bind at 1, promise at 1.
  destruct (getTemplate env filePath _ m) as [template m1]; simpl in Hgt.
  set (getp := if truthy (prop options "partials") then _ else _).
  assert (Hp : respects no_invoke getp).
  { subst getp. destruct (truthy (prop options "partials")); [apply respects_ret|].
    apply respects_promise. apply respects_bind; [|intros; apply respects_ret].
    apply getPartials_respects; intros; intros []. }
  specialize (Hp m1). unfold bind at 1.
  destruct (getp m1) as [[partials|e] m2]; simpl in Hp;
    [|intros [= <- <-]; exists m2; split; [by eapply grows_trans|]; simpl; auto].
  unfold bind at 1, await at 1.
  destruct template as [template|e];
    [|intros [= <- <-]; exists m2; split; [by eapply grows_trans|]; simpl; auto].
  unfold bind at 1, await at 1.
  destruct partials as [partials|e];
    [|intros [= <- <-]; exists m2; split; [by eapply grows_trans|]; simpl; auto].
  unfold bind, this, _renderTemplate, bind, emit, await, ret. simpl.
  intros H. exists m2. split; [by eapply grows_trans|].
  destruct (hb_invoke env template context
              (template_options (self m2) filePath options partials))
    as [out|e] eqn:Hinv;
    simplify_eq/=; (split; [done|]); right; exists template, partials;
    (split; [done|]); by rewrite Hinv.
Qed.

(** [render] when the partials come with the options. *)
Lemma render_with_partials env filePath context options m :
  truthy (prop options "partials") = true →
  render env filePath context options m
  = match getTemplate env filePath
            (options_cache_encoding (truthy (prop options "cache"))
               (js_or (prop options "encoding") (encoding (self m)))) m with
    | (Fulfilled template, m1) =>
        let ro := template_options (self m1) filePath options (prop options "partials") in
        (settled_map JS.trim (hb_invoke env template context ro),
         Machine (self m1) (trace m1 ++ [Invoke template context ro]))
    | (Rejected e, m1) => (Rejected e, m1)
    end.
Proof.
  intros Hp. unfold render. unfold bind at 1, this at 1.
  unfold bind at 1, promise at 1.
  destruct (getTemplate env filePath _ m) as [[template|e] m1]; rewrite Hp; [|done].
  unfold bind, ret, this, _renderTemplate, bind, emit, await, ret.
  cbn [self trace]. by destruct (hb_invoke env _ _ _).
Qed.

(** ** The cache operations, run *)

Lemma _getFile_hit env filePath options m file :
  cached (opt_cache options) (_fsCache (self m)) (resolve1 env filePath) = Some file →
  _getFile env filePath options m = (file, m).
Proof.
  unfold cached, _getFile, bind, this, await. simpl. by intros ->.
Qed.

Lemma _getFile_miss env filePath options m :
  cached (opt_cache options) (_fsCache (self m)) (resolve1 env filePath) = None →
  let k := resolve1 env filePath in
  let enc := read_encoding options (self m) in
  let file := settled_map FileText (readFile env k enc) in
  _getFile env filePath options m
  = (file, Machine (set_fsCache (settle_in k file) (self m))
             (trace m ++ [ReadFile k enc])).
Proof.
  unfold cached, _getFile, read_encoding, bind, this, try_catch, emit, update, await, throw.
  simpl. intros ->. destruct m as [h tr]. simpl.
  destruct (readFile env _ _); simpl; [done|].
  unfold set_fsCache; simpl. by rewrite delete_insert_eq.
Qed.

Lemma _getDir_hit env dirPath options m dir :
  cached (opt_cache options) (_fsCache (self m)) (resolve1 env dirPath) = Some dir →
  _getDir env dirPath options m = (settled_map spread_list dir, m).
Proof.
  unfold cached, _getDir, _getDir_begin, _getDir_end, bind, this, await, ret.
  simpl. intros ->. by destruct dir.
Qed.

Lemma _getDir_miss env dirPath options m :
  cached (opt_cache options) (_fsCache (self m)) (resolve1 env dirPath) = None →
  let k := resolve1 env dirPath in
  let pattern := "**/*" +:+ extname (self m) in
  let dir := if opt_throwTestError options then Rejected (Error "test")
             else settled_map FileList (glob env pattern k) in
  _getDir env dirPath options m
  = (settled_map spread_list dir,
     Machine (set_fsCache (settle_in k dir) (self m)) (trace m ++ [Glob pattern k])).
Proof.
  unfold cached, _getDir, _getDir_begin, _getDir_end, bind, this, try_catch, emit,
    update, await, throw, ret.
  simpl. intros ->. destruct m as [h tr]. simpl.
  destruct (opt_throwTestError options); simpl.
  - unfold set_fsCache; simpl. by rewrite delete_insert_eq.
  - destruct (glob env _ _); simpl; [done|].
    unfold set_fsCache; simpl. by rewrite delete_insert_eq.
Qed.

Lemma compileTemplate_text env pre template options m :
  compileTemplate env pre (FileText template) options m
  = (handlebars env pre (JS.trim template) (compile_options options),
     Machine (self m)
       (trace m ++ [Compile pre (JS.trim template) (compile_options options)])).
Proof. unfold compileTemplate, handlebars, bind, emit, await. by destruct pre. Qed.

Lemma compileTemplate_list env pre paths options m :
  compileTemplate env pre (FileList paths) options m
  = (Rejected (TypeError "template.trim is not a function"), m).
Proof. done. Qed.

Lemma getTemplate_hit env filePath options m template :
  cached (opt_cache options) (template_cache (opt_precompiled options) (self m))
    (resolve1 env filePath) = Some template →
  getTemplate env filePath options m = (template, m).
Proof.
  unfold cached, getTemplate, bind, this, await. simpl. by intros ->.
Qed.

(** The file is read under the path resolved twice: [getTemplate] resolves
    it and [_getFile] resolves the result again. *)
Lemma getTemplate_miss env filePath options m :
  cached (opt_cache options) (template_cache (opt_precompiled options) (self m))
    (resolve1 env filePath) = None →
  let k := resolve1 env filePath in
  let pre := opt_precompiled options in
  let o := options_cache_encoding (opt_cache options)
             (js_or (opt_encoding options) (encoding (self m))) in
  let loaded :=
    bind (_getFile env k o)
      (λ file, bind this (λ h, compileTemplate env pre file (compilerOptions h))) m in
  getTemplate env filePath options m
  = (loaded.1,
     Machine (set_template_cache pre (settle_in k loaded.1) (self loaded.2))
       (trace loaded.2)).
Proof.
  unfold cached, getTemplate. unfold bind at 1, this at 1. simpl. intros ->.
  unfold try_catch, promise. unfold bind at 1.
  match goal with |- context [bind (_getFile ?e ?k ?o) ?f m] =>
    destruct (bind (_getFile e k o) f m) as [[a|e'] [h tr]] end; simpl.
  - done.
  - unfold bind, update, await, throw. simpl. f_equal. f_equal.
    destruct (opt_precompiled options); unfold set_template_cache, set_precompiled,
      set_compiled; simpl; by rewrite delete_insert_eq.
Qed.

(** ** Caching switched off *)

Lemma js_or_absorb a b : js_or (js_or a b) b = js_or a b.
Proof. unfold js_or. destruct (truthy a) eqn:Ha; [by rewrite Ha|]. by destruct (truthy b). Qed.

Lemma settle_in_other {A} (k k' : string) (p : settled A) c :
  k ≠ k' → settle_in k p c !! k' = c !! k'.
Proof.
  intros Hne. destruct p; simpl; [by rewrite lookup_insert_ne|by rewrite lookup_delete_ne].
Qed.

Lemma settle_in_rejected {A} (k : string) (p : settled A) c :
  is_rejected p → settle_in k p c !! k = None.
Proof. destruct p; [done|]. intros _. apply lookup_delete_eq. Qed.

Lemma cached_off {A} (c : gmap string (settled A)) k : cached false c k = None.
Proof. done. Qed.




(** ** Failures are evicted *)

Lemma settle_in_clean {A} (k : string) (p : settled A) c :
  ¬ poisoned c → ¬ poisoned (settle_in k p c).
Proof.
  intros Hc (k' & e & Hk'). apply Hc. exists k', e.
  destruct (decide (k = k')) as [<-|Hne].
  - destruct p; simpl in Hk'.
    + rewrite lookup_insert_eq in Hk'. done.
    + rewrite lookup_delete_eq in Hk'. done.
  - by rewrite settle_in_other in Hk'.
Qed.

Lemma cached_clean {A} cache (c : gmap string (settled A)) k p :
  ¬ poisoned c → cached cache c k = Some p → ¬ is_rejected p.
Proof.
  intros Hc Hp Hr. apply Hc. destruct p as [|e]; [done|]. exists k, e.
  unfold cached in Hp. by destruct cache.
Qed.

Lemma clean_fsCache k p h :
  clean h → clean (set_fsCache (settle_in k p) h).
Proof. intros (?&?&?). split; [|done]. by apply settle_in_clean. Qed.

Lemma clean_template_cache pre k p h :
  clean h → clean (set_template_cache pre (settle_in k p) h).
Proof.
  intros (?&?&?). destruct pre; (split; [done|split]); simpl; try done;
    by apply settle_in_clean.
Qed.

Lemma clean_create cfg : clean (create cfg).
Proof.
  repeat split; intros (k & e & H); simpl in H; by rewrite lookup_empty in H.
Qed.

Lemma _getFile_clean env filePath options m :
  clean (self m) → clean (self (_getFile env filePath options m).2).
Proof.
  intros Hc.
  destruct (cached (opt_cache options) (_fsCache (self m)) (resolve1 env filePath))
    as [file|] eqn:Hf.
  - by rewrite (_getFile_hit _ _ _ _ file).
  - rewrite _getFile_miss by done. by apply clean_fsCache.
Qed.

Lemma compileTemplate_self env pre file o m :
  self (compileTemplate env pre file o m).2 = self m.
Proof.
  destruct file; [by rewrite compileTemplate_text|by rewrite compileTemplate_list].
Qed.

(** C5. From an instance whose caches hold no rejected promise, every call
    of [_getFile], [_getDir] or [getTemplate] leaves the caches without a
    rejected promise; and when the call fails, the resolved path has no
    entry in the cache concerned once the error is out, and the next call
    for that path, whatever its options, does not find the failure but
    reads, lists or loads again. *)
Theorem failure_evicts env filePath options m :
  clean (self m) →
  (∀ r m', _getFile env filePath options m = (r, m') →
     clean (self m')
     ∧ (is_rejected r →
        _fsCache (self m') !! resolve1 env filePath = None
        ∧ ∀ env' options', cwd env' = cwd env →
            let k := resolve1 env filePath in
            let enc := read_encoding options' (self m') in
            let file := settled_map FileText (readFile env' k enc) in
            _getFile env' filePath options' m'
            = (file, Machine (set_fsCache (settle_in k file) (self m'))
                       (trace m' ++ [ReadFile k enc]))))
  ∧ (∀ r m', _getDir env filePath options m = (r, m') →
       clean (self m')
       ∧ (is_rejected r →
          _fsCache (self m') !! resolve1 env filePath = None
          ∧ ∀ env' options', cwd env' = cwd env →
              let k := resolve1 env filePath in
              let pattern := "**/*" +:+ extname (self m') in
              let dir := if opt_throwTestError options' then Rejected (Error "test")
                         else settled_map FileList (glob env' pattern k) in
              _getDir env' filePath options' m'
              = (settled_map spread_list dir,
                 Machine (set_fsCache (settle_in k dir) (self m'))
                   (trace m' ++ [Glob pattern k]))))
  ∧ (∀ r m', getTemplate env filePath options m = (r, m') →
       clean (self m')
       ∧ (is_rejected r →
          template_cache (opt_precompiled options) (self m') !! resolve1 env filePath
          = None
          ∧ ∀ env' options', cwd env' = cwd env →
              opt_precompiled options' = opt_precompiled options →
              let k := resolve1 env filePath in
              let pre := opt_precompiled options in
              let o := options_cache_encoding (opt_cache options')
                         (js_or (opt_encoding options') (encoding (self m'))) in
              let loaded :=
                bind (_getFile env' k o)
                  (λ file, bind this
                     (λ h, compileTemplate env' pre file (compilerOptions h)))
                  m' in
              getTemplate env' filePath options' m'
              = (loaded.1,
                 Machine (set_template_cache pre (settle_in k loaded.1) (self loaded.2))
                   (trace loaded.2)))).
Proof.
  intros Hc. split; [|split].
  - intros r m' Hrun.
    destruct (cached (opt_cache options) (_fsCache (self m)) (resolve1 env filePath))
      as [file|] eqn:Hf.
    { rewrite (_getFile_hit _ _ _ _ file) in Hrun by done. injection Hrun as -> <-.
      split; [done|]. intros Hrej.
      exfalso. by apply (cached_clean _ _ _ _ (proj1 Hc) Hf). }
    rewrite _getFile_miss in Hrun by done. cbn zeta in Hrun.
    injection Hrun as Hr <-.
    split; [by apply clean_fsCache|]. intros Hrej.
    assert (Hnone : _fsCache (self {| self := set_fsCache
              (settle_in (resolve1 env filePath)
                 (settled_map FileText (readFile env (resolve1 env filePath)
                    (read_encoding options (self m))))) (self m);
              trace := trace m ++ [ReadFile (resolve1 env filePath)
                                     (read_encoding options (self m))] |})
            !! resolve1 env filePath = None).
    { simpl. apply settle_in_rejected. by rewrite Hr. }
    split; [done|].
    intros env' options' Hcwd. cbn zeta.
    assert (Hk : resolve1 env' filePath = resolve1 env filePath)
      by (unfold resolve1; by rewrite Hcwd).
    match goal with |- _getFile env' filePath options' ?m' = _ =>
      pose proof (_getFile_miss env' filePath options' m') as E end.
    cbn zeta in E. rewrite Hk in E. apply E.
    unfold cached. destruct (opt_cache options'); [|done]. apply Hnone.
  - intros r m' Hrun.
    destruct (cached (opt_cache options) (_fsCache (self m)) (resolve1 env filePath))
      as [dir|] eqn:Hf.
    { rewrite (_getDir_hit _ _ _ _ dir) in Hrun by done. injection Hrun as <- <-.
      split; [done|]. intros Hrej.
      exfalso. apply (cached_clean _ _ _ _ (proj1 Hc) Hf). by destruct dir. }
    rewrite _getDir_miss in Hrun by done. cbn zeta in Hrun.
    injection Hrun as Hr <-.
    set (dir := if opt_throwTestError options then _ else _) in *.
    split; [by apply clean_fsCache|]. intros Hrej.
    assert (Hnone : _fsCache (set_fsCache (settle_in (resolve1 env filePath) dir) (self m))
            !! resolve1 env filePath = None).
    { simpl. apply settle_in_rejected. subst r. by destruct dir. }
    split; [done|].
    intros env' options' Hcwd. cbn zeta.
    assert (Hk : resolve1 env' filePath = resolve1 env filePath)
      by (unfold resolve1; by rewrite Hcwd).
    match goal with |- _getDir env' filePath options' ?m' = _ =>
      pose proof (_getDir_miss env' filePath options' m') as E end.
    cbn zeta in E. rewrite Hk in E. apply E.
    unfold cached. destruct (opt_cache options'); [|done]. apply Hnone.
  - intros r m' Hrun.
    destruct (cached (opt_cache options)
                (template_cache (opt_precompiled options) (self m))
                (resolve1 env filePath)) as [template|] eqn:Hf.
    { rewrite (getTemplate_hit _ _ _ _ template) in Hrun by done.
      injection Hrun as -> <-. split; [done|]. intros Hrej.
      destruct Hc as (H1&H2&H3). exfalso.
      destruct (opt_precompiled options); simpl in Hf.
      - by apply (cached_clean _ _ _ _ H3 Hf).
      - by apply (cached_clean _ _ _ _ H2 Hf). }
    rewrite getTemplate_miss in Hrun by done. cbn zeta in Hrun.
    set (loaded := bind _ _ m) in Hrun.
    injection Hrun as Hr <-.
    assert (Hcl : clean (self loaded.2)).
    { subst loaded. unfold bind at 1.
      pose proof (_getFile_clean env (resolve1 env filePath)
        (options_cache_encoding (opt_cache options)
           (js_or (opt_encoding options) (encoding (self m)))) m Hc) as Hg.
      destruct (_getFile env _ _ m) as [[file|e'] m1]; [|done].
      unfold bind, this. by rewrite compileTemplate_self. }
    cbn [self]. split; [by apply clean_template_cache|]. intros Hrej.
    assert (Hnone : template_cache (opt_precompiled options)
              (set_template_cache (opt_precompiled options)
                 (settle_in (resolve1 env filePath) loaded.1) (self loaded.2))
            !! resolve1 env filePath = None).
    { rewrite Hr. destruct r as [|e]; [done|].
      by destruct (opt_precompiled options); simpl; apply lookup_delete_eq. }
    split; [done|].
    intros env' options' Hcwd Hpre. cbn zeta.
    assert (Hk : resolve1 env' filePath = resolve1 env filePath)
      by (unfold resolve1; by rewrite Hcwd).
    match goal with |- getTemplate env' filePath options' ?m' = _ =>
      pose proof (getTemplate_miss env' filePath options' m') as E end.
    cbn zeta in E. rewrite Hk, Hpre in E. apply E.
    unfold cached. destruct (opt_cache options'); [|done]. apply Hnone.
Qed.

Lemma failure_evicts_witness :
  clean (self demo)
  ∧ _fsCache (self (_getFile demo_env "views/missing.hbs" (options_cache true) demo).2)
    !! resolve1 demo_env "views/missing.hbs" = None.
Proof.
  assert (Hc : clean (self demo)).
  { repeat split; intros (k & e & H); simpl in H; by rewrite lookup_empty in H. }
  split; [exact Hc|].
  exact (proj1 (proj2 (proj1 (failure_evicts demo_env "views/missing.hbs"
                                 (options_cache true) demo Hc) _ _ eq_refl) I)).
Defined.

(** ** The partial resolver: descriptors *)

(** [Promise.all] waits for promises that are there whatever becomes of
    them: the callbacks all run. *)
Lemma mapM_promise {A B} (f : A → M B) (l : list A) m :
  ∃ promises, mapM (λ x, promise (f x)) l m
              = (Fulfilled promises, (mapM (λ x, promise (f x)) l m).2).
Proof.
  revert m. induction l as [|x l IH]; intros m; cbn [mapM].
  - by eexists.
  - unfold bind at 1 3, promise at 1 3. destruct (f x m) as [r m1].
    destruct (IH m1) as [ps Hps]. unfold bind at 1 2. rewrite Hps. by eexists.
Qed.

(** How the callback of [partialsDirs.map] stands after its synchronous
    prefix, for one descriptor. *)
Lemma partials_mapper_begin_run env options dir m :
  ∃ pending m',
    partials_mapper_begin env options dir m = (Fulfilled pending, m')
    ∧ same_settings (self m) (self m')
    ∧ compiled (self m') = compiled (self m)
    ∧ precompiled (self m') = precompiled (self m)
    ∧ (invalid_entry dir → pending = MapperThrew config_error)
    ∧ (∀ e, pending = MapperThrew e → e = config_error)
    ∧ match listed_path dir with
      | Some p =>
          let k := resolve1 env p in
          trace m' = trace m
                     ++ (if opt_cache options && bool_decide (k ∈ dom (_fsCache (self m)))
                         then [] else [Glob ("**/*" +:+ extname (self m)) k])
          ∧ dom (_fsCache (self m')) = {[k]} ∪ dom (_fsCache (self m))
      | None => m' = m
      end.
Proof.
  unfold partials_mapper_begin, invalid_entry, listed_path.
  assert (Hfields :
    match dir with
    | DirString s => (Some s, None, None, None)
    | DirObject o => (pd_dir o, pd_templates o, pd_namespace o, pd_rename o)
    end = (match dir with DirString s => Some s | DirObject o => pd_dir o end,
           entry_templates dir, entry_namespace dir, entry_rename dir))
    by by destruct dir.
  rewrite Hfields. clear Hfields.
  assert (Hpath : default "" (match dir with DirString s => Some s
                                           | DirObject o => pd_dir o end)
                  = entry_path dir) by by destruct dir.
  rewrite Hpath. clear Hpath.
  destruct m as [h tr].
  destruct (entry_templates dir) as [templates|] eqn:Ht.
  { rewrite andb_false_r. eexists _, _. cbn [ret self trace].
    repeat split; try done. by intros [_ ?]. }
  rewrite andb_true_r.
  destruct (String.eqb_spec (entry_path dir) "") as [Hp|Hp].
  { eexists _, _. cbn [ret self trace]. repeat split; try done. by intros e [= <-]. }
  unfold _getDir_begin, bind, this, emit, update, ret.
  cbn [self trace opt_cache opt_throwTestError options_cache].
  destruct (opt_cache options) eqn:Hcache; cbn [andb].
  - destruct (_fsCache h !! resolve1 env (entry_path dir)) as [dir0|] eqn:Hk.
    + eexists _, _. cbn [self trace].
      assert (Hin : resolve1 env (entry_path dir) ∈ dom (_fsCache h))
        by (apply elem_of_dom; by eexists).
      rewrite bool_decide_true by done. rewrite app_nil_r.
      split; [reflexivity|]. repeat split; try done; [intros [? _]; congruence|].
      symmetry. apply subseteq_union_1_L. by apply singleton_subseteq_l.
    + eexists _, _. cbn [self trace set_fsCache _fsCache].
      assert (Hin : resolve1 env (entry_path dir) ∉ dom (_fsCache h))
        by (by apply not_elem_of_dom).
      rewrite bool_decide_false by done. split; [reflexivity|].
      cbn [self trace set_fsCache _fsCache].
      repeat split; try done; [intros [? _]; congruence|]. by rewrite dom_insert_L.
  - eexists _, _. split; [reflexivity|]. cbn [self trace set_fsCache _fsCache].
    repeat split; try done; [intros [? _]; congruence|]. by rewrite dom_insert_L.
Qed.

Lemma partials_begin_all_run env options dirs m :
  ∃ started m',
    mapM (partials_mapper_begin env options) dirs m = (Fulfilled started, m')
    ∧ same_settings (self m) (self m')
    ∧ compiled (self m') = compiled (self m)
    ∧ precompiled (self m') = precompiled (self m)
    ∧ (Exists invalid_entry dirs → first_thrown started = Some config_error)
    ∧ trace m' = trace m
                 ++ (Glob ("**/*" +:+ extname (self m))
                     <$> unserved (opt_cache options) (dom (_fsCache (self m)))
                           (resolve1 env <$> omap listed_path dirs)).
Proof.
  revert m. induction dirs as [|dir dirs IH]; intros m.
  - exists [], m. cbn [mapM ret]. simpl. rewrite app_nil_r.
    repeat split; try done; try apply same_settings_refl.
    by intros ?%Exists_nil.
  - destruct (partials_mapper_begin_run env options dir m)
      as (pending & m1 & Hrun & Hs & Hc & Hp & Hinv & Hthrew & Hev).
    destruct (IH m1) as (started & m2 & Hrun2 & Hs2 & Hc2 & Hp2 & Hinv2 & Hev2).
    exists (pending :: started), m2. cbn [mapM].
    rewrite (bind_eq _ _ _ _ _ Hrun), (bind_eq _ _ _ _ _ Hrun2).
    assert (Hext : extname (self m1) = extname (self m)) by apply Hs.
    split; [done|]. split; [by eapply same_settings_trans|].
    split; [congruence|]. split; [congruence|]. split.
    + intros [Hd|Hds]%Exists_cons.
      * rewrite (Hinv Hd). done.
      * unfold first_thrown in *. cbn [omap list_omap].
        destruct pending as [e| |]; [|by apply Hinv2..].
        cbn [head]. by rewrite (Hthrew e eq_refl).
    + rewrite Hev2, Hext. cbn [omap list_omap].
      destruct (listed_path dir) as [p|]; [|by subst m1].
      destruct Hev as [Hev Hdom]. cbn zeta in Hev, Hdom.
      rewrite Hev, Hdom. cbn [fmap list_fmap unserved].
      rewrite fmap_app, app_assoc. f_equal. by destruct (_ && _).
Qed.

(** *** Failed listings do not stay *)

Lemma clean_rejected_within h : clean h ↔ rejected_within [] h.
Proof.
  unfold clean, rejected_within, poisoned. split.
  - intros (Hf & ? & ?). split; [|done]. intros k e Hk. exfalso. apply Hf. eauto.
  - intros (Hf & ? & ?). split; [|done]. intros (k & e & Hk).
    by apply Hf, elem_of_nil in Hk.
Qed.

Lemma rejected_within_fsCache k p keys h :
  rejected_within keys h → rejected_within keys (set_fsCache (settle_in k p) h).
Proof.
  intros (Hf & ? & ?). split; [|done]. intros k' e. cbn [set_fsCache _fsCache].
  destruct (decide (k = k')) as [<-|Hne].
  - destruct p; simpl; [by rewrite lookup_insert_eq|by rewrite lookup_delete_eq].
  - rewrite settle_in_other by done. apply Hf.
Qed.

Lemma rejected_within_template_cache pre k p keys h :
  rejected_within keys h → rejected_within keys (set_template_cache pre (settle_in k p) h).
Proof.
  intros (?&?&?). destruct pre; (split; [done|split]); simpl; try done;
    by apply settle_in_clean.
Qed.

Lemma _getFile_rejected_within env filePath options keys m :
  rejected_within keys (self m) →
  rejected_within keys (self (_getFile env filePath options m).2).
Proof.
  intros Hc.
  destruct (cached (opt_cache options) (_fsCache (self m)) (resolve1 env filePath))
    as [file|] eqn:Hf.
  - by rewrite (_getFile_hit _ _ _ _ file).
  - rewrite _getFile_miss by done. by apply rejected_within_fsCache.
Qed.

Lemma getTemplate_rejected_within env filePath options keys m :
  rejected_within keys (self m) →
  rejected_within keys (self (getTemplate env filePath options m).2).
Proof.
  intros Hc.
  destruct (cached (opt_cache options)
              (template_cache (opt_precompiled options) (self m))
              (resolve1 env filePath)) as [template|] eqn:Hf.
  - by rewrite (getTemplate_hit _ _ _ _ template).
  - rewrite getTemplate_miss by done. cbn zeta. cbn [snd self].
    apply rejected_within_template_cache. unfold bind at 1.
    pose proof (_getFile_rejected_within env (resolve1 env filePath)
      (options_cache_encoding (opt_cache options)
         (js_or (opt_encoding options) (encoding (self m)))) keys m Hc) as Hg.
    destruct (_getFile env _ _ m) as [[file|e'] m1]; [|done].
    unfold bind, this. by rewrite compileTemplate_self.
Qed.

(** What every callback keeps, the callbacks keep together. *)
Lemma mapM_promise_keeps {A B} (I : machine → Prop) (f : A → M B) (l : list A) m :
  (∀ x m, I m → I (f x m).2) →
  I m → I (mapM (λ x, promise (f x)) l m).2.
Proof.
  intros Hf. revert m. induction l as [|x l IH]; intros m Hm; cbn [mapM]; [done|].
  unfold bind at 1, promise at 1. specialize (Hf x m Hm).
  destruct (f x m) as [r m1]. simpl in Hf. specialize (IH m1 Hf).
  unfold bind at 1. destruct (mapM _ l m1) as [[ps|e] m2]; done.
Qed.

Lemma partials_mapper_end_evicts env options pending keys m :
  rejected_within (option_list (owned env pending) ++ keys) (self m) →
  rejected_within keys (self (partials_mapper_end env options pending m).2).
Proof.
  intros Hc. unfold partials_mapper_end.
  destruct pending as [err|templates ns rename|dirPath dir ns rename]; [done..|].
  assert (Hfiles : ∀ filePaths m0, rejected_within keys (self m0) →
            rejected_within keys
              (self ((let* promises :=
                        mapM (λ filePath,
                                promise (getTemplate env (Path.join [dirPath; filePath])
                                           options)) filePaths in
                      let* templates := await (Promise_all promises) in
                      ret (foldl (λ hash kv, obj_set kv.1 kv.2 hash) []
                             (zip filePaths templates))) m0).2)).
  { intros filePaths m0 Hm0.
    pose proof (mapM_promise_keeps (λ m, rejected_within keys (self m))
                  (λ filePath, getTemplate env (Path.join [dirPath; filePath]) options)
                  filePaths m0
                  (λ x m, getTemplate_rejected_within env _ options keys m) Hm0) as Hk.
    unfold bind at 1.
    destruct (mapM _ filePaths m0) as [[ps|e] m2]; [|done].
    unfold bind, await, ret. by destruct (Promise_all ps). }
  unfold bind at 1, getTemplates_end. unfold bind at 1.
  destruct dir as [dir|dir|err]; cbn [owned option_list app] in Hc.
  - unfold _getDir_end, bind at 1, await, ret.
    destruct dir as [v|e]; simpl.
    + specialize (Hfiles (spread_list v) m Hc).
      by destruct ((let* _ := _ in _) m) as [[?|?] ?].
    + done.
  - destruct dir as [v|e]; cbn [owned option_list app] in Hc.
    + unfold _getDir_end, try_catch, bind at 1, await, ret. simpl.
      specialize (Hfiles (spread_list v) m Hc).
      by destruct ((let* _ := _ in _) m) as [[?|?] ?].
    + unfold _getDir_end, try_catch, bind, await, update, throw. simpl.
      destruct Hc as (Hf & ? & ?). split; [|done]. intros k e'.
      cbn [set_fsCache _fsCache].
      destruct (decide (resolve1 env dirPath = k)) as [<-|Hne].
      * by rewrite lookup_delete_eq.
      * rewrite lookup_delete_ne by done. intros Hk.
        apply Hf in Hk. apply elem_of_cons in Hk as [->|Hk]; done.
  - done.
Qed.

Lemma partials_mapper_begin_owns env options dir keys m pending m' :
  partials_mapper_begin env options dir m = (Fulfilled pending, m') →
  rejected_within keys (self m) →
  rejected_within (option_list (owned env pending) ++ keys) (self m').
Proof.
  intros Hrun Hc. revert Hrun. unfold partials_mapper_begin.
  destruct (match dir with DirString _ => _ | DirObject _ => _ end)
    as [[[dirPath dirTemplates] ns] rn].
  destruct (_ && _); [by intros [= <- <-]|].
  destruct dirTemplates; [by intros [= <- <-]|].
  unfold _getDir_begin, bind, this, emit, update, ret.
  cbn [self trace opt_cache opt_throwTestError options_cache].
  destruct (if opt_cache options then _ else _) as [dir0|]; intros [= <- <-]; [done|].
  cbn [self owned].
  destruct Hc as (Hf & ? & ?). split; [|done]. intros k e.
  cbn [set_fsCache _fsCache].
  destruct (decide (resolve1 env (default "" dirPath) = k)) as [<-|Hne].
  - rewrite lookup_insert_eq. intros [= Hg]. rewrite Hg. cbn. apply list_elem_of_here.
  - rewrite lookup_insert_ne by done. intros Hk%Hf.
    apply elem_of_app. by right.
Qed.

Lemma rejected_within_mono keys keys' h :
  keys ⊆ keys' → rejected_within keys h → rejected_within keys' h.
Proof. intros Hsub (Hf & ? & ?). split; [|done]. intros k e Hk. by apply Hsub, (Hf k e). Qed.

Lemma partials_begin_all_owns env options dirs keys m started m' :
  mapM (partials_mapper_begin env options) dirs m = (Fulfilled started, m') →
  rejected_within keys (self m) →
  rejected_within (omap (owned env) started ++ keys) (self m').
Proof.
  revert keys m started. induction dirs as [|dir dirs IH]; intros keys m started; cbn [mapM].
  - by intros [= <- <-].
  - intros (pending & m1 & Hrun & Hrest)%bind_fulfilled Hc.
    apply bind_fulfilled in Hrest as (started' & m2 & Hrun2 & [= <- <-]).
    pose proof (partials_mapper_begin_owns _ _ _ _ _ _ _ Hrun Hc) as Hc1.
    pose proof (IH _ _ _ Hrun2 Hc1) as Hc2.
    eapply rejected_within_mono; [|exact Hc2].
    cbn [omap list_omap]. intros k.
    destruct (owned env pending); cbn [option_list];
      repeat setoid_rewrite elem_of_app; repeat setoid_rewrite elem_of_cons; repeat setoid_rewrite elem_of_app; try setoid_rewrite elem_of_nil; tauto.
Qed.

Lemma partials_end_all_evicts env options started keys m :
  rejected_within (omap (owned env) started ++ keys) (self m) →
  rejected_within keys
    (self (mapM (λ pending, promise (partials_mapper_end env options pending)) started m).2).
Proof.
  revert m. induction started as [|pending started IH]; intros m Hc; cbn [mapM]; [done|].
  unfold bind at 1, promise at 1.
  pose proof (partials_mapper_end_evicts env options pending
                (omap (owned env) started ++ keys) m) as Hstep.
  destruct (partials_mapper_end env options pending m) as [r m1]. cbn [snd] in Hstep.
  specialize (IH m1). unfold bind at 1.
  destruct (mapM _ started m1) as [[ps|e] m2]; cbn [snd] in *; apply IH, Hstep;
    (eapply rejected_within_mono; [|exact Hc]);
    cbn [omap list_omap]; intros k;
    destruct (owned env pending); cbn [option_list];
    repeat setoid_rewrite elem_of_app; repeat setoid_rewrite elem_of_cons; repeat setoid_rewrite elem_of_app; try setoid_rewrite elem_of_nil; tauto.
Qed.

(** C2, the claim as written, fails: when the callbacks of
    [partialsDirs.map] have returned, which is before the configuration
    error can be raised, the listing of the first directory has been asked
    for. *)
Lemma config_error_counterexample :
  let m := Machine (create bad_config) [] in
  (∃ pd, partialsDir (self m) = Some pd ∧ Exists invalid_entry (partialsDirs pd))
  ∧ (getPartials demo_env (options_cache false) m).1 = Rejected config_error
  ∧ ¬ no_io m (getPartials demo_env (options_cache false) m).2
  ∧ ¬ no_io m
        (mapM (partials_mapper_begin demo_env (options_cache false))
           [DirString "views/partials";
            DirObject {| pd_dir := None; pd_templates := None;
                         pd_namespace := None; pd_rename := None |}] m).2.
Proof.
  split; [|split; [|split]].
  - eexists. split; [reflexivity|]. apply Exists_cons_tl, Exists_cons_hd. by split.
  - reflexivity.
  - unfold no_io. vm_compute. discriminate.
  - unfold no_io. vm_compute. discriminate.
Qed.

(** The error cancels nothing: with the listing in the file cache, the
    file it names is read and compiled, and its template cached, by the
    call that fails. *)
Example config_error_loading_goes_on :
  let m := (_getDir demo_env "views/partials" (options_cache true)
              (Machine (create bad_config) [])).2 in
  let r := getPartials demo_env (options_cache true) m in
  r.1 = Rejected config_error
  ∧ trace r.2 = trace m ++ [ReadFile "/srv/views/partials/card.hbs" (VStr "utf8");
                            Compile false "<i>card</i>" (VObj ∅)]
  ∧ compiled (self r.2) !! "/srv/views/partials/card.hbs"
    = Some (Fulfilled (Artifact "<i>card</i>")).
Proof. cbn zeta. split; [|split]; vm_compute; reflexivity. Qed.

(** C2, amended. When some descriptor supplies neither a path nor
    artifacts, [getPartials] fails with the configuration error, whatever
    becomes of the other descriptors.  It does not fail before I/O: the
    first thing the call does, in the synchronous prefixes of the
    callbacks, is to ask for the listing of every descriptor that has a
    path and no artifacts, in the order of the descriptors, unless caching
    is on and the file cache holds the listing or an earlier descriptor of
    the call has asked for it; by then no template cache has changed.  The
    failure cancels nothing: every callback goes on to its end, without any
    further listing, and a listing that failed does not stay in the file
    cache. *)
Theorem config_error_after_listing env options m pd :
  partialsDir (self m) = Some pd →
  Exists invalid_entry (partialsDirs pd) →
  ∃ started m1 promises m' rest,
    getPartials env options m = (Rejected config_error, m')
    ∧ mapM (partials_mapper_begin env options) (partialsDirs pd) m
      = (Fulfilled started, m1)
    ∧ trace m1 = trace m
                 ++ (Glob ("**/*" +:+ extname (self m))
                     <$> unserved (opt_cache options) (dom (_fsCache (self m)))
                           (listed_dirs env pd))
    ∧ compiled (self m1) = compiled (self m)
    ∧ precompiled (self m1) = precompiled (self m)
    ∧ mapM (λ pending, promise (partials_mapper_end env options pending)) started m1
      = (Fulfilled promises, m')
    ∧ trace m' = trace m1 ++ rest
    ∧ Forall (λ ev, ¬ is_glob ev) rest
    ∧ same_settings (self m) (self m')
    ∧ (clean (self m) → clean (self m')).
Proof.
  intros Hpd Hinv.
  destruct (partials_begin_all_run env options (partialsDirs pd) m)
    as (started & m1 & Hrun & Hs & Hc & Hp & Hthrown & Htrace).
  destruct (mapM_promise (partials_mapper_end env options) started m1)
    as [promises Hend].
  assert (Hg : grows (λ ev, ¬ is_glob ev) m1
                 (mapM (λ pending, promise (partials_mapper_end env options pending))
                    started m1).2).
  { apply respects_mapM. intros pending.
    apply respects_promise, partials_mapper_end_respects; intros; intros []. }
  destruct Hg as [Hs' (rest & Hrest & Hnoglob)].
  set (m' := (mapM _ started m1).2) in *.
  exists started, m1, promises, m', rest.
  split; [|split; [done|split; [done|split; [done|split; [done|split; [done|
    split; [done|split; [done|split]]]]]]]].
  - unfold getPartials. rewrite (bind_run this _ m (self m) m eq_refl), Hpd.
    fold (partialsDirs pd).
    rewrite (bind_eq _ _ _ _ _ Hrun), (bind_eq _ _ _ _ _ Hend).
    by rewrite (Hthrown Hinv).
  - by eapply same_settings_trans.
  - intros Hclean%clean_rejected_within. apply clean_rejected_within.
    apply partials_end_all_evicts. rewrite app_nil_r.
    pose proof (partials_begin_all_owns _ _ _ _ _ _ _ Hrun Hclean) as Ho.
    by rewrite app_nil_r in Ho.
Qed.

Lemma config_error_after_listing_witness :
  ∃ m',
    getPartials demo_env (options_cache false) (Machine (create bad_config) [])
    = (Rejected config_error, m')
    ∧ trace m' = [Glob "**/*.hbs" "/srv/views/partials";
                  ReadFile "/srv/views/partials/card.hbs" (VStr "utf8");
                  Compile false "<i>card</i>" (VObj ∅)]
    ∧ clean (self m').
Proof.
  destruct (config_error_after_listing demo_env (options_cache false)
              (Machine (create bad_config) []) _ eq_refl)
    as (started & m1 & promises & m' & rest & H1 & _ & _ & _ & _ & _ & _ & _ & _ & H2).
  - apply Exists_cons_tl, Exists_cons_hd. by split.
  - exists m'. split; [exact H1|]. split; [|apply H2, clean_create].
    assert (E : (getPartials demo_env (options_cache false)
                   (Machine (create bad_config) [])).2 = m') by (by rewrite H1).
    rewrite <- E. vm_compute. reflexivity.
Defined.
(** ** The partial resolver: names and merge order *)

Lemma append_cons c s t : String c s +:+ t = String c (s +:+ t).
Proof. done. Qed.

Lemma length_append s t : String.length (s +:+ t) = String.length s + String.length t.
Proof.
  induction s as [|c s IH]; [done|]. rewrite append_cons. simpl. by rewrite IH.
Qed.

Lemma substring_full t : String.substring 0 (String.length t) t = t.
Proof. induction t as [|c t IH]; simpl; [done|]. by rewrite IH. Qed.

Lemma substring_append_l s t : String.substring 0 (String.length s) (s +:+ t) = s.
Proof.
  induction s as [|c s IH]; [by destruct t|]. rewrite append_cons. simpl.
  by rewrite IH.
Qed.

Lemma substring_append_r s t :
  String.substring (String.length s) (String.length t) (s +:+ t) = t.
Proof.
  induction s as [|c s IH]; [apply substring_full|]. by rewrite append_cons.
Qed.

Lemma endsWith_append stem ext : JS.endsWith (stem +:+ ext) ext = true.
Proof.
  unfold JS.endsWith. rewrite length_append.
  replace (String.length stem + String.length ext - String.length ext)
    with (String.length stem) by lia.
  rewrite substring_append_r, String.eqb_refl.
  apply andb_true_iff. split; [|done]. apply Nat.leb_le. lia.
Qed.

Lemma _getTemplateName_stem h stem namespace :
  _getTemplateName h (stem +:+ extname h) namespace = with_namespace namespace stem.
Proof.
  unfold _getTemplateName, with_namespace. rewrite endsWith_append, length_append.
  replace (String.length stem + String.length (extname h) - String.length (extname h))
    with (String.length stem) by lia.
  unfold JS.substring0. rewrite substring_append_l.
  destruct namespace as [ns|]; [|done]. by destruct (String.eqb ns "").
Qed.

Lemma _getTemplateName_other h filePath namespace :
  JS.endsWith filePath (extname h) = false →
  _getTemplateName h filePath namespace = with_namespace namespace filePath.
Proof.
  unfold _getTemplateName, with_namespace. intros ->.
  destruct namespace as [ns|]; [|done]. by destruct (String.eqb ns "").
Qed.

Lemma partials_set_other name' template partials name :
  name' ≠ name → partials_set name' template partials !! name = partials !! name.
Proof.
  intros Hne. unfold partials_set. destruct (String.eqb name' "__proto__"); [done|].
  by apply lookup_insert_ne.
Qed.

Lemma partials_set_same name template partials :
  name ≠ "__proto__" → partials_set name template partials !! name = Some template.
Proof.
  intros Hne. unfold partials_set.
  destruct (String.eqb_spec name "__proto__"); [done|]. apply lookup_insert_eq.
Qed.

Lemma partials_set_origin name' template' partials name template :
  partials_set name' template' partials !! name = Some template →
  (name' = name ∧ template' = template) ∨ partials !! name = Some template.
Proof.
  unfold partials_set. destruct (String.eqb name' "__proto__"); [by right|].
  destruct (decide (name' = name)) as [->|Hne].
  - rewrite lookup_insert_eq. intros [= ->]. by left.
  - rewrite lookup_insert_ne by done. by right.
Qed.

Lemma partials_set_proto name template partials :
  partials_set name template partials !! "__proto__" = partials !! "__proto__".
Proof.
  unfold partials_set. destruct (String.eqb_spec name "__proto__"); [done|].
  by apply lookup_insert_ne.
Qed.

Lemma foldl_set_other (g : string → string) (l : list (string * artifact)) acc name :
  (∀ kv, kv ∈ l → g kv.1 ≠ name) →
  foldl (λ partials kv, partials_set (g kv.1) kv.2 partials) acc l !! name = acc !! name.
Proof.
  revert acc. induction l as [|kv l IH]; intros acc Hl; cbn [foldl]; [done|].
  rewrite IH by (intros; apply Hl; by apply list_elem_of_further).
  apply partials_set_other, Hl, list_elem_of_here.
Qed.

Lemma foldl_set_last (g : string → string) (earlier later : list (string * artifact))
  acc k v :
  g k ≠ "__proto__" →
  (∀ kv, kv ∈ later → g kv.1 ≠ g k) →
  foldl (λ partials kv, partials_set (g kv.1) kv.2 partials) acc
    (earlier ++ (k, v) :: later) !! g k = Some v.
Proof.
  intros Hk Hl. rewrite foldl_app. cbn [foldl].
  rewrite foldl_set_other by done. by apply partials_set_same.
Qed.

Lemma foldl_set_origin (g : string → string) (l : list (string * artifact)) acc name
  template :
  foldl (λ partials kv, partials_set (g kv.1) kv.2 partials) acc l !! name = Some template →
  acc !! name = Some template ∨ ∃ kv, kv ∈ l ∧ g kv.1 = name ∧ kv.2 = template.
Proof.
  revert acc. induction l as [|kv l IH]; intros acc; cbn [foldl]; [by left|].
  intros [Hacc|(kv' & Hin & Hn & Ht)]%IH.
  - apply partials_set_origin in Hacc as [[Hn Ht]|Hacc]; [|by left].
    right. exists kv. split; [apply list_elem_of_here|done].
  - right. exists kv'. split; [by apply list_elem_of_further|done].
Qed.

Lemma foldl_set_proto (g : string → string) (l : list (string * artifact)) acc :
  foldl (λ partials kv, partials_set (g kv.1) kv.2 partials) acc l !! "__proto__"
  = acc !! "__proto__".
Proof.
  revert acc. induction l as [|kv l IH]; intros acc; cbn [foldl]; [done|].
  rewrite IH. apply partials_set_proto.
Qed.

Lemma merge_entry_other h acc dir name :
  (∀ kv, kv ∈ pe_templates dir → canonical_name h dir kv.1 ≠ name) →
  merge_entry h acc dir !! name = acc !! name.
Proof. intros H. unfold merge_entry. by apply (foldl_set_other (canonical_name h dir)). Qed.

Lemma merge_dirs_other h acc dirs name :
  (∀ d kv, d ∈ dirs → kv ∈ pe_templates d → canonical_name h d kv.1 ≠ name) →
  foldl (merge_entry h) acc dirs !! name = acc !! name.
Proof.
  revert acc. induction dirs as [|d dirs IH]; intros acc Hd; cbn [foldl]; [done|].
  rewrite IH by (intros; eapply Hd; [by apply list_elem_of_further|done]).
  apply merge_entry_other. intros kv Hkv. eapply Hd; [apply list_elem_of_here|done].
Qed.

(** Later entries overwrite earlier ones. *)
Lemma merge_partials_last h before dir after earlier filePath template later :
  pe_templates dir = earlier ++ (filePath, template) :: later →
  canonical_name h dir filePath ≠ "__proto__" →
  (∀ kv, kv ∈ later →
     canonical_name h dir kv.1 ≠ canonical_name h dir filePath) →
  (∀ d kv, d ∈ after → kv ∈ pe_templates d →
     canonical_name h d kv.1 ≠ canonical_name h dir filePath) →
  merge_partials h (before ++ dir :: after) !! canonical_name h dir filePath
  = Some template.
Proof.
  intros Ht Hproto Hlater Hafter. unfold merge_partials. rewrite foldl_app. cbn [foldl].
  rewrite merge_dirs_other by done.
  unfold merge_entry. rewrite Ht.
  by apply (foldl_set_last (canonical_name h dir)).
Qed.

(** The merged mapping holds nothing but entries of the descriptors. *)
Lemma merge_partials_origin h dirs name template :
  merge_partials h dirs !! name = Some template →
  ∃ dir filePath, dir ∈ dirs ∧ (filePath, template) ∈ pe_templates dir
                  ∧ canonical_name h dir filePath = name.
Proof.
  unfold merge_partials.
  assert (H : ∀ acc, foldl (merge_entry h) acc dirs !! name = Some template →
            acc !! name = Some template
            ∨ ∃ dir filePath, dir ∈ dirs ∧ (filePath, template) ∈ pe_templates dir
                              ∧ canonical_name h dir filePath = name).
  { induction dirs as [|d dirs IH]; intros acc; cbn [foldl]; [by left|].
    intros [Hacc|(dir & filePath & Hin & Hkv & Hn)]%IH.
    - unfold merge_entry in Hacc.
      apply (foldl_set_origin (canonical_name h d)) in Hacc
        as [Hacc|([k v] & Hin & Hn & Ht)]; [by left|].
      right. exists d, k. simpl in *. subst v.
      split; [apply list_elem_of_here|done].
    - right. exists dir, filePath. split; [by apply list_elem_of_further|done]. }
  intros [Hempty|?]%H; [|done]. by rewrite lookup_empty in Hempty.
Qed.

Lemma merge_partials_proto h dirs : merge_partials h dirs !! "__proto__" = None.
Proof.
  unfold merge_partials.
  assert (H : ∀ acc, foldl (merge_entry h) acc dirs !! "__proto__" = acc !! "__proto__").
  { induction dirs as [|d dirs IH]; intros acc; cbn [foldl]; [done|].
    rewrite IH. unfold merge_entry. apply (foldl_set_proto (canonical_name h d)). }
  by rewrite H, lookup_empty.
Qed.

(** *** What the callbacks return *)

Lemma mapM_Forall2_inv {A B} (S : machine → Prop) (f : A → M B) (R : A → B → Prop) :
  (∀ x m y m', S m → f x m = (Fulfilled y, m') → R x y ∧ S m') →
  ∀ l m ys m', S m → mapM f l m = (Fulfilled ys, m') → Forall2 R l ys ∧ S m'.
Proof.
  intros Hf. induction l as [|x l IH]; intros m ys m' Hm; cbn [mapM].
  - intros [= <- <-]. by split; [constructor|].
  - intros (y & m1 & Hx & Hrest)%bind_fulfilled.
    apply bind_fulfilled in Hrest as (ys' & m2 & Hl & [= <- <-]).
    destruct (Hf _ _ _ _ Hm Hx) as [Hxy Hm1].
    destruct (IH _ _ _ Hm1 Hl) as [Hall Hm2]. split; [by constructor|done].
Qed.

Lemma mapM_Forall2 {A B} (f : A → M B) (R : A → B → Prop) :
  (∀ x m y m', f x m = (Fulfilled y, m') → R x y) →
  ∀ l m ys m', mapM f l m = (Fulfilled ys, m') → Forall2 R l ys.
Proof.
  intros Hf l m ys m' Hrun.
  by apply (mapM_Forall2_inv (λ _, True) f R
              (λ x m y m' _ H, conj (Hf x m y m' H) I) l m ys m' I).
Qed.

Lemma mapM_promise_Forall2 {A B} (S : machine → Prop) (f : A → M B)
  (R : A → settled B → Prop) :
  (∀ x m, S m → R x (f x m).1 ∧ S (f x m).2) →
  ∀ l m promises m', S m →
    mapM (λ x, promise (f x)) l m = (Fulfilled promises, m') →
    Forall2 R l promises ∧ S m'.
Proof.
  intros Hf. apply mapM_Forall2_inv. intros x m y m' Hm. unfold promise.
  specialize (Hf x m Hm). destruct (f x m) as [r m1]. by intros [= <- <-].
Qed.

Lemma Forall2_eq_fmap {A B} (g : A → B) l ys :
  Forall2 (λ x y, y = g x) l ys → ys = g <$> l.
Proof. induction 1 as [|x y l ys -> _ IH]; [done|]. simpl. by rewrite IH. Qed.

Lemma Promise_all_fulfilled {A} (promises : list (settled A)) values :
  Promise_all promises = Fulfilled values → promises = Fulfilled <$> values.
Proof.
  revert values. induction promises as [|[a|e] promises IH]; intros values; simpl.
  - by intros [= <-].
  - destruct (Promise_all promises) as [vs|e]; simpl; [|done].
    intros [= <-]. simpl. by rewrite (IH vs).
  - done.
Qed.

Lemma Promise_all_values {A} (values : list A) :
  Promise_all (Fulfilled <$> values) = Fulfilled values.
Proof.
  induction values as [|a values IH]; [done|].
  cbn [fmap list_fmap Promise_all]. fold (fmap (M:=list) (@Fulfilled A)).
  by rewrite IH.
Qed.

Lemma partials_mapper_loaded env options d m pending m1 m2 e m3 :
  partials_mapper_begin env options d m = (Fulfilled pending, m1) →
  partials_mapper_end env options pending m2 = (Fulfilled e, m3) →
  loaded_from env options d e.
Proof.
  unfold partials_mapper_begin, loaded_from.
  assert (Hfields :
    match d with
    | DirString s => (Some s, None, None, None)
    | DirObject o => (pd_dir o, pd_templates o, pd_namespace o, pd_rename o)
    end = (match d with DirString s => Some s | DirObject o => pd_dir o end,
           entry_templates d, entry_namespace d, entry_rename d))
    by by destruct d.
  rewrite Hfields. clear Hfields.
  assert (Hpath : default "" (match d with DirString s => Some s
                                         | DirObject o => pd_dir o end)
                  = entry_path d) by by destruct d.
  rewrite Hpath. clear Hpath.
  destruct (_ && _); [by intros [= <- _]|].
  destruct (entry_templates d) as [templates|].
  - intros [= <- _]. cbn [partials_mapper_end ret]. by intros [= <- _].
  - intros (p & m0 & _ & [= <- _])%bind_fulfilled. cbn [partials_mapper_end].
    intros (templates & m4 & Hend & [= <- _])%bind_fulfilled. cbn.
    repeat split. by exists p, m2, m4.
Qed.

(** *** Nothing from a cache *)

Lemma fresh_template_settings env h h' options filePath :
  same_settings h h' →
  fresh_template env h' options filePath = fresh_template env h options filePath.
Proof.
  intros (_ & Henc & _ & _ & _ & Hco & _). unfold fresh_template, read_encoding.
  by rewrite Henc, Hco.
Qed.

Lemma getTemplate_fresh env filePath options m :
  opt_cache options = false →
  (getTemplate env filePath options m).1 = fresh_template env (self m) options filePath.
Proof.
  intros Hoff. rewrite getTemplate_miss by (by rewrite Hoff). cbn zeta. cbn [fst].
  rewrite Hoff.
  rewrite (bind_eq _ _ _ _ _
             (_getFile_miss env (resolve1 env filePath)
                (options_cache_encoding false _) m eq_refl)).
  unfold fresh_template, read_encoding. cbn [opt_encoding options_cache_encoding].
  rewrite js_or_absorb.
  destruct (readFile env _ _) as [text|e]; cbn [settled_map]; [|done].
  unfold bind, this. by rewrite compileTemplate_text.
Qed.

Lemma respects_settings {A} (c : M A) h0 m :
  respects (λ _, True) c → same_settings h0 (self m) → same_settings h0 (self (c m).2).
Proof. intros Hc Hm. eapply same_settings_trans; [exact Hm|apply Hc]. Qed.

Lemma getTemplates_end_fresh env h0 options dirPath m :
  opt_cache options = false →
  same_settings h0 (self m) →
  (getTemplates_end env dirPath options
     (DirStarted (settled_map FileList
                    (glob env ("**/*" +:+ extname h0) (resolve1 env dirPath)))) m).1
  = fresh_templates env h0 options dirPath.
Proof.
  intros Hoff Hm. unfold getTemplates_end, fresh_templates, _getDir_end.
  destruct (glob env _ _) as [filePaths|e]; cbn [settled_map];
    [|by unfold bind, try_catch, await, update, throw].
  unfold bind at 1, try_catch, bind at 1, await at 1, ret at 1. cbn [spread_list].
  destruct (mapM_promise (λ filePath, getTemplate env (Path.join [dirPath; filePath]) options)
              filePaths m) as [promises Hrun].
  rewrite (bind_eq _ _ _ _ _ Hrun).
  apply (mapM_promise_Forall2 (λ m, same_settings h0 (self m))
           (λ filePath, getTemplate env (Path.join [dirPath; filePath]) options)
           (λ filePath r, r = fresh_template env h0 options (Path.join [dirPath; filePath])))
    in Hrun as [Hall _]; [|intros x m0 Hm0; split|done].
  - apply Forall2_eq_fmap in Hall. subst promises.
    unfold bind, await, ret. by destruct (Promise_all _).
  - rewrite getTemplate_fresh by done. by apply fresh_template_settings.
  - by apply respects_settings; [apply getTemplate_respects|].
Qed.

Lemma partials_mapper_fresh env h0 options d m pending m1 :
  opt_cache options = false →
  same_settings h0 (self m) →
  partials_mapper_begin env options d m = (Fulfilled pending, m1) →
  ∀ m2, same_settings h0 (self m2) →
    (partials_mapper_end env options pending m2).1 = fresh_entry env h0 options d.
Proof.
  intros Hoff Hm. unfold partials_mapper_begin, fresh_entry.
  assert (Hfields :
    match d with
    | DirString s => (Some s, None, None, None)
    | DirObject o => (pd_dir o, pd_templates o, pd_namespace o, pd_rename o)
    end = (match d with DirString s => Some s | DirObject o => pd_dir o end,
           entry_templates d, entry_namespace d, entry_rename d))
    by by destruct d.
  rewrite Hfields. clear Hfields.
  assert (Hpath : default "" (match d with DirString s => Some s
                                         | DirObject o => pd_dir o end)
                  = entry_path d) by by destruct d.
  rewrite Hpath. clear Hpath.
  destruct (entry_templates d) as [templates|].
  { rewrite andb_false_r. by intros [= <- _] m2 _. }
  rewrite andb_true_r. destruct (String.eqb (entry_path d) ""); [by intros [= <- _] m2 _|].
  unfold _getDir_begin, bind at 1 2, this at 1.
  cbn [opt_cache opt_throwTestError options_cache]. rewrite Hoff.
  unfold bind, emit, update, ret. cbn [self]. intros [= <- _] m2 Hm2.
  cbn [partials_mapper_end]. unfold bind at 1.
  assert (Hext : extname (self m) = extname h0) by apply Hm.
  rewrite Hext.
  pose proof (getTemplates_end_fresh env h0 options (entry_path d) m2 Hoff Hm2) as Hf.
  destruct (getTemplates_end env _ _ _ m2) as [[templates|e] m3]; cbn [fst] in Hf;
    by rewrite <- Hf.
Qed.

Lemma Forall2_compose {A B C} (P : A → B → Prop) (Q : B → C → Prop) (R : A → C → Prop)
  l k n :
  (∀ x y z, P x y → Q y z → R x z) → Forall2 P l k → Forall2 Q k n → Forall2 R l n.
Proof.
  intros H HP. revert n. induction HP as [|x y l k Hxy _ IH]; intros n HQ.
  - apply Forall2_nil_inv_l in HQ as ->. constructor.
  - apply Forall2_cons_inv_l in HQ as (z & n' & Hyz & Hrest & ->).
    constructor; eauto.
Qed.

(** C4. [getPartials] merges the descriptors in their configured order.
    The entries merged are what the callbacks of the descriptors returned,
    one entry for each descriptor and in the order of the descriptors: the
    artifacts a descriptor brings along, or else the templates that
    [getTemplates] loaded for its directory, which with caching off are the
    listed files read, trimmed and compiled afresh.  The name of an
    entry is what the rename function of its descriptor returns when there
    is one; otherwise the file path without the configured extension at its
    end, behind [namespace/] when the descriptor has a (non-empty)
    namespace.  When several entries get the same name, the merged mapping
    holds the last of them: a later key of the same descriptor or any key
    of a later descriptor overwrites it.  The mapping holds nothing else,
    and the name [__proto__] is never a key of it. *)
Theorem partials_merge_in_order env options m pd partials m' :
  partialsDir (self m) = Some pd →
  getPartials env options m = (Fulfilled partials, m') →
  ∃ started m1 dirs,
    mapM (partials_mapper_begin env options) (partialsDirs pd) m
    = (Fulfilled started, m1)
    ∧ mapM (λ pending, promise (partials_mapper_end env options pending)) started m1
      = (Fulfilled (Fulfilled <$> dirs), m')
    ∧ Forall2 (loaded_from env options) (partialsDirs pd) dirs
    ∧ (opt_cache options = false →
       fresh_entry env (self m) options <$> partialsDirs pd = Fulfilled <$> dirs)
    ∧ extname (self m') = extname (self m)
    ∧ partials = merge_partials (self m') dirs
    ∧ (∀ dir filePath rename, pe_rename dir = Some rename →
         canonical_name (self m') dir filePath = rename filePath (pe_namespace dir))
    ∧ (∀ dir stem, pe_rename dir = None →
         canonical_name (self m') dir (stem +:+ extname (self m))
         = with_namespace (pe_namespace dir) stem)
    ∧ (∀ dir filePath, pe_rename dir = None →
         JS.endsWith filePath (extname (self m)) = false →
         canonical_name (self m') dir filePath
         = with_namespace (pe_namespace dir) filePath)
    ∧ (∀ before dir after earlier filePath template later,
         dirs = before ++ dir :: after →
         pe_templates dir = earlier ++ (filePath, template) :: later →
         canonical_name (self m') dir filePath ≠ "__proto__" →
         (∀ kv, kv ∈ later →
            canonical_name (self m') dir kv.1 ≠ canonical_name (self m') dir filePath) →
         (∀ d kv, d ∈ after → kv ∈ pe_templates d →
            canonical_name (self m') d kv.1 ≠ canonical_name (self m') dir filePath) →
         partials !! canonical_name (self m') dir filePath = Some template)
    ∧ (∀ name template, partials !! name = Some template →
         ∃ dir filePath, dir ∈ dirs ∧ (filePath, template) ∈ pe_templates dir
                         ∧ canonical_name (self m') dir filePath = name)
    ∧ partials !! "__proto__" = None.
Proof.
  intros Hpd Hrun.
  assert (Hext : extname (self m') = extname (self m)).
  { assert (Hg : grows (λ _, True) m (getPartials env options m).2)
      by by apply getPartials_respects.
    rewrite Hrun in Hg. apply Hg. }
  unfold getPartials in Hrun.
  apply bind_fulfilled in Hrun as (h & m0 & [= <- <-] & Hrun).
  rewrite Hpd in Hrun. fold (partialsDirs pd) in Hrun.
  apply bind_fulfilled in Hrun as (started & m1 & Hbegin & Hrun).
  apply bind_fulfilled in Hrun as (promises & m2 & Hend & Hrun).
  destruct (first_thrown started); [done|].
  apply bind_fulfilled in Hrun as (dirs & m3 & [Hall <-]%pair_eq & Hrun).
  apply bind_fulfilled in Hrun as (h2 & m4 & [= <- <-] & [= <- <-]).
  apply Promise_all_fulfilled in Hall. subst promises.
  exists started, m1, dirs.
  split; [done|]. split; [done|]. split; [|split; [|split; [done|split; [done|]]]].
  - assert (HP : Forall2 (λ d pending, ∃ ma mb,
                       partials_mapper_begin env options d ma = (Fulfilled pending, mb))
                  (partialsDirs pd) started).
    { eapply mapM_Forall2; [|exact Hbegin]. intros d ma pending mb Hb. by exists ma, mb. }
    assert (HQ : Forall2 (λ pending e, ∃ mc md,
                       partials_mapper_end env options pending mc = (Fulfilled e, md))
                  started dirs).
    { apply (mapM_promise_Forall2 (λ _, True) (partials_mapper_end env options)
               (λ pending r, ∃ mc md,
                  partials_mapper_end env options pending mc = (r, md)))
        in Hend as [Hall _]; [| |done].
      - by apply Forall2_fmap_r in Hall.
      - intros pending mc _. split; [|done].
        exists mc, (partials_mapper_end env options pending mc).2.
        by destruct (partials_mapper_end env options pending mc). }
    eapply Forall2_compose; [|exact HP|exact HQ].
    intros d pending e (ma & mb & Hb) (mc & md & He).
    by eapply partials_mapper_loaded.
  - intros Hoff. symmetry.
    set (S := λ m0 : machine, same_settings (self m) (self m0)).
    apply (mapM_Forall2_inv S (partials_mapper_begin env options)
             (λ d pending, ∀ m2, S m2 →
                (partials_mapper_end env options pending m2).1
                = fresh_entry env (self m) options d))
      in Hbegin as [Hb Hm1]; [| |apply same_settings_refl].
    2:{ intros d ma pending mb Hma Hd. split.
        - by eapply partials_mapper_fresh.
        - assert (Hg : S (partials_mapper_begin env options d ma).2).
          { apply respects_settings; [|done]. by apply partials_mapper_begin_respects. }
          by rewrite Hd in Hg. }
    apply (mapM_promise_Forall2 S (partials_mapper_end env options)
             (λ pending r, ∃ m2, S m2 ∧ r = (partials_mapper_end env options pending m2).1))
      in Hend as [He _]; [| |done].
    2:{ intros pending ma Hma. split; [by exists ma|].
        apply respects_settings; [|done]. by apply partials_mapper_end_respects. }
    apply Forall2_eq_fmap.
    eapply Forall2_compose; [|exact Hb|exact He].
    intros d pending r H (mc & Hmc & ->). by apply H.
  - rewrite <- Hext. repeat split.
    + intros dir filePath rename Hrn. unfold canonical_name. by rewrite Hrn.
    + intros dir stem Hrn. unfold canonical_name. rewrite Hrn.
      apply _getTemplateName_stem.
    + intros dir filePath Hrn Hends. unfold canonical_name. rewrite Hrn.
      by apply _getTemplateName_other.
    + intros before dir after earlier filePath template later -> Ht Hproto Hl Ha.
      by eapply merge_partials_last.
    + apply merge_partials_origin.
    + apply merge_partials_proto.
Qed.

Example partials_namespaced :
  (getPartials demo_env (options_cache false) (Machine (create (cards_config (Some "x"))) [])).1
  = Fulfilled (<["card" := Artifact "B"]> (<["x/card" := Artifact "A"]> ∅)).
Proof. reflexivity. Qed.

Example partials_last_wins :
  (getPartials demo_env (options_cache false) (Machine (create (cards_config None)) [])).1
  = Fulfilled (<["card" := Artifact "B"]> ∅).
Proof. reflexivity. Qed.

(** The same with two directories that hold a file [card.hbs] each. *)
Example partials_of_directories_namespaced :
  (getPartials shelf_env (options_cache false)
     (Machine (create (shelf_config (Some "x"))) [])).1
  = Fulfilled (<["card" := Artifact "B"]> (<["x/card" := Artifact "A"]> ∅)).
Proof. vm_compute. reflexivity. Qed.

Example partials_of_directories_last_wins :
  (getPartials shelf_env (options_cache false) (Machine (create (shelf_config None)) [])).1
  = Fulfilled (<["card" := Artifact "B"]> ∅).
Proof. vm_compute. reflexivity. Qed.

Lemma partials_merge_in_order_witness :
  let m := Machine (create (shelf_config None)) [] in
  let r := getPartials shelf_env (options_cache false) m in
  ∃ dirs,
    [Fulfilled {| pe_templates := [("card.hbs", Artifact "A")];
                  pe_namespace := None; pe_rename := None |};
     Fulfilled {| pe_templates := [("card.hbs", Artifact "B")];
                  pe_namespace := None; pe_rename := None |}]
    = Fulfilled <$> dirs
    ∧ r.1 = Fulfilled (<["card" := Artifact "B"]> ∅)
    ∧ (<["card" := Artifact "B"]> ∅ : gmap string artifact) = merge_partials (self r.2) dirs.
Proof.
  cbn zeta.
  set (m := Machine (create (shelf_config None)) []).
  set (r := getPartials shelf_env (options_cache false) m).
  assert (Hr : r = (Fulfilled (<["card" := Artifact "B"]> ∅), r.2))
    by (vm_compute; reflexivity).
  destruct (partials_merge_in_order shelf_env (options_cache false) m _ _ _ eq_refl Hr)
    as (started & m1 & dirs & _ & _ & _ & Hfresh & _ & Hmerge & _).
  exists dirs. split; [|split].
  - rewrite <- (Hfresh eq_refl). vm_compute. reflexivity.
  - by rewrite Hr.
  - exact Hmerge.
Defined.
(** ** White space around a template: two worlds *)

Lemma settled_alike_eq {A} (p q : settled A) : settled_alike eq p q ↔ p = q.
Proof. destruct p, q; simpl; split; intros H; try done; congruence. Qed.

Lemma fsval_alike_refl v : fsval_alike v v.
Proof. by destruct v. Qed.

Lemma settled_alike_refl {A} (R : A → A → Prop) p :
  (∀ a, R a a) → settled_alike R p p.
Proof. intros HR. destruct p; simpl; auto. Qed.

Section Simulation.

Context (key : string) (ea eb : Env) (Hworlds : worlds_alike key ea eb).

Notation "ca ≈{ R } cb" := (simulates ea key R ca cb)
  (at level 70, format "ca  ≈{ R }  cb").

Lemma resolve1_worlds p : resolve1 eb p = resolve1 ea p.
Proof. unfold resolve1. by rewrite (proj1 Hworlds). Qed.

Lemma sim_ret {A} (R : A → A → Prop) a b : R a b → ret a ≈{R} ret b.
Proof. intros Hab ma mb Hm. by split. Qed.

Lemma sim_throw {A} (R : A → A → Prop) e : throw e ≈{R} throw e.
Proof. intros ma mb Hm. by split. Qed.

Lemma sim_await {A} (R : A → A → Prop) p q : settled_alike R p q → await p ≈{R} await q.
Proof. intros Hpq ma mb Hm. by split. Qed.

Lemma sim_bind {A B} (R : A → A → Prop) (R' : B → B → Prop) ca cb ka kb :
  ca ≈{R} cb → (∀ a b, R a b → ka a ≈{R'} kb b) → bind ca ka ≈{R'} bind cb kb.
Proof.
  intros Hc Hk ma mb Hm. unfold bind. destruct (Hc ma mb Hm) as [Hr Hm'].
  destruct (ca ma) as [[a|e] ma'], (cb mb) as [[b|e'] mb']; simpl in *; try done.
  by apply Hk.
Qed.

Lemma sim_try_catch {A} (R : A → A → Prop) ca cb ka kb :
  ca ≈{R} cb → (∀ e, ka e ≈{R} kb e) → try_catch ca ka ≈{R} try_catch cb kb.
Proof.
  intros Hc Hk ma mb Hm. unfold try_catch. destruct (Hc ma mb Hm) as [Hr Hm'].
  destruct (ca ma) as [[a|e] ma'], (cb mb) as [[b|e'] mb']; simpl in *; try done.
  subst e'. by apply Hk.
Qed.

Lemma sim_promise {A} (R : A → A → Prop) ca cb :
  ca ≈{R} cb → promise ca ≈{settled_alike R} promise cb.
Proof.
  intros Hc ma mb Hm. unfold promise. destruct (Hc ma mb Hm) as [Hr Hm'].
  by destruct (ca ma), (cb mb).
Qed.

Lemma sim_this : this ≈{alike_self ea key} this.
Proof. intros ma mb Hm. split; [apply Hm|done]. Qed.

Lemma sim_emit e : emit e ≈{eq} emit e.
Proof.
  intros ma mb [Ht Hs]. split; [done|]. split; [|done]. simpl. by rewrite Ht.
Qed.

Lemma sim_update f g :
  (∀ ha hb, alike_self ea key ha hb → alike_self ea key (f ha) (g hb)) →
  update f ≈{eq} update g.
Proof. intros Hfg ma mb [Ht Hs]. split; [done|]. split; [done|]. by apply Hfg. Qed.

Lemma sim_mapM {A B} (R : B → B → Prop) (f g : A → M B) l :
  (∀ x, f x ≈{R} g x) → mapM f l ≈{Forall2 R} mapM g l.
Proof.
  intros Hfg. induction l as [|x l IH]; cbn [mapM].
  - apply sim_ret. constructor.
  - eapply sim_bind; [apply Hfg|]. intros a b Hab.
    eapply sim_bind; [apply IH|]. intros la lb Hl. apply sim_ret. by constructor.
Qed.

(** The file cache of two instances that are alike. *)
Lemma alike_lookup ha hb k :
  alike_self ea key ha hb →
  option_Forall2 (settled_alike fsval_alike) (_fsCache ha !! k) (_fsCache hb !! k).
Proof.
  intros (_ & _ & _ & Hother & Hkey & _). destruct (decide (k = key)) as [->|Hne]; [done|].
  rewrite (Hother k Hne). destruct (_fsCache hb !! k) as [p|]; constructor.
  apply settled_alike_refl, fsval_alike_refl.
Qed.

Lemma alike_insert k p q ha hb :
  settled_alike fsval_alike p q → (k ≠ key → p = q) →
  alike_self ea key ha hb →
  alike_self ea key (set_fsCache (<[k := p]>) ha) (set_fsCache (<[k := q]>) hb).
Proof.
  intros Hpq Heq (Hs & Hc & Hp & Hother & Hkey & Hd).
  split; [exact Hs|]. split; [exact Hc|]. split; [exact Hp|].
  cbn [set_fsCache _fsCache]. split; [|split; [|exact Hd]].
  - intros k' Hk'. destruct (decide (k = k')) as [<-|Hne].
    + rewrite !lookup_insert_eq. by rewrite Heq.
    + rewrite !lookup_insert_ne by done. by apply Hother.
  - destruct (decide (k = key)) as [->|Hne].
    + rewrite !lookup_insert_eq. by constructor.
    + by rewrite !lookup_insert_ne.
Qed.

Lemma alike_delete k ha hb :
  alike_self ea key ha hb →
  alike_self ea key (set_fsCache (delete k) ha) (set_fsCache (delete k) hb).
Proof.
  intros (Hs & Hc & Hp & Hother & Hkey & Hd).
  split; [exact Hs|]. split; [exact Hc|]. split; [exact Hp|].
  cbn [set_fsCache _fsCache]. split; [|split; [|exact Hd]].
  - intros k' Hk'. destruct (decide (k = k')) as [<-|Hne].
    + by rewrite !lookup_delete_eq.
    + rewrite !lookup_delete_ne by done. by apply Hother.
  - destruct (decide (k = key)) as [->|Hne].
    + rewrite !lookup_delete_eq. constructor.
    + by rewrite !lookup_delete_ne.
Qed.

Lemma alike_template_cache pre f ha hb :
  alike_self ea key ha hb →
  alike_self ea key (set_template_cache pre f ha) (set_template_cache pre f hb).
Proof.
  intros (Hs & Hc & Hp & Hother & Hkey & Hd).
  destruct pre; cbn; (split; [exact Hs|]); cbn; rewrite ?Hc, ?Hp; done.
Qed.

Lemma readFile_worlds k enc :
  settled_alike fsval_alike (settled_map FileText (readFile ea k enc))
    (settled_map FileText (readFile eb k enc))
  ∧ (k ≠ key → settled_map FileText (readFile ea k enc)
               = settled_map FileText (readFile eb k enc)).
Proof.
  destruct Hworlds as (_ & _ & _ & _ & _ & Hother & Hkey). split.
  - destruct (decide (k = key)) as [->|Hne].
    + specialize (Hkey enc). by destruct (readFile ea key enc), (readFile eb key enc).
    + rewrite (Hother k enc Hne). apply settled_alike_refl, fsval_alike_refl.
  - intros Hne. by rewrite (Hother k enc Hne).
Qed.

Lemma _getFile_sim filePath options :
  _getFile ea filePath options ≈{fsval_alike} _getFile eb filePath options.
Proof.
  unfold _getFile. rewrite resolve1_worlds.
  eapply sim_bind; [apply sim_this|]. intros ha hb Hh.
  assert (Henc : encoding hb = encoding ha) by apply Hh.
  rewrite Henc.
  pose proof (alike_lookup ha hb (resolve1 ea filePath) Hh) as Hl.
  destruct (opt_cache options).
  - destruct Hl as [p q Hpq|]; [by apply sim_await|].
    apply sim_try_catch.
    + eapply sim_bind; [apply sim_emit|]. intros _ _ _.
      destruct (readFile_worlds (resolve1 ea filePath)
                  (js_or (js_or (opt_encoding options) (encoding ha)) (VStr "utf8")))
        as [Hr Hr'].
      eapply sim_bind; [apply sim_update; intros; by apply alike_insert|].
      intros _ _ _. by apply sim_await.
    + intros e. eapply sim_bind; [apply sim_update; intros; by apply alike_delete|].
      intros _ _ _. apply sim_throw.
  - apply sim_try_catch.
    + eapply sim_bind; [apply sim_emit|]. intros _ _ _.
      destruct (readFile_worlds (resolve1 ea filePath)
                  (js_or (js_or (opt_encoding options) (encoding ha)) (VStr "utf8")))
        as [Hr Hr'].
      eapply sim_bind; [apply sim_update; intros; by apply alike_insert|].
      intros _ _ _. by apply sim_await.
    + intros e. eapply sim_bind; [apply sim_update; intros; by apply alike_delete|].
      intros _ _ _. apply sim_throw.
Qed.

Lemma compileTemplate_sim pre file file' options :
  fsval_alike file file' →
  compileTemplate ea pre file options ≈{eq} compileTemplate eb pre file' options.
Proof.
  destruct Hworlds as (_ & _ & Hc & Hp & _).
  destruct file as [text|l], file' as [text'|l']; try done.
  intros Htrim. unfold same_trimmed in Htrim. cbn [compileTemplate]. rewrite Htrim.
  eapply sim_bind; [apply sim_emit|]. intros _ _ _. apply sim_await.
  apply settled_alike_eq. by destruct pre.
Qed.

Lemma getTemplate_sim filePath options :
  getTemplate ea filePath options ≈{eq} getTemplate eb filePath options.
Proof.
  unfold getTemplate. rewrite !resolve1_worlds.
  eapply sim_bind; [apply sim_this|]. intros ha hb Hh.
  assert (Henc : encoding hb = encoding ha) by apply Hh.
  assert (Hcache : template_cache (opt_precompiled options) hb
                   = template_cache (opt_precompiled options) ha).
  { destruct Hh as (_ & Hc & Hp & _). by destruct (opt_precompiled options). }
  rewrite Henc, Hcache.
  destruct (if opt_cache options then _ else _) as [template|];
    [by apply sim_await, settled_alike_eq|].
  apply sim_try_catch.
  - eapply sim_bind.
    + apply sim_promise. eapply sim_bind; [apply _getFile_sim|]. intros file file' Hfile.
      eapply sim_bind; [apply sim_this|]. intros ha' hb' Hh'.
      assert (Hco : compilerOptions hb' = compilerOptions ha') by apply Hh'.
      rewrite Hco. by apply compileTemplate_sim.
    + intros p q Hpq. apply settled_alike_eq in Hpq as ->.
      eapply sim_bind; [apply sim_update; intros; by apply alike_template_cache|].
      intros _ _ _. by apply sim_await, settled_alike_eq.
  - intros e. eapply sim_bind; [apply sim_update; intros; by apply alike_template_cache|].
    intros _ _ _. apply sim_throw.
Qed.

Lemma _getDir_begin_sim dirPath options :
  resolve1 ea dirPath ≠ key →
  _getDir_begin ea dirPath options ≈{eq} _getDir_begin eb dirPath options.
Proof.
  intros Hne. unfold _getDir_begin. rewrite !resolve1_worlds.
  eapply sim_bind; [apply sim_this|]. intros ha hb Hh.
  assert (Hext : extname hb = extname ha) by apply Hh.
  assert (Hl : _fsCache hb !! resolve1 ea dirPath = _fsCache ha !! resolve1 ea dirPath).
  { destruct Hh as (_ & _ & _ & Hother & _). symmetry. by apply Hother. }
  rewrite Hext, Hl, <- (proj1 (proj2 Hworlds)).
  destruct (if opt_cache options then _ else _) as [dir|]; [by apply sim_ret|].
  eapply sim_bind; [apply sim_emit|]. intros _ _ _.
  eapply sim_bind.
  { apply sim_update. intros. apply alike_insert; [|done..].
    apply settled_alike_refl, fsval_alike_refl. }
  intros _ _ _. destruct (opt_throwTestError options); [|by apply sim_ret].
  eapply sim_bind; [apply sim_update; intros; by apply alike_delete|].
  intros _ _ _. by apply sim_ret.
Qed.

Lemma _getDir_end_sim dirPath pending :
  _getDir_end ea dirPath pending ≈{eq} _getDir_end eb dirPath pending.
Proof.
  unfold _getDir_end. rewrite !resolve1_worlds. destruct pending as [dir|dir|err].
  - eapply sim_bind; [apply sim_await, settled_alike_eq; reflexivity|].
    intros v ? <-. by apply sim_ret.
  - apply sim_try_catch.
    + eapply sim_bind; [apply sim_await, settled_alike_eq; reflexivity|].
      intros v ? <-. by apply sim_ret.
    + intros e. eapply sim_bind; [apply sim_update; intros; by apply alike_delete|].
      intros _ _ _. apply sim_throw.
  - apply sim_throw.
Qed.

Lemma Forall2_eq_iff {A} (l k : list A) : Forall2 eq l k ↔ l = k.
Proof.
  split; [|intros ->; by apply Forall_Forall2_diag, Forall_true].
  induction 1; congruence.
Qed.

Lemma getTemplates_end_sim dirPath options pending :
  getTemplates_end ea dirPath options pending
  ≈{eq} getTemplates_end eb dirPath options pending.
Proof.
  unfold getTemplates_end.
  eapply sim_bind; [apply _getDir_end_sim|]. intros filePaths ? <-.
  eapply sim_bind.
  { apply sim_mapM. intros filePath. apply sim_promise, getTemplate_sim. }
  intros promises promises' Hp.
  assert (promises = promises') as <-.
  { apply Forall2_eq_iff. eapply Forall2_impl; [exact Hp|].
    intros p q. apply settled_alike_eq. }
  eapply sim_bind; [apply sim_await, settled_alike_eq; reflexivity|].
  intros templates ? <-. by apply sim_ret.
Qed.

Lemma partials_mapper_begin_sim options dir :
  (∀ p, listed_path dir = Some p → resolve1 ea p ≠ key) →
  partials_mapper_begin ea options dir ≈{eq} partials_mapper_begin eb options dir.
Proof.
  intros Hne. unfold partials_mapper_begin.
  assert (Hfields :
    match dir with
    | DirString s => (Some s, None, None, None)
    | DirObject o => (pd_dir o, pd_templates o, pd_namespace o, pd_rename o)
    end = (match dir with DirString s => Some s | DirObject o => pd_dir o end,
           entry_templates dir, entry_namespace dir, entry_rename dir))
    by by destruct dir.
  rewrite Hfields. clear Hfields.
  assert (Hpath : default "" (match dir with DirString s => Some s
                                           | DirObject o => pd_dir o end)
                  = entry_path dir) by by destruct dir.
  rewrite Hpath. clear Hpath. unfold listed_path in Hne.
  destruct (entry_templates dir) as [templates|].
  { rewrite andb_false_r. by apply sim_ret. }
  rewrite andb_true_r.
  destruct (String.eqb (entry_path dir) ""); [by apply sim_ret|].
  eapply sim_bind; [by apply _getDir_begin_sim, Hne|].
  intros pending ? <-. by apply sim_ret.
Qed.

Lemma partials_mapper_end_sim options pending :
  partials_mapper_end ea options pending ≈{eq} partials_mapper_end eb options pending.
Proof.
  unfold partials_mapper_end. destruct pending as [err|templates ns rn|dirPath dir ns rn].
  - apply sim_throw.
  - by apply sim_ret.
  - eapply sim_bind; [apply getTemplates_end_sim|]. intros templates ? <-.
    by apply sim_ret.
Qed.

(** What [mapM] does to the items of a list that all meet a condition. *)
Lemma sim_mapM_elem {A B} (R : B → B → Prop) (f g : A → M B) l :
  (∀ x, x ∈ l → simulates ea key R (f x) (g x)) →
  mapM f l ≈{Forall2 R} mapM g l.
Proof.
  induction l as [|x l IH]; intros Hfg; cbn [mapM].
  - apply sim_ret. constructor.
  - eapply sim_bind; [apply Hfg, list_elem_of_here|]. intros a b Hab.
    eapply sim_bind; [apply IH; intros; by apply Hfg, list_elem_of_further|].
    intros la lb Hl. apply sim_ret. by constructor.
Qed.

Lemma merge_partials_extname h h' dirs :
  extname h' = extname h → merge_partials h' dirs = merge_partials h dirs.
Proof. intros Hext. unfold merge_partials, merge_entry, _getTemplateName. by rewrite Hext. Qed.

Lemma getPartials_sim options :
  getPartials ea options ≈{eq} getPartials eb options.
Proof.
  unfold getPartials.
  eapply sim_bind; [apply sim_this|]. intros ha hb Hh.
  assert (Hpd : partialsDir hb = partialsDir ha) by apply Hh.
  assert (Hd : dirs_apart ea key ha) by apply Hh.
  rewrite Hpd. destruct (partialsDir ha) as [pd|] eqn:Hpda; [|by apply sim_ret].
  fold (partialsDirs pd).
  eapply sim_bind.
  { apply sim_mapM_elem. intros d Hin. apply partials_mapper_begin_sim.
    intros p Hp. by eapply Hd. }
  intros started ? <-%Forall2_eq_iff.
  eapply sim_bind.
  { apply sim_mapM. intros pending. apply sim_promise, partials_mapper_end_sim. }
  intros promises promises' Hp.
  assert (promises = promises') as <-.
  { apply Forall2_eq_iff. eapply Forall2_impl; [exact Hp|].
    intros p q. apply settled_alike_eq. }
  destruct (first_thrown started); [apply sim_throw|].
  eapply sim_bind; [apply sim_await, settled_alike_eq; reflexivity|].
  intros dirs ? <-.
  eapply sim_bind; [apply sim_this|]. intros ha' hb' Hh'.
  apply sim_ret. apply merge_partials_extname. symmetry. apply Hh'.
Qed.

Lemma template_options_alike ha hb filePath options partials :
  alike_self ea key ha hb →
  template_options hb filePath options partials
  = template_options ha filePath options partials.
Proof.
  intros ((_ & _ & _ & _ & _ & _ & Hro & Hh & _) & _).
  unfold template_options. by rewrite Hro, Hh.
Qed.

Lemma render_sim filePath context options :
  render ea filePath context options ≈{eq} render eb filePath context options.
Proof.
  unfold render.
  eapply sim_bind; [apply sim_this|]. intros ha hb Hh.
  assert (Henc : encoding hb = encoding ha) by apply Hh.
  rewrite Henc.
  eapply sim_bind; [apply sim_promise, getTemplate_sim|].
  intros template ? <-%settled_alike_eq.
  eapply sim_bind.
  { destruct (truthy (prop options "partials")).
    - apply sim_ret. apply settled_alike_eq. reflexivity.
    - apply sim_promise. eapply sim_bind; [apply getPartials_sim|].
      intros partials ? <-. by apply sim_ret. }
  intros partials ? <-%settled_alike_eq.
  eapply sim_bind; [apply sim_await, settled_alike_eq; reflexivity|].
  intros template' ? <-.
  eapply sim_bind; [apply sim_await, settled_alike_eq; reflexivity|].
  intros partials' ? <-.
  eapply sim_bind; [apply sim_this|]. intros ha' hb' Hh'.
  rewrite (template_options_alike ha' hb') by done.
  unfold _renderTemplate.
  eapply sim_bind; [apply sim_emit|]. intros _ _ _.
  rewrite <- (proj1 (proj2 (proj2 (proj2 (proj2 Hworlds))))).
  eapply sim_bind; [apply sim_await, settled_alike_eq; reflexivity|].
  intros html ? <-. by apply sim_ret.
Qed.

End Simulation.

Lemma with_file_worlds env key a b :
  same_trimmed a b → worlds_alike key (with_file env key a) (with_file env key b).
Proof.
  intros Hab. repeat split; try done; cbn [readFile with_file].
  - intros p enc Hne. by destruct (String.eqb_spec p key).
  - intros enc. by rewrite String.eqb_refl.
Qed.

Lemma alike_refl env key m : dirs_apart env key (self m) → alike env key m m.
Proof.
  intros Hd. split; [done|]. split; [apply same_settings_refl|].
  repeat split; try done.
  destruct (_fsCache (self m) !! key) as [p|]; constructor.
  apply settled_alike_refl, fsval_alike_refl.
Qed.

(** White space around the text of a file changes neither what [render]
    returns nor what it asks of the outside world. *)
Lemma render_same_trimmed env key a b filePath context options m :
  same_trimmed a b →
  dirs_apart env key (self m) →
  (render (with_file env key a) filePath context options m).1
  = (render (with_file env key b) filePath context options m).1
  ∧ trace (render (with_file env key a) filePath context options m).2
    = trace (render (with_file env key b) filePath context options m).2.
Proof.
  intros Hab Hd.
  destruct (render_sim key _ _ (with_file_worlds env key a b Hab) filePath context options
              m m (alike_refl _ key m Hd)) as [Hr [Ht _]].
  split; [by apply settled_alike_eq|done].
Qed.

Lemma getTemplate_blank_around env key pre raw post filePath options m :
  blank pre → blank post →
  (getTemplate (with_file env key (pre +:+ raw +:+ post)) filePath options m).1
  = (getTemplate (with_file env key raw) filePath options m).1
  ∧ trace (getTemplate (with_file env key (pre +:+ raw +:+ post)) filePath options m).2
    = trace (getTemplate (with_file env key raw) filePath options m).2.
Proof.
  intros Hpre Hpost.
  assert (Htrim := trim_blank_around pre raw post Hpre Hpost).
  set (e1 := with_file env key raw).
  set (e2 := with_file env key (pre +:+ raw +:+ post)).
  assert (Hres : ∀ p, resolve1 e2 p = resolve1 e1 p) by done.
  destruct (cached (opt_cache options)
              (template_cache (opt_precompiled options) (self m))
              (resolve1 e1 filePath)) as [template|] eqn:Htc.
  { rewrite (getTemplate_hit e1 _ _ _ template) by done.
    rewrite (getTemplate_hit e2 _ _ _ template) by (by rewrite Hres). done. }
  rewrite (getTemplate_miss e1) by done.
  rewrite (getTemplate_miss e2) by (by rewrite Hres).
  cbn zeta. rewrite !Hres.
  set (o := options_cache_encoding _ _).
  destruct (cached (opt_cache o) (_fsCache (self m))
              (resolve1 e1 (resolve1 e1 filePath))) as [file|] eqn:Hfc.
  { rewrite (bind_eq (_getFile e1 _ _) _ m _ _ (_getFile_hit e1 _ _ _ file Hfc)).
    assert (Hfc2 : cached (opt_cache o) (_fsCache (self m))
                     (resolve1 e2 (resolve1 e1 filePath)) = Some file) by done.
    rewrite (bind_eq (_getFile e2 _ _) _ m _ _ (_getFile_hit e2 _ _ _ file Hfc2)).
    destruct file as [[t|l]|e]; [|done..].
    unfold bind, this. by rewrite !compileTemplate_text. }
  assert (Hfc2 : cached (opt_cache o) (_fsCache (self m))
                   (resolve1 e2 (resolve1 e1 filePath)) = None) by done.
  rewrite (bind_eq (_getFile e1 _ _) _ m _ _ (_getFile_miss e1 _ _ _ Hfc)).
  rewrite (bind_eq (_getFile e2 _ _) _ m _ _ (_getFile_miss e2 _ _ _ Hfc2)).
  rewrite !Hres. cbn [readFile e1 e2 with_file].
  destruct (String.eqb _ key); cbn [settled_map].
  - unfold bind, this. rewrite !compileTemplate_text. cbn [self trace fst snd].
    by rewrite Htrim.
  - destruct (readFile env _ _); cbn [settled_map]; [|done].
    unfold bind, this. by rewrite !compileTemplate_text.
Qed.



(** ** The views root *)

Lemma ancestors_step p :
  ancestors p
  = if String.eqb (Path.dirname p) p then []
    else Path.dirname p :: ancestors (Path.dirname p).
Proof.
  funelim (ancestors p).
  - by rewrite e.
  - by rewrite Hne.
Qed.

Lemma closest_parent_step absoluteViews views lastDir :
  closest_parent absoluteViews views lastDir
  = if String.eqb (Path.dirname lastDir) lastDir then VNull
    else match indexOf absoluteViews (Path.dirname lastDir) with
         | Some index => default VUndefined (views !! index)
         | None => closest_parent absoluteViews views (Path.dirname lastDir)
         end.
Proof.
  funelim (closest_parent absoluteViews views lastDir).
  - by rewrite e.
  - rewrite Hne. by rewrite Heq.
  - rewrite Hne. by rewrite Heq.
Qed.

Example ancestors_of_view :
  ancestors "/srv/views/blog/post.hbs" = ["/srv/views/blog"; "/srv/views"; "/srv"; "/"].
Proof. by repeat (rewrite ancestors_step; cbn). Qed.

Lemma closest_parent_nearest absoluteViews views lastDir :
  closest_parent absoluteViews views lastDir
  = match nearest_candidate absoluteViews lastDir with
    | Some index => default VUndefined (views !! index)
    | None => VNull
    end.
Proof.
  unfold nearest_candidate.
  funelim (ancestors lastDir); rewrite closest_parent_step.
  - by rewrite e.
  - rewrite Hne. cbn [omap list_omap].
    destruct (indexOf absoluteViews (Path.dirname p)) as [index|]; [done|].
    apply H.
Qed.

Lemma resolve_views_strings env (views : list string) m :
  mapM (λ v, let* s := path_arg v in ret (resolve1 env s)) (VStr <$> views) m
  = (Fulfilled (resolve1 env <$> views), m).
Proof.
  induction views as [|v views IH]; [done|].
  cbn [fmap list_fmap mapM]. unfold bind at 1. cbn [path_arg bind ret].
  unfold bind at 1. fold (fmap (M:=list) VStr views). by rewrite IH.
Qed.

Lemma renderView_options_respects P env options view :
  (∀ p enc, P (ReadFile p enc)) → (∀ pat d, P (Glob pat d)) →
  (∀ pre text o, P (Compile pre (JS.trim text) o)) →
  respects P (renderView_options env options view).
Proof.
  intros. unfold renderView_options.
  apply respects_bind; [apply respects_this|]. intros h.
  apply respects_bind; [by apply getPartials_respects|]. intros registered.
  apply respects_bind; [apply respects_this|]. intros; apply respects_ret.
Qed.

(** What [renderView] does with the root it resolved. *)
Lemma renderView_prepare_dirs env viewPath options m root :
  _resolveViewsPath env
    (js_and (prop options "settings") (member (prop options "settings") "views"))
    viewPath m = (Fulfilled root, m) →
  (truthy root = false →
     partialsDir (self (renderView_prepare env viewPath options m).2)
     = partialsDir (self m)
     ∧ layoutsDir (self (renderView_prepare env viewPath options m).2)
       = layoutsDir (self m))
  ∧ (∀ s, root = VStr s → s ≠ "" →
       partialsDir (self (renderView_prepare env viewPath options m).2)
       = partialsDir_or (cfg_partialsDir (config (self m))) (Path.join [s; "partials/"])
       ∧ layoutsDir (self (renderView_prepare env viewPath options m).2)
         = Some (string_or (cfg_layoutsDir (config (self m)))
                   (Path.join [s; "layouts/"]))).
Proof.
  intros Hroot. unfold renderView_prepare.
  rewrite (bind_eq _ _ _ _ _ Hroot).
  assert (Hrest : ∀ view m1,
    same_settings (self m1) (self (renderView_options env options view m1).2))
    by (intros; by apply (renderView_options_respects (λ _, True))).
  split.
  - intros Hfalsy.
    assert (Hview : renderView_view env viewPath root m = (Fulfilled VUndefined, m))
      by (unfold renderView_view; by rewrite Hfalsy).
    rewrite (bind_eq _ _ _ _ _ Hview).
    by destruct (Hrest VUndefined m) as (_&_&Hl&_&Hp&_).
  - intros s -> Hs.
    assert (Ht : truthy (VStr s) = true).
    { simpl. by destruct (String.eqb_spec s ""). }
    assert (Hview : renderView_view env viewPath (VStr s) m
      = (Fulfilled (VStr (_getTemplateName (self m)
                            (Path.relative (cwd env) s viewPath) None)),
         Machine
           (set_dirs
              (partialsDir_or (cfg_partialsDir (config (self m)))
                 (Path.join [s; "partials/"]))
              (Some (string_or (cfg_layoutsDir (config (self m)))
                       (Path.join [s; "layouts/"])))
              (self m))
           (trace m)))
      by (unfold renderView_view; by rewrite Ht).
    rewrite (bind_eq _ _ _ _ _ Hview).
    match goal with |- context [renderView_options env options ?v ?m1] =>
      destruct (Hrest v m1) as (_&_&Hl&_&Hp&_) end.
    done.
Qed.

Lemma indexOf_Some l x i :
  indexOf l x = Some i → l !! i = Some x ∧ ∀ j, j < i → l !! j ≠ Some x.
Proof.
  revert i. induction l as [|y l IH]; intros i; cbn [indexOf]; [done|].
  destruct (String.eqb_spec y x) as [->|Hne].
  - intros [= <-]. split; [done|]. lia.
  - destruct (indexOf l x) as [i'|]; [|done]. intros [= <-].
    destruct (IH i' eq_refl) as [Hi Hj]. split; [done|].
    intros [|j] Hlt; simpl; [congruence|]. apply Hj. lia.
Qed.

Lemma indexOf_None l x : indexOf l x = None → x ∉ l.
Proof.
  induction l as [|y l IH]; cbn [indexOf]; [intros _; apply not_elem_of_nil|].
  destruct (String.eqb_spec y x) as [->|Hne]; [done|].
  destruct (indexOf l x); [done|]. intros _.
  intros [?|?]%elem_of_cons; [congruence|by apply IH].
Qed.

Lemma head_omap_Some {A B} (f : A → option B) l b :
  head (omap f l) = Some b →
  ∃ before a after, l = before ++ a :: after
    ∧ Forall (λ x, f x = None) before ∧ f a = Some b.
Proof.
  induction l as [|x l IH]; [done|]. cbn [omap list_omap].
  destruct (f x) as [b'|] eqn:Hx.
  - intros [= <-]. by exists [], x, l.
  - intros (before & a & after & -> & Hb & Ha)%IH.
    exists (x :: before), a, after. split; [done|]. split; [by constructor|done].
Qed.

Lemma head_omap_None {A B} (f : A → option B) l :
  head (omap f l) = None → Forall (λ x, f x = None) l.
Proof.
  induction l as [|x l IH]; [constructor|]. cbn [omap list_omap].
  destruct (f x) as [b'|] eqn:Hx; [done|]. intros ?%IH. by constructor.
Qed.

(** C7, the claim as written, fails: a single views path is taken as the
    root whether or not it lies above the view, and the partials and
    layouts directories are derived from it. *)
Lemma views_root_counterexample :
  let options : jsobj := {["settings" := VObj ({["views" := VStr "/other"]})]} in
  (_resolveViewsPath demo_env (VStr "/other") "/srv/views/home.hbs" demo).1
  = Fulfilled (VStr "/other")
  ∧ (resolve1 demo_env "/other" ∉ ancestors (resolve1 demo_env "/srv/views/home.hbs"))
  ∧ partialsDir (self (renderView_prepare demo_env "/srv/views/home.hbs" options demo).2)
    = Some (OneDir (DirString "/other/partials/")).
Proof.
  split; [done|]. split.
  - change (resolve1 demo_env "/other") with "/other".
    change (resolve1 demo_env "/srv/views/home.hbs") with "/srv/views/home.hbs".
    repeat (rewrite ancestors_step; cbn).
    intros H. repeat (apply elem_of_cons in H as [H|H]; [discriminate|]).
    by apply elem_of_nil in H.
  - cbn zeta.
    refine (proj1 (proj2 (renderView_prepare_dirs demo_env "/srv/views/home.hbs"
                            {["settings" := VObj ({["views" := VStr "/other"]})]} demo
                            (VStr "/other") eq_refl) "/other" eq_refl _)).
    done.
Qed.

(** C7, amended. Given a list of candidate roots, [renderView] takes the
    candidate that resolves to the nearest directory above the resolved view
    path, on the way up to the root of the file system (when several
    candidates resolve to it, the first in the list); when none matches
    there is no root and the partials and layouts directories stay as they
    are.  A views value that is not a list is taken as the root as it is:
    nothing checks that it lies above the view. *)
Theorem views_root_resolution env viewPath m :
  (∀ views : list string,
     _resolveViewsPath env (VArr (VStr <$> views)) viewPath m
     = (Fulfilled
          (match nearest_candidate (resolve1 env <$> views) (resolve1 env viewPath) with
           | Some index => default VUndefined ((VStr <$> views) !! index)
           | None => VNull
           end), m))
  ∧ (∀ (views : list string) index,
       nearest_candidate (resolve1 env <$> views) (resolve1 env viewPath) = Some index →
       ∃ root nearer dir farther,
         views !! index = Some root
         ∧ resolve1 env root = dir
         ∧ ancestors (resolve1 env viewPath) = nearer ++ dir :: farther
         ∧ Forall (λ d, d ∉ resolve1 env <$> views) nearer
         ∧ ∀ j, j < index → (resolve1 env <$> views) !! j ≠ Some dir)
  ∧ (∀ views : list string,
       nearest_candidate (resolve1 env <$> views) (resolve1 env viewPath) = None →
       Forall (λ d, d ∉ resolve1 env <$> views) (ancestors (resolve1 env viewPath)))
  ∧ (∀ views, (∀ l, views ≠ VArr l) →
       _resolveViewsPath env views viewPath m = (Fulfilled views, m))
  ∧ (∀ options root,
       _resolveViewsPath env
         (js_and (prop options "settings") (member (prop options "settings") "views"))
         viewPath m = (Fulfilled root, m) →
       (truthy root = false →
          partialsDir (self (renderView_prepare env viewPath options m).2)
          = partialsDir (self m)
          ∧ layoutsDir (self (renderView_prepare env viewPath options m).2)
            = layoutsDir (self m))
       ∧ (∀ s, root = VStr s → s ≠ "" →
            partialsDir (self (renderView_prepare env viewPath options m).2)
            = partialsDir_or (cfg_partialsDir (config (self m)))
                (Path.join [s; "partials/"])
            ∧ layoutsDir (self (renderView_prepare env viewPath options m).2)
              = Some (string_or (cfg_layoutsDir (config (self m)))
                        (Path.join [s; "layouts/"])))).
Proof.
  split; [|split; [|split; [|split]]].
  - intros views. unfold _resolveViewsPath.
    rewrite (bind_eq _ _ _ _ _ (resolve_views_strings env views m)).
    unfold ret. by rewrite closest_parent_nearest.
  - intros views index (nearer & dir & farther & Hanc & Hnear & Hidx)%head_omap_Some.
    apply indexOf_Some in Hidx as [Hat Hfirst].
    rewrite list_lookup_fmap in Hat.
    destruct (views !! index) as [root|] eqn:Hroot; [|done].
    injection Hat as Hat.
    exists root, nearer, dir, farther. repeat split; try done.
    eapply Forall_impl; [exact Hnear|]. intros d. apply indexOf_None.
  - intros views Hnone%head_omap_None.
    eapply Forall_impl; [exact Hnone|]. intros d. apply indexOf_None.
  - intros views Hv. unfold _resolveViewsPath. destruct views; try done.
    by destruct (Hv vs).
  - intros options root. apply renderView_prepare_dirs.
Qed.

Lemma views_root_resolution_witness :
  let options : jsobj :=
    {["settings" := VObj ({["views" := VArr [VStr "/elsewhere"; VStr "views"]]})]} in
  nearest_candidate (resolve1 demo_env <$> ["/elsewhere"; "views"])
    (resolve1 demo_env "views/home.hbs") = Some 1
  ∧ partialsDir (self (renderView_prepare demo_env "views/home.hbs" options demo).2)
    = Some (OneDir (DirString "views/partials/")).
Proof.
  split.
  - change (resolve1 demo_env <$> ["/elsewhere"; "views"])
      with ["/elsewhere"; "/srv/views"].
    change (resolve1 demo_env "views/home.hbs") with "/srv/views/home.hbs".
    unfold nearest_candidate. by repeat (rewrite ancestors_step; cbn).
  - cbn zeta.
    refine (proj1 (proj2 (proj2 (proj2 (proj2 (proj2
              (views_root_resolution demo_env "views/home.hbs" demo))))
              {["settings" := VObj ({["views" := VArr [VStr "/elsewhere"; VStr "views"]]})]}
              (VStr "views") _) "views" eq_refl _)); [|done].
    change (js_and _ _) with (VArr (VStr <$> ["/elsewhere"; "views"])).
    rewrite (proj1 (views_root_resolution demo_env "views/home.hbs" demo)).
    change (resolve1 demo_env <$> ["/elsewhere"; "views"])
      with ["/elsewhere"; "/srv/views"].
    change (resolve1 demo_env "views/home.hbs") with "/srv/views/home.hbs".
    unfold nearest_candidate. by repeat (rewrite ancestors_step; cbn).
Defined.

(** ** The layout composer *)

Lemma invocations_app evs1 evs2 :
  invocations (evs1 ++ evs2) = invocations evs1 ++ invocations evs2.
Proof. apply omap_app. Qed.

Lemma invocations_none evs : Forall no_invoke evs → invocations evs = [].
Proof.
  induction 1 as [|e evs He _ IH]; [done|]. unfold invocations. cbn [omap list_omap].
  destruct e; try done. by destruct He.
Qed.

Lemma resolve_nonempty cwd args : Path.resolve cwd args ≠ "".
Proof.
  unfold Path.resolve. destruct (Path.resolve_loop _ _ _) as [p abs].
  destruct abs; [done|].
  destruct (Path.normalizeString p _) as [|c r]; done.
Qed.

Lemma renderOptions_layout h options enc view helpers partials :
  prop (renderOptions h options enc view helpers partials) "layout"
  = effective_layout h options.
Proof.
  unfold prop, renderOptions, effective_layout. cbn [list_to_map foldr uncurry].
  repeat (rewrite lookup_insert_ne by done). by rewrite lookup_insert_eq.
Qed.

Lemma _resolveLayoutPath_falsy env layout m :
  truthy layout = false → _resolveLayoutPath env layout m = (Fulfilled None, m).
Proof. unfold _resolveLayoutPath. by intros ->. Qed.

Lemma _resolveLayoutPath_string env layout m :
  layout ≠ "" →
  _resolveLayoutPath env (VStr layout) m
  = (Fulfilled (Some (layout_file env (self m) layout)), m).
Proof.
  intros Hl. unfold _resolveLayoutPath. cbn [truthy].
  by destruct (String.eqb_spec layout "").
Qed.

Lemma _resolveViewsPath_pure env views file m :
  (_resolveViewsPath env views file m).2 = m.
Proof.
  unfold _resolveViewsPath. destruct views as [| | | | |vs| | |]; try done.
  assert (H : ∀ l, (mapM (λ v, let* s := path_arg v in ret (resolve1 env s)) l m).2 = m).
  { induction l as [|v l IH]; [done|]. cbn [mapM]. unfold bind at 1.
    destruct v; try done. cbn [path_arg bind ret]. unfold bind at 1.
    destruct (mapM _ l m) as [[ys|e] m'] eqn:Hm; simpl in *; done. }
  specialize (H vs). unfold bind.
  by destruct (mapM _ vs m) as [[ys|e] m'].
Qed.

(** The views root changes the two directories and nothing else. *)
Lemma renderView_view_run env viewPath viewsPath m :
  trace (renderView_view env viewPath viewsPath m).2 = trace m
  ∧ defaultLayout (self (renderView_view env viewPath viewsPath m).2)
    = defaultLayout (self m)
  ∧ extname (self (renderView_view env viewPath viewsPath m).2) = extname (self m).
Proof.
  unfold renderView_view. destruct (truthy viewsPath); [|done].
  destruct viewsPath; done.
Qed.

Lemma renderView_options_run env options view m ro m' :
  renderView_options env options view m = (Fulfilled ro, m') →
  prop ro "layout" = effective_layout (self m) options.
Proof.
  unfold renderView_options.
  intros (h & m0 & [= <- <-] & Hrun)%bind_fulfilled.
  apply bind_fulfilled in Hrun as (registered & m1 & Hp & Hrun).
  apply bind_fulfilled in Hrun as (h1 & m2 & [= <- <-] & [= <- <-]).
  rewrite renderOptions_layout. unfold effective_layout.
  assert (Hg : grows (λ _, True) m (getPartials env
    (options_cache_encoding (truthy (prop options "cache"))
       (js_or (prop options "encoding") (encoding (self m)))) m).2)
    by by apply getPartials_respects.
  rewrite Hp in Hg. destruct Hg as [(_&_&_&_&_&_&_&_&Hd) _]. simpl in Hd.
  by rewrite Hd.
Qed.

(** What [renderView] does before the [try] invokes no template and keeps
    the default layout and the extension. *)
Lemma renderView_prepare_run env viewPath options m r m' :
  renderView_prepare env viewPath options m = (r, m') →
  (∃ evs, trace m' = trace m ++ evs ∧ Forall no_invoke evs)
  ∧ extname (self m') = extname (self m)
  ∧ (∀ ro, r = Fulfilled ro → prop ro "layout" = effective_layout (self m) options).
Proof.
  unfold renderView_prepare.
  set (views := js_and _ _).
  pose proof (_resolveViewsPath_pure env views viewPath m) as Hpure.
  unfold bind at 1.
  destruct (_resolveViewsPath env views viewPath m) as [[viewsPath|e] m0];
    simpl in Hpure; subst m0.
  2:{ intros [= <- <-]. split; [|done]. exists []. by rewrite app_nil_r. }
  destruct (renderView_view_run env viewPath viewsPath m) as (Ht & Hd & He).
  unfold bind at 1.
  destruct (renderView_view env viewPath viewsPath m) as [[view|e] m1]; simpl in Ht, Hd, He.
  2:{ intros [= <- <-]. split; [|done]. exists []. by rewrite app_nil_r. }
  intros Hrun.
  assert (Hg : grows no_invoke m1 (renderView_options env options view m1).2)
    by (apply renderView_options_respects; intros; intros []).
  rewrite Hrun in Hg. destruct Hg as [Hs (evs & Htr & Hev)]. simpl in *.
  split; [|split].
  - exists evs. by rewrite Htr, Ht.
  - destruct Hs as (_&_&_&Hext&_). by rewrite Hext.
  - intros ro ->. apply renderView_options_run in Hrun.
    rewrite Hrun. unfold effective_layout. by rewrite Hd.
Qed.

Lemma render_invocations env filePath context options m r m' :
  render env filePath context options m = (r, m') →
  same_settings (self m) (self m')
  ∧ ∃ evs, trace m' = trace m ++ evs
      ∧ ((invocations evs = [] ∧ is_rejected r)
         ∨ ∃ template ro, invocations evs = [(template, context, ro)]
             ∧ r = settled_map JS.trim (hb_invoke env template context ro)).
Proof.
  intros (m1 & [Hs (evs & Ht & Hev)] & Hself & Hcase)%render_shape.
  split; [by rewrite Hself|].
  destruct Hcase as [[Htr Hrej]|(template & partials & Htr & Hr)].
  - exists evs. split; [by rewrite Htr|]. left. split; [|done].
    by apply invocations_none.
  - eexists (evs ++ [_]). split; [by rewrite Htr, Ht, app_assoc|]. right.
    eexists _, _. split; [|exact Hr].
    rewrite invocations_app, invocations_none by done. done.
Qed.

Lemma renderView_body_layout env viewPath context ro m html m1 layout :
  render env viewPath context ro m = (Fulfilled html, m1) →
  prop ro "layout" = VStr layout → layout ≠ "" →
  renderView_body env viewPath context ro m
  = render env (layout_file env (self m1) layout)
      (<["body" := VStr html]> context) (<["layout" := VUndefined]> ro) m1.
Proof.
  intros Hrender Hlayout Hne. unfold renderView_body.
  rewrite (bind_eq _ _ _ _ _ Hrender), Hlayout.
  rewrite (bind_eq _ _ _ _ _ (_resolveLayoutPath_string env layout m1 Hne)).
  destruct (String.eqb_spec (layout_file env (self m1) layout) "") as [Hnil|_]; [|done].
  by apply resolve_nonempty in Hnil.
Qed.

Lemma renderView_body_plain env viewPath context ro m :
  truthy (prop ro "layout") = false →
  renderView_body env viewPath context ro m = render env viewPath context ro m.
Proof.
  intros Hfalsy. unfold renderView_body.
  destruct (render env viewPath context ro m) as [[html|e] m1] eqn:Hrender.
  - rewrite (bind_eq _ _ _ _ _ Hrender).
    by rewrite (bind_eq _ _ _ _ _ (_resolveLayoutPath_falsy env _ m1 Hfalsy)).
  - by rewrite (bind_eq _ _ _ _ _ Hrender).
Qed.

(** C3. When a layout is in effect, [renderView] returns what [render]
    returns for the layout file, with the original context (the options)
    plus [body], bound to the HTML of the view, and with the options of the
    first call except that [layout] is undefined.  The layout file is the
    layout name, with the configured extension when the name has none,
    resolved against the layouts directory. *)
Theorem layout_wraps_view env viewPath options m ro m1 layout html m2 :
  renderView_prepare env viewPath options m = (Fulfilled ro, m1) →
  effective_layout (self m) options = VStr layout →
  layout ≠ "" →
  render env viewPath options ro m1 = (Fulfilled html, m2) →
  let name :=
    if String.eqb (Path.extname layout) "" then layout +:+ extname (self m)
    else layout in
  let layoutPath := Path.resolve (cwd env) [default "" (layoutsDir (self m1)); name] in
  renderView env viewPath options m
  = render env layoutPath (<["body" := VStr html]> options)
      (<["layout" := VUndefined]> ro) m2
  ∧ prop (<["layout" := VUndefined]> ro) "layout" = VUndefined
  ∧ (<["body" := VStr html]> options) !! "body" = Some (VStr html)
  ∧ (∀ k, k ≠ "body" → (<["body" := VStr html]> options) !! k = options !! k).
Proof.
  intros Hprep Hlayout Hne Hrender name layoutPath.
  destruct (renderView_prepare_run _ _ _ _ _ _ Hprep) as (_ & Hext & Hro).
  destruct (render_invocations _ _ _ _ _ _ _ Hrender) as [(_&_&Hld&Hext2&_) _].
  split; [|split; [|split]].
  - unfold renderView. rewrite (bind_eq _ _ _ _ _ Hprep).
    rewrite (renderView_body_layout _ _ _ _ _ html m2 layout); try done.
    + unfold layout_file. subst layoutPath name. by rewrite Hld, Hext2, Hext.
    + rewrite (Hro ro eq_refl). done.
  - unfold prop. by rewrite lookup_insert_eq.
  - by rewrite lookup_insert_eq.
  - intros k Hk. by rewrite lookup_insert_ne.
Qed.

(** The default layout [main] around the demo view. *)
Lemma layout_wraps_view_witness :
  (renderView demo_env "views/home.hbs" ∅ demo).1 = Fulfilled "<body><p>X</p></body>".
Proof.
  pose (ro := match (renderView_prepare demo_env "views/home.hbs" ∅ demo).1 with
              | Fulfilled ro => ro
              | Rejected _ => ∅
              end).
  pose (m1 := (renderView_prepare demo_env "views/home.hbs" ∅ demo).2).
  pose (m2 := (render demo_env "views/home.hbs" ∅ ro m1).2).
  assert (Hprep : renderView_prepare demo_env "views/home.hbs" ∅ demo
                  = (Fulfilled ro, m1)) by (vm_compute; reflexivity).
  assert (Hrender : render demo_env "views/home.hbs" ∅ ro m1
                    = (Fulfilled "<p>X</p>", m2)) by (vm_compute; reflexivity).
  assert (Hlayout : effective_layout (self demo) ∅ = VStr "main") by reflexivity.
  assert (Hne : "main" ≠ "") by discriminate.
  destruct (layout_wraps_view demo_env "views/home.hbs" ∅ demo ro m1 "main"
              "<p>X</p>" m2 Hprep Hlayout Hne Hrender) as [-> _].
  vm_compute. reflexivity.
Defined.

(** The template invocations [renderView] makes: none when it fails before
    the view is rendered, the view with the options as its context, and
    after it, when a layout is rendered, the layout with [body] added. *)
Lemma renderView_invocations env viewPath options m r m' :
  renderView env viewPath options m = (r, m') →
  ∃ evs, trace m' = trace m ++ evs
    ∧ ((invocations evs = [] ∧ is_rejected r)
       ∨ (∃ template ro, invocations evs = [(template, options, ro)])
       ∨ (∃ template ro html template' ro',
            invocations evs
            = [(template, options, ro);
               (template', <["body" := VStr html]> options, ro')]
            ∧ truthy (effective_layout (self m) options) = true)).
Proof.
  unfold renderView. intros Hrun.
  destruct (renderView_prepare env viewPath options m) as [[ro|e] m1] eqn:Hprep.
  2:{ rewrite (bind_eq _ _ _ _ _ Hprep) in Hrun. injection Hrun as <- <-.
      destruct (renderView_prepare_run _ _ _ _ _ _ Hprep) as ((evs & Ht & Hev) & _).
      exists evs. split; [done|]. left. split; [by apply invocations_none|done]. }
  rewrite (bind_eq _ _ _ _ _ Hprep) in Hrun.
  destruct (renderView_prepare_run _ _ _ _ _ _ Hprep) as ((evs0 & Ht0 & Hev0) & _ & Hro).
  specialize (Hro ro eq_refl).
  unfold renderView_body in Hrun.
  destruct (render env viewPath options ro m1) as [[html|e] m2] eqn:Hrender;
    rewrite (bind_eq _ _ _ _ _ Hrender) in Hrun;
    destruct (render_invocations _ _ _ _ _ _ _ Hrender)
      as [_ (evs1 & Ht1 & [[Hinv1 Hrej]|(template & o & Hinv1 & Hr1)])]; try done.
  2:{ injection Hrun as <- <-. exists (evs0 ++ evs1).
      split; [by rewrite Ht1, Ht0, app_assoc|]. left.
      by rewrite invocations_app, invocations_none, Hinv1. }
  2:{ injection Hrun as <- <-. exists (evs0 ++ evs1).
      split; [by rewrite Ht1, Ht0, app_assoc|]. right. left.
      exists template, o. by rewrite invocations_app, invocations_none, Hinv1. }
  rewrite Hro in Hrun.
  destruct (truthy (effective_layout (self m) options)) eqn:Htruthy.
  2:{ rewrite (bind_eq _ _ _ _ _ (_resolveLayoutPath_falsy env _ m2 Htruthy)) in Hrun.
      injection Hrun as <- <-. exists (evs0 ++ evs1).
      split; [by rewrite Ht1, Ht0, app_assoc|]. right. left.
      exists template, o. by rewrite invocations_app, invocations_none, Hinv1. }
  destruct (_resolveLayoutPath env (effective_layout (self m) options) m2)
    as [[[layoutPath|]|e] m3] eqn:Hlp.
  - assert (m3 = m2) as ->.
    { unfold _resolveLayoutPath in Hlp. rewrite Htruthy in Hlp. cbn [negb] in Hlp.
      destruct (effective_layout (self m) options); try done.
      by injection Hlp as _ <-. }
    rewrite (bind_eq _ _ _ _ _ Hlp) in Hrun.
    destruct (negb (String.eqb layoutPath "")).
    + destruct (render_invocations _ _ _ _ _ _ _ Hrun)
        as [_ (evs2 & Ht2 & [[Hinv2 Hrej]|(template' & o' & Hinv2 & Hr2)])].
      * exists (evs0 ++ evs1 ++ evs2).
        split; [by rewrite Ht2, Ht1, Ht0, !app_assoc|]. right. left.
        exists template, o.
        by rewrite !invocations_app, invocations_none, Hinv1, Hinv2.
      * exists (evs0 ++ evs1 ++ evs2).
        split; [by rewrite Ht2, Ht1, Ht0, !app_assoc|]. right. right.
        exists template, o, html, template', o'.
        by rewrite !invocations_app, invocations_none, Hinv1, Hinv2.
    + injection Hrun as <- <-. exists (evs0 ++ evs1).
      split; [by rewrite Ht1, Ht0, app_assoc|]. right. left.
      exists template, o. by rewrite invocations_app, invocations_none, Hinv1.
  - unfold _resolveLayoutPath in Hlp. rewrite Htruthy in Hlp. cbn [negb] in Hlp.
    by destruct (effective_layout (self m) options).
  - assert (m3 = m2) as ->.
    { unfold _resolveLayoutPath in Hlp. rewrite Htruthy in Hlp. cbn [negb] in Hlp.
      destruct (effective_layout (self m) options); try done;
        by injection Hlp as _ <-. }
    rewrite (bind_eq _ _ _ _ _ Hlp) in Hrun. injection Hrun as <- <-.
    exists (evs0 ++ evs1).
    split; [by rewrite Ht1, Ht0, app_assoc|]. right. left.
    exists template, o. by rewrite invocations_app, invocations_none, Hinv1.
Qed.

(** C6. A [layout] key in the options of [renderView], whatever its value,
    is the layout in effect, whatever the default layout of the instance.
    When that value stands for no layout, the layout path resolves to
    nothing and [renderView] is the rendering of the view alone: at most
    one template is invoked, with the options as its context. *)
Theorem explicit_layout_wins env viewPath options m layout :
  options !! "layout" = Some layout →
  effective_layout (self m) options = layout
  ∧ (∀ ro m1, renderView_prepare env viewPath options m = (Fulfilled ro, m1) →
       prop ro "layout" = layout)
  ∧ (truthy layout = false →
       (∀ m1, _resolveLayoutPath env layout m1 = (Fulfilled None, m1))
       ∧ renderView env viewPath options m
         = (let* ro := renderView_prepare env viewPath options in
            render env viewPath options ro) m
       ∧ ∃ evs, trace (renderView env viewPath options m).2 = trace m ++ evs
           ∧ (invocations evs = []
              ∨ ∃ template ro, invocations evs = [(template, options, ro)])).
Proof.
  intros Hlayout.
  assert (Heff : effective_layout (self m) options = layout)
    by (unfold effective_layout; by rewrite Hlayout).
  split; [done|]. split.
  - intros ro m1 Hprep.
    destruct (renderView_prepare_run _ _ _ _ _ _ Hprep) as (_ & _ & Hro).
    by rewrite (Hro ro eq_refl).
  - intros Hfalsy. split; [|split].
    + intros m1. by apply _resolveLayoutPath_falsy.
    + unfold renderView.
      destruct (renderView_prepare env viewPath options m) as [[ro|e] m1] eqn:Hprep;
        rewrite !(bind_eq _ _ _ _ _ Hprep); [|done].
      apply renderView_body_plain.
      destruct (renderView_prepare_run _ _ _ _ _ _ Hprep) as (_ & _ & Hro).
      by rewrite (Hro ro eq_refl), Heff.
    + destruct (renderView env viewPath options m) as [r m'] eqn:Hrun.
      destruct (renderView_invocations _ _ _ _ _ _ Hrun)
        as (evs & Ht & [[Hinv _]|[Hinv|(?&?&?&?&?&_&Htruthy)]]).
      * exists evs. auto.
      * exists evs. auto.
      * congruence.
Qed.

Lemma explicit_layout_wins_witness :
  (renderView demo_env "views/home.hbs" {["layout" := VBool false]} demo).1
  = (render demo_env "views/home.hbs" {["layout" := VBool false]}
       (match (renderView_prepare demo_env "views/home.hbs"
                 {["layout" := VBool false]} demo).1 with
        | Fulfilled ro => ro
        | Rejected _ => ∅
        end) demo).1.
Proof.
  assert (Hl : ({["layout" := VBool false]} : jsobj) !! "layout" = Some (VBool false))
    by apply lookup_singleton_eq.
  rewrite (proj1 (proj2 (proj2 (proj2 (explicit_layout_wins demo_env "views/home.hbs"
             {["layout" := VBool false]} demo (VBool false) Hl)) eq_refl))).
  vm_compute. reflexivity.
Defined.



(** * Further properties of the code *)

(** ** Cache hits *)

Lemma _getFile_stores env filePath options m v m1 :
  _getFile env filePath options m = (Fulfilled v, m1) →
  _fsCache (self m1) !! resolve1 env filePath = Some (Fulfilled v).
Proof.
  intros Hrun.
  destruct (cached (opt_cache options) (_fsCache (self m)) (resolve1 env filePath))
    as [file|] eqn:Hf.
  - rewrite (_getFile_hit _ _ _ _ file) in Hrun by done. injection Hrun as -> <-.
    unfold cached in Hf. by destruct (opt_cache options).
  - rewrite _getFile_miss in Hrun by done. cbn zeta in Hrun.
    injection Hrun as Hr <-. cbn [self set_fsCache _fsCache]. rewrite Hr.
    apply lookup_insert_eq.
Qed.

Lemma _getDir_stores env dirPath options m paths m1 :
  _getDir env dirPath options m = (Fulfilled paths, m1) →
  ∃ dir, _fsCache (self m1) !! resolve1 env dirPath = Some (Fulfilled dir)
         ∧ spread_list dir = paths.
Proof.
  intros Hrun.
  destruct (cached (opt_cache options) (_fsCache (self m)) (resolve1 env dirPath))
    as [dir|] eqn:Hf.
  - rewrite (_getDir_hit _ _ _ _ dir) in Hrun by done. injection Hrun as Hr <-.
    destruct dir as [d|e]; [|done]. injection Hr as Hr. exists d. split; [|done].
    unfold cached in Hf. by destruct (opt_cache options).
  - rewrite _getDir_miss in Hrun by done. cbn zeta in Hrun.
    injection Hrun as Hr <-. cbn [self set_fsCache _fsCache].
    destruct (if opt_throwTestError options then _ else _) as [d|e]; [|done].
    injection Hr as Hr. exists d. split; [apply lookup_insert_eq|done].
Qed.

Lemma _getFile_template_caches env filePath options m :
  compiled (self (_getFile env filePath options m).2) = compiled (self m)
  ∧ precompiled (self (_getFile env filePath options m).2) = precompiled (self m).
Proof.
  destruct (cached (opt_cache options) (_fsCache (self m)) (resolve1 env filePath))
    as [file|] eqn:Hf.
  - by rewrite (_getFile_hit _ _ _ _ file).
  - by rewrite _getFile_miss.
Qed.

Lemma _getDir_template_caches env dirPath options m :
  compiled (self (_getDir env dirPath options m).2) = compiled (self m)
  ∧ precompiled (self (_getDir env dirPath options m).2) = precompiled (self m).
Proof.
  destruct (cached (opt_cache options) (_fsCache (self m)) (resolve1 env dirPath))
    as [dir|] eqn:Hf.
  - by rewrite (_getDir_hit _ _ _ _ dir).
  - by rewrite _getDir_miss.
Qed.

Lemma getTemplate_stores env filePath options m template m1 :
  getTemplate env filePath options m = (Fulfilled template, m1) →
  template_cache (opt_precompiled options) (self m1) !! resolve1 env filePath
  = Some (Fulfilled template).
Proof.
  intros Hrun.
  destruct (cached (opt_cache options)
              (template_cache (opt_precompiled options) (self m))
              (resolve1 env filePath)) as [t|] eqn:Hf.
  - rewrite (getTemplate_hit _ _ _ _ t) in Hrun by done. injection Hrun as -> <-.
    unfold cached in Hf. by destruct (opt_cache options).
  - rewrite getTemplate_miss in Hrun by done. cbn zeta in Hrun.
    injection Hrun as Hr <-. rewrite Hr.
    destruct (opt_precompiled options); simpl; apply lookup_insert_eq.
Qed.

(** X1. Whatever the cache option of a call that succeeded, a later call
    with [cache] on for the same path is served from the cache: it returns
    the same file text, listing or template, asks nothing of the outside
    world and leaves the instance as it is, even when the file system has
    changed in between. *)
Theorem cached_after_success env env' filePath options options' m :
  cwd env' = cwd env →
  opt_cache options' = true →
  (∀ v m1, _getFile env filePath options m = (Fulfilled v, m1) →
     _getFile env' filePath options' m1 = (Fulfilled v, m1))
  ∧ (∀ paths m1, _getDir env filePath options m = (Fulfilled paths, m1) →
       _getDir env' filePath options' m1 = (Fulfilled paths, m1))
  ∧ (∀ template m1, getTemplate env filePath options m = (Fulfilled template, m1) →
       opt_precompiled options' = opt_precompiled options →
       getTemplate env' filePath options' m1 = (Fulfilled template, m1)).
Proof.
  intros Hcwd Hon.
  assert (Hk : resolve1 env' filePath = resolve1 env filePath)
    by (unfold resolve1; by rewrite Hcwd).
  split; [|split].
  - intros v m1 Hrun. apply _getFile_stores in Hrun. apply _getFile_hit.
    unfold cached. by rewrite Hon, Hk.
  - intros paths m1 Hrun. apply _getDir_stores in Hrun as (dir & Hdir & <-).
    rewrite (_getDir_hit _ _ _ _ (Fulfilled dir)); [done|].
    unfold cached. by rewrite Hon, Hk.
  - intros template m1 Hrun%getTemplate_stores Hpre. apply getTemplate_hit.
    unfold cached. by rewrite Hon, Hk, Hpre.
Qed.

Lemma cached_after_success_witness :
  let m1 := (getTemplate demo_env "views/home.hbs" (options_cache false) demo).2 in
  getTemplate (with_file demo_env "/srv/views/home.hbs" "changed") "views/home.hbs"
    (options_cache true) m1
  = (Fulfilled (Artifact "<p>X</p>"), m1).
Proof.
  cbn zeta.
  exact (proj2 (proj2 (cached_after_success demo_env
                         (with_file demo_env "/srv/views/home.hbs" "changed")
                         "views/home.hbs" (options_cache false) (options_cache true)
                         demo eq_refl eq_refl))
           (Artifact "<p>X</p>") _ eq_refl eq_refl).
Defined.

(** ** Invalidation and the caches *)

Lemma resetCache_lookup sel h k :
  _fsCache (resetCache sel h) !! k
  = match sel with
    | SelUndefined => None
    | SelString p => if decide (p = k) then None else _fsCache h !! k
    | SelFunction f => if f k then None else _fsCache h !! k
    | SelArray l => if decide (k ∈ l) then None else _fsCache h !! k
    end.
Proof.
  unfold resetCache. cbv zeta. rewrite resetCache_fold.
  cbn [_fsCache set_fsCache]. rewrite lookup_foldl_delete.
  destruct sel as [|p|f|l].
  - case_decide as Hk; [done|].
    rewrite elem_of_cache_keys in Hk. by apply eq_None_not_Some.
  - destruct (decide (p = k)) as [->|Hne].
    + rewrite decide_True; [done|]. apply list_elem_of_here.
    + rewrite decide_False; [done|]. by intros ->%list_elem_of_singleton.
  - destruct (f k) eqn:Hf.
    + case_decide as Hk; [done|]. apply eq_None_not_Some. intros Hs.
      apply Hk. apply list_elem_of_filter. split; [done|].
      by apply elem_of_cache_keys.
    + rewrite decide_False; [done|].
      intros [Hk _]%list_elem_of_filter. congruence.
  - done.
Qed.

Lemma resetCache_keeps sel h :
  compiled (resetCache sel h) = compiled h
  ∧ precompiled (resetCache sel h) = precompiled h
  ∧ same_settings h (resetCache sel h).
Proof. unfold resetCache. cbv zeta. rewrite resetCache_fold. by repeat split. Qed.

(** X2. After [resetCache] with a selector that names the resolved path,
    a read of that path, cached or not, goes to the file system again and
    returns what is there now. *)
Theorem read_after_reset env filePath options sel h tr :
  selects sel (resolve1 env filePath) →
  let k := resolve1 env filePath in
  let enc := read_encoding options h in
  let file := settled_map FileText (readFile env k enc) in
  _getFile env filePath options (Machine (resetCache sel h) tr)
  = (file, Machine (set_fsCache (settle_in k file) (resetCache sel h))
             (tr ++ [ReadFile k enc])).
Proof.
  intros Hsel. cbn zeta.
  assert (Henc : encoding (resetCache sel h) = encoding h).
  { by destruct (resetCache_keeps sel h) as (_ & _ & _ & -> & _). }
  pose proof (_getFile_miss env filePath options (Machine (resetCache sel h) tr)) as E.
  cbn zeta in E. unfold read_encoding in *. cbn [self trace] in E. rewrite Henc in E.
  apply E. unfold cached. destruct (opt_cache options); [|done].
  rewrite resetCache_lookup. destruct sel as [|p|f|l]; simpl in Hsel.
  - done.
  - by rewrite decide_True.
  - by rewrite Hsel.
  - by rewrite decide_True.
Qed.

Lemma read_after_reset_witness :
  let m1 := (_getFile demo_env "views/home.hbs" (options_cache true) demo).2 in
  (_getFile (with_file demo_env "/srv/views/home.hbs" "changed") "views/home.hbs"
     (options_cache true) (Machine (resetCache SelUndefined (self m1)) (trace m1))).1
  = Fulfilled (FileText "changed").
Proof.
  cbn zeta.
  rewrite (read_after_reset (with_file demo_env "/srv/views/home.hbs" "changed")
             "views/home.hbs" (options_cache true) SelUndefined _ _ I).
  reflexivity.
Defined.

(** X3. [resetCache] never reaches the compiled templates: a template
    loaded once is still served from its cache after any [resetCache],
    without a read or a compilation, whatever the file now holds. *)
Theorem template_survives_reset env env' filePath options options' sel m template m1 tr :
  getTemplate env filePath options m = (Fulfilled template, m1) →
  cwd env' = cwd env →
  opt_cache options' = true →
  opt_precompiled options' = opt_precompiled options →
  let m2 := Machine (resetCache sel (self m1)) tr in
  getTemplate env' filePath options' m2 = (Fulfilled template, m2).
Proof.
  intros Hrun Hcwd Hon Hpre m2. apply getTemplate_stores in Hrun.
  apply getTemplate_hit. unfold cached. rewrite Hon, Hpre.
  replace (resolve1 env' filePath) with (resolve1 env filePath)
    by (unfold resolve1; by rewrite Hcwd).
  destruct (resetCache_keeps sel (self m1)) as (Hc & Hp & _).
  unfold m2, template_cache in *. cbn [self].
  destruct (opt_precompiled options); by rewrite ?Hc, ?Hp.
Qed.

Lemma template_survives_reset_witness :
  let m1 := (getTemplate demo_env "views/home.hbs" (options_cache true) demo).2 in
  let m2 := Machine (resetCache SelUndefined (self m1)) (trace m1) in
  getTemplate (with_file demo_env "/srv/views/home.hbs" "changed") "views/home.hbs"
    (options_cache true) m2
  = (Fulfilled (Artifact "<p>X</p>"), m2).
Proof.
  cbn zeta.
  exact (template_survives_reset demo_env
           (with_file demo_env "/srv/views/home.hbs" "changed")
           "views/home.hbs" (options_cache true) (options_cache true) SelUndefined
           demo (Artifact "<p>X</p>") _ _ eq_refl eq_refl eq_refl eq_refl).
Defined.

Lemma resolve_loop_absolute cwd rev_args acc :
  Path.isAbsolute cwd = true → (Path.resolve_loop cwd rev_args acc).2 = true.
Proof.
  intros Habs. revert acc. induction rev_args as [|p rest IH]; intros acc; simpl.
  - destruct (String.length cwd =? 0)%nat eqn:Hlen; [|done].
    apply Nat.eqb_eq in Hlen. by destruct cwd.
  - destruct (String.length p =? 0)%nat; [apply IH|].
    destruct (Path.isAbsolute p); [done|apply IH].
Qed.

Lemma resolve_absolute cwd args :
  Path.isAbsolute cwd = true → Path.isAbsolute (Path.resolve cwd args) = true.
Proof.
  intros Habs. unfold Path.resolve.
  pose proof (resolve_loop_absolute cwd (reverse args) "" Habs) as H.
  destruct (Path.resolve_loop _ _ _) as [p abs]. simpl in H. by subst abs.
Qed.

(** X4. [resetCache] compares its argument with the cache keys as they
    are, and the keys are resolved paths: with an absolute working
    directory, passing the relative path a file was read by removes
    nothing, and a cached read of that path still returns the old text
    without touching the file system. *)
Theorem reset_by_relative_path_keeps env env' filePath options options' m file m1 tr :
  Path.isAbsolute (cwd env) = true →
  Path.isAbsolute filePath = false →
  _getFile env filePath options m = (Fulfilled file, m1) →
  cwd env' = cwd env →
  opt_cache options' = true →
  let m2 := Machine (resetCache (SelString filePath) (self m1)) tr in
  _getFile env' filePath options' m2 = (Fulfilled file, m2).
Proof.
  intros Habs Hrel Hrun Hcwd Hon m2. apply _getFile_stores in Hrun.
  apply _getFile_hit. unfold cached. rewrite Hon.
  replace (resolve1 env' filePath) with (resolve1 env filePath)
    by (unfold resolve1; by rewrite Hcwd).
  unfold m2. cbn [self]. rewrite resetCache_lookup.
  rewrite decide_False; [done|]. intros Heq.
  pose proof (resolve_absolute (cwd env) [filePath] Habs) as Hr.
  unfold resolve1 in Heq. rewrite <- Heq in Hr. congruence.
Qed.

Lemma reset_by_relative_path_keeps_witness :
  let m1 := (_getFile demo_env "views/home.hbs" (options_cache true) demo).2 in
  let m2 := Machine (resetCache (SelString "views/home.hbs") (self m1)) (trace m1) in
  _getFile (with_file demo_env "/srv/views/home.hbs" "changed") "views/home.hbs"
    (options_cache true) m2
  = (Fulfilled (FileText " <p>X</p> "), m2).
Proof.
  cbn zeta.
  exact (reset_by_relative_path_keeps demo_env
           (with_file demo_env "/srv/views/home.hbs" "changed")
           "views/home.hbs" (options_cache true) (options_cache true)
           demo (FileText " <p>X</p> ") _ _ eq_refl eq_refl eq_refl eq_refl eq_refl).
Defined.

(** ** Partials that are supplied *)

Lemma partials_mapper_begin_supplied env options d m :
  is_Some (entry_templates d) →
  partials_mapper_begin env options d m = (Fulfilled (supplied_pending d), m).
Proof.
  intros [templates Ht]. unfold partials_mapper_begin, supplied_pending.
  destruct d as [s|[dir ts ns rename]]; simpl in *; [done|]. subst ts.
  by rewrite andb_false_r.
Qed.

Lemma mapM_pure {A B} (f : A → M B) (g : A → B) (l : list A) m :
  Forall (λ x, f x m = (Fulfilled (g x), m)) l →
  mapM f l m = (Fulfilled (g <$> l), m).
Proof.
  induction 1 as [|x l Hx _ IH]; [done|].
  cbn [mapM]. rewrite (bind_run _ _ _ _ _ Hx), (bind_run _ _ _ _ _ IH). done.
Qed.

Lemma first_thrown_supplied ds : first_thrown (supplied_pending <$> ds) = None.
Proof. unfold first_thrown. by induction ds. Qed.

(** X5. When every descriptor of [partialsDir] brings its templates along,
    [getPartials] asks nothing of the file system and of Handlebars and
    leaves the instance as it is: the partials are the supplied templates,
    merged in the order of the descriptors. *)
Theorem partials_supplied env options m pd :
  partialsDir (self m) = Some pd →
  Forall (λ d, is_Some (entry_templates d)) (partialsDirs pd) →
  getPartials env options m
  = (Fulfilled (merge_partials (self m) (supplied_entry <$> partialsDirs pd)), m).
Proof.
  intros Hpd Hall. unfold getPartials.
  rewrite (bind_run this _ m (self m) m eq_refl). rewrite Hpd.
  fold (partialsDirs pd).
  rewrite (bind_run _ _ m (supplied_pending <$> partialsDirs pd) m).
  2:{ apply mapM_pure. eapply Forall_impl; [exact Hall|].
      intros d Hd. by apply partials_mapper_begin_supplied. }
  rewrite (bind_run _ _ m (Fulfilled <$> (supplied_entry <$> partialsDirs pd)) m).
  2:{ rewrite <- list_fmap_compose.
      rewrite (list_fmap_compose supplied_pending
                 (λ p, match p with
                       | MapperHas ts ns rn =>
                           Fulfilled {| pe_templates := ts; pe_namespace := ns;
                                        pe_rename := rn |}
                       | _ => Rejected config_error
                       end)).
      apply mapM_pure. apply Forall_forall. intros p Hp.
      apply list_elem_of_fmap in Hp as (d & -> & _). done. }
  rewrite first_thrown_supplied.
  unfold bind at 1, await at 1. rewrite Promise_all_values.
  done.
Qed.

Lemma partials_supplied_witness :
  getPartials demo_env (options_cache true) (Machine (create (cards_config (Some "ui"))) [])
  = (Fulfilled ({["ui/card" := Artifact "A"; "card" := Artifact "B"]}),
     Machine (create (cards_config (Some "ui"))) []).
Proof.
  rewrite (partials_supplied demo_env (options_cache true)
             (Machine (create (cards_config (Some "ui"))) [])
             (DirArray [card_dir (Some "ui") "A"; card_dir None "B"]) eq_refl).
  - reflexivity.
  - repeat constructor; by eexists.
Defined.

(** ** The templates of a directory *)

Lemma getTemplates_sequence env dirPath options m :
  getTemplates env dirPath options m
  = bind (_getDir env dirPath (options_cache (opt_cache options)))
      (λ filePaths,
         bind (mapM (λ filePath,
                       promise (getTemplate env (Path.join [dirPath; filePath]) options))
                 filePaths)
           (λ promises,
              bind (await (Promise_all promises))
                (λ templates,
                   ret (foldl (λ hash kv, obj_set kv.1 kv.2 hash) []
                          (zip filePaths templates)))))
      m.
Proof.
  unfold getTemplates, getTemplates_end, _getDir, bind.
  by destruct (_getDir_begin env dirPath _ m) as [[pending|e] m1].
Qed.

Lemma elem_of_obj_set {A} (k k' : string) (v v' : A) o :
  (k', v') ∈ obj_set k v o → (k', v') = (k, v) ∨ (k', v') ∈ o.
Proof.
  induction o as [|[k0 v0] o IH]; simpl.
  - intros ->%list_elem_of_singleton. by left.
  - destruct (String.eqb_spec k0 k) as [->|Hne].
    + intros [->|Hin]%elem_of_cons; [by left|]. right. by apply list_elem_of_further.
    + intros [->|Hin]%elem_of_cons; [right; apply list_elem_of_here|].
      destruct (IH Hin) as [->|Hin']; [by left|].
      right. by apply list_elem_of_further.
Qed.

Lemma obj_set_keys {A} (k k' : string) (v : A) o :
  k' ∈ (obj_set k v o).*1 ↔ k' = k ∨ k' ∈ o.*1.
Proof.
  induction o as [|[k0 v0] o IH]; simpl.
  - rewrite list_elem_of_singleton, elem_of_nil. tauto.
  - destruct (String.eqb_spec k0 k) as [->|Hne]; simpl;
      rewrite !elem_of_cons; [tauto|]. rewrite IH. tauto.
Qed.

Lemma obj_set_NoDup {A} (k : string) (v : A) o :
  NoDup o.*1 → NoDup (obj_set k v o).*1.
Proof.
  induction o as [|[k0 v0] o IH]; simpl.
  - intros _. apply NoDup_singleton.
  - intros [Hk0 Ho]%NoDup_cons. destruct (String.eqb_spec k0 k) as [->|Hne]; simpl.
    + by apply NoDup_cons.
    + apply NoDup_cons. split; [|by apply IH].
      rewrite obj_set_keys. simpl in Hk0. intros [?|?]; [congruence|done].
Qed.

Lemma hash_of_pairs {A} (pairs : list (string * A)) (init : list (string * A)) :
  NoDup init.*1 →
  let hash := foldl (λ hash kv, obj_set kv.1 kv.2 hash) init pairs in
  NoDup hash.*1
  ∧ (∀ k, k ∈ hash.*1 ↔ k ∈ pairs.*1 ∨ k ∈ init.*1)
  ∧ (∀ kv, kv ∈ hash → kv ∈ pairs ∨ kv ∈ init).
Proof.
  revert init. induction pairs as [|[k v] pairs IH]; intros init Hnd; cbn [foldl].
  - cbn zeta. split; [done|]. split; [|by right]. intros k.
    simpl. rewrite elem_of_nil. tauto.
  - destruct (IH (obj_set k v init) (obj_set_NoDup k v init Hnd)) as (H1 & H2 & H3).
    cbn zeta in *. split; [exact H1|]. split.
    + intros k'. rewrite H2, obj_set_keys. simpl. rewrite elem_of_cons. tauto.
    + intros [k' v'] Hin. destruct (H3 _ Hin) as [Hp|Hi].
      * left. by apply list_elem_of_further.
      * apply elem_of_obj_set in Hi as [->|Hi]; [left; apply list_elem_of_here|by right].
Qed.

Lemma Forall2_zip_elem {A B} (R : A → B → Prop) l ys x y :
  Forall2 R l ys → (x, y) ∈ zip l ys → R x y.
Proof.
  induction 1 as [|a b l ys Hab _ IH]; simpl; [by intros ?%elem_of_nil|].
  intros [[= -> ->]|Hin]%elem_of_cons; auto.
Qed.



(** ** Trimmed output *)

Lemma trimStartL_head l :
  match JS.trimStartL l with
  | [] => True
  | c :: _ => JS.isWhiteSpace c = false
  end.
Proof.
  induction l as [|c l IH]; simpl; [done|].
  destruct (JS.isWhiteSpace c) eqn:Hc; [done|]. by rewrite Hc.
Qed.

Lemma trimStartL_fixed c l :
  JS.isWhiteSpace c = false → JS.trimStartL (c :: l) = c :: l.
Proof. simpl. by intros ->. Qed.

Lemma trimStartL_suffix l : ∃ pre, l = pre ++ JS.trimStartL l.
Proof.
  induction l as [|c l [pre IH]]; simpl; [by exists []|].
  destruct (JS.isWhiteSpace c); [|by exists []].
  exists (c :: pre). simpl. by f_equal.
Qed.

Lemma trimL_idemp l : JS.trimL (JS.trimL l) = JS.trimL l.
Proof.
  unfold JS.trimL.
  pose proof (trimStartL_head l) as Ha.
  destruct (trimStartL_suffix (reverse (JS.trimStartL l))) as [pre Hb].
  pose proof (trimStartL_head (reverse (JS.trimStartL l))) as Hbh.
  set (a := JS.trimStartL l) in *. set (b := JS.trimStartL (reverse a)) in *.
  assert (Hab : a = reverse b ++ reverse pre).
  { rewrite <- reverse_app, <- Hb. by rewrite reverse_involutive. }
  assert (Hfix : JS.trimStartL (reverse b) = reverse b).
  { destruct (reverse b) as [|c r] eqn:Hr; [done|].
    apply trimStartL_fixed. rewrite Hab in Ha. exact Ha. }
  rewrite Hfix, reverse_involutive.
  destruct b as [|c b']; [done|]. by rewrite trimStartL_fixed.
Qed.

Lemma chars_str l : JS.chars (JS.str l) = l.
Proof. apply String.list_ascii_of_string_of_list_ascii. Qed.

Lemma trim_idemp s : JS.trim (JS.trim s) = JS.trim s.
Proof. unfold JS.trim. by rewrite chars_str, trimL_idemp. Qed.

Lemma render_trimmed env filePath context options m html m' :
  render env filePath context options m = (Fulfilled html, m') → JS.trim html = html.
Proof.
  intros Hr.
  apply render_shape in Hr as (m1 & _ & _ & [[_ []]|(template & partials & _ & Hout)]).
  destruct (hb_invoke env template context _) as [out|]; [|done].
  injection Hout as ->. apply trim_idemp.
Qed.

(** X7. What [render] and [renderView] return has no white space left at
    either end, with or without a layout: trimming it again changes
    nothing. *)
Theorem output_is_trimmed env viewPath context options m html m' :
  render env viewPath context options m = (Fulfilled html, m')
  ∨ renderView env viewPath options m = (Fulfilled html, m') →
  JS.trim html = html.
Proof.
  intros [Hr|Hv]; [by eapply render_trimmed|].
  unfold renderView in Hv.
  apply bind_fulfilled in Hv as (ro & m1 & _ & Hbody).
  unfold renderView_body in Hbody.
  apply bind_fulfilled in Hbody as (html0 & m2 & Hview & Hrest).
  apply bind_fulfilled in Hrest as (layoutPath & m3 & _ & Hlast).
  destruct layoutPath as [layoutPath|].
  - destruct (negb (String.eqb layoutPath "")).
    + by eapply render_trimmed.
    + injection Hlast as <- _. by eapply render_trimmed.
  - injection Hlast as <- _. by eapply render_trimmed.
Qed.

Lemma output_is_trimmed_witness :
  JS.trim "<body><p>X</p></body>" = "<body><p>X</p></body>".
Proof.
  apply (output_is_trimmed demo_env "views/home.hbs" ∅
           ({["layout" := VStr "main"]}) demo _
           (renderView demo_env "views/home.hbs" ({["layout" := VStr "main"]}) demo).2).
  right. vm_compute. reflexivity.
Defined.

(** ** What no call changes *)

Lemma same_settings_fixed h h' : same_settings h h' → fixed_settings h h'.
Proof. unfold same_settings, fixed_settings. tauto. Qed.

Lemma fixed_settings_refl h : fixed_settings h h.
Proof. by repeat split. Qed.

Lemma fixed_settings_trans h1 h2 h3 :
  fixed_settings h1 h2 → fixed_settings h2 h3 → fixed_settings h1 h3.
Proof.
  unfold fixed_settings. intros (?&?&?&?&?&?&?) (?&?&?&?&?&?&?).
  repeat split; congruence.
Qed.

Lemma respects_fixed {A} (c : M A) m :
  respects (λ _, True) c → fixed_settings (self m) (self (c m).2).
Proof. intros H. apply same_settings_fixed. apply H. Qed.

Lemma getTemplate_any env filePath options :
  respects (λ _, True) (getTemplate env filePath options).
Proof. by apply getTemplate_respects. Qed.

Lemma getPartials_any env options : respects (λ _, True) (getPartials env options).
Proof. by apply getPartials_respects. Qed.

Lemma getTemplates_any env dirPath options :
  respects (λ _, True) (getTemplates env dirPath options).
Proof.
  unfold getTemplates. apply respects_bind.
  - by apply _getDir_begin_respects.
  - intros pending. by apply getTemplates_end_respects.
Qed.

Lemma render_any env filePath context options :
  respects (λ _, True) (render env filePath context options).
Proof. by apply render_respects. Qed.

Lemma renderView_view_fixed env viewPath viewsPath m :
  fixed_settings (self m) (self (renderView_view env viewPath viewsPath m).2).
Proof.
  unfold renderView_view. destruct (truthy viewsPath); [|apply fixed_settings_refl].
  destruct viewsPath; by repeat split.
Qed.

Lemma _resolveLayoutPath_pure env layoutPath m :
  (_resolveLayoutPath env layoutPath m).2 = m.
Proof.
  unfold _resolveLayoutPath. destruct (negb (truthy layoutPath)); [done|].
  by destruct layoutPath.
Qed.

Lemma renderView_fixed env viewPath options m :
  fixed_settings (self m) (self (renderView env viewPath options m).2).
Proof.
  unfold renderView, renderView_prepare. set (views := js_and _ _).
  pose proof (_resolveViewsPath_pure env views viewPath m) as Hpure.
  unfold bind at 1. unfold bind at 1.
  destruct (_resolveViewsPath env views viewPath m) as [[viewsPath|e] m0];
    simpl in Hpure; subst m0; [|apply fixed_settings_refl].
  pose proof (renderView_view_fixed env viewPath viewsPath m) as Hview.
  unfold bind at 1.
  destruct (renderView_view env viewPath viewsPath m) as [[view|e] m1];
    simpl in Hview; [|done].
  pose proof (respects_fixed (renderView_options env options view) m1) as Hopt.
  destruct (renderView_options env options view m1) as [[ro|e] m2]; simpl in Hopt.
  2:{ eapply fixed_settings_trans; [done|]. apply Hopt.
      by apply renderView_options_respects. }
  assert (Hm2 : fixed_settings (self m) (self m2)).
  { eapply fixed_settings_trans; [done|]. apply Hopt.
    by apply renderView_options_respects. }
  clear Hopt Hview. eapply fixed_settings_trans; [exact Hm2|].
  unfold renderView_body.
  pose proof (respects_fixed _ m2 (render_any env viewPath options ro)) as Hr.
  unfold bind at 1.
  destruct (render env viewPath options ro m2) as [[html|e] m3]; simpl in Hr; [|done].
  eapply fixed_settings_trans; [exact Hr|].
  pose proof (_resolveLayoutPath_pure env (prop ro "layout") m3) as Hl.
  unfold bind at 1.
  destruct (_resolveLayoutPath env (prop ro "layout") m3) as [[layoutPath|e] m4];
    simpl in Hl; subst m4; [|apply fixed_settings_refl].
  destruct layoutPath as [layoutPath|]; [|apply fixed_settings_refl].
  destruct (negb (String.eqb layoutPath "")); [|apply fixed_settings_refl].
  apply respects_fixed, render_any.
Qed.

Lemma run_call_fixed m c : fixed_settings (self m) (self (run_call m c)).
Proof.
  destruct c as [env []]; cbn [run_call fst snd].
  - apply respects_fixed, getTemplate_any.
  - apply respects_fixed, getTemplates_any.
  - apply respects_fixed, getPartials_any.
  - apply respects_fixed, render_any.
  - apply renderView_fixed.
  - cbn [self]. apply same_settings_fixed, resetCache_keeps.
Qed.

(** X8. The constructor leaves the instance with an extension that begins
    with a dot, and no series of calls of [getTemplate], [getTemplates],
    [getPartials], [render], [renderView] and [resetCache] changes the
    extension, the configuration handed to the constructor, the encoding,
    the helpers, the compiler and runtime options or the default layout;
    only the caches and the two directories may differ afterwards. *)
Theorem settings_are_stable cfg calls tr :
  let h := self (after calls (Machine (create cfg) tr)) in
  fixed_settings (create cfg) h
  ∧ config h = cfg
  ∧ ∃ rest, extname h = String Path.DOT rest.
Proof.
  cbn zeta.
  assert (H : ∀ m, fixed_settings (self m) (self (after calls m))).
  { unfold after. induction calls as [|c calls IH]; intros m; cbn [foldl].
    - apply fixed_settings_refl.
    - eapply fixed_settings_trans; [apply run_call_fixed|apply IH]. }
  specialize (H (Machine (create cfg) tr)). change (self (Machine (create cfg) tr)) with (create cfg) in H.
  split; [exact H|]. destruct H as (Hc & _ & He & _). split; [by rewrite Hc|].
  rewrite He. unfold create. cbn [extname].
  destruct (default ".handlebars" (cfg_extname cfg)) as [|c ext] eqn:Hd.
  - by exists "".
  - unfold JS.charIs. cbn [String.get].
    destruct (Ascii.eqb_spec c Path.DOT) as [->|_]; [by exists ext|by eexists].
Qed.

(** ** Names of partials *)

Lemma substring_split n s :
  n ≤ String.length s →
  String.substring 0 n s +:+ String.substring n (String.length s - n) s = s.
Proof.
  revert n. induction s as [|c s IH]; intros [|n] Hn; simpl in *; try done; try lia.
  - by rewrite substring_full.
  - rewrite append_cons. f_equal. apply IH. lia.
Qed.

Lemma endsWith_stem s ext :
  JS.endsWith s ext = true →
  s = JS.substring0 s (String.length s - String.length ext) +:+ ext.
Proof.
  unfold JS.endsWith, JS.substring0.
  intros [Hle Heq]%andb_true_iff. apply Nat.leb_le in Hle. apply String.eqb_eq in Heq.
  pose proof (substring_split (String.length s - String.length ext) s) as Hs.
  replace (String.length s - (String.length s - String.length ext))
    with (String.length ext) in Hs by lia.
  rewrite Heq in Hs. symmetry. apply Hs. lia.
Qed.

Lemma append_inj_r (s t u : string) : s +:+ t = s +:+ u → t = u.
Proof. induction s as [|c s IH]; [done|]. rewrite !append_cons. intros [=]. auto. Qed.

Lemma with_namespace_inj namespace a b :
  with_namespace namespace a = with_namespace namespace b → a = b.
Proof.
  unfold with_namespace. destruct namespace as [ns|]; [|done].
  destruct (String.eqb ns ""); [done|].
  intros H%append_inj_r. by apply (append_inj_r "/") in H.
Qed.

(** X9. Under the default naming two different files that carry the
    extension of the instance never get the same partial name in one
    namespace: within a directory listed by extension no partial hides
    another. *)
Theorem default_names_distinct h namespace filePath filePath' :
  JS.endsWith filePath (extname h) = true →
  JS.endsWith filePath' (extname h) = true →
  _getTemplateName h filePath namespace = _getTemplateName h filePath' namespace →
  filePath = filePath'.
Proof.
  intros H1%endsWith_stem H2%endsWith_stem. rewrite H1, H2 at 1.
  rewrite !_getTemplateName_stem. intros Hn%with_namespace_inj.
  rewrite H1, H2. by rewrite Hn.
Qed.

Lemma default_names_distinct_witness :
  JS.endsWith "ui/card.hbs" (extname (create demo_config)) = true
  ∧ "ui/card.hbs" = "ui/card.hbs".
Proof.
  split; [reflexivity|].
  apply (default_names_distinct (create demo_config) (Some "x") "ui/card.hbs" "ui/card.hbs");
    reflexivity.
Defined.

(** ** Layouts and directories *)

Lemma length_zero_iff s : (String.length s =? 0)%nat = true ↔ s = "".
Proof. destruct s; simpl; split; done. Qed.

Lemma isAbsolute_nonempty s : Path.isAbsolute s = true → (String.length s =? 0)%nat = false.
Proof. by destruct s. Qed.

Lemma resolve_last_absolute cwd args p :
  Path.isAbsolute p = true →
  Path.resolve cwd (args ++ [p]) = "/" +:+ Path.normalizeString (p +:+ "/") false.
Proof.
  intros Habs. unfold Path.resolve. rewrite reverse_snoc. cbn [Path.resolve_loop].
  by rewrite (isAbsolute_nonempty _ Habs), Habs.
Qed.

(** X10. A layout given by an absolute path is taken from that path: the
    layouts directory and the working directory play no part in where
    [_resolveLayoutPath] looks for it. *)
Theorem absolute_layout_is_direct env env' layout m m' :
  Path.isAbsolute layout = true →
  extname (self m') = extname (self m) →
  (_resolveLayoutPath env' (VStr layout) m').1 = (_resolveLayoutPath env (VStr layout) m).1
  ∧ (Path.extname layout ≠ "" →
     (_resolveLayoutPath env (VStr layout) m).1
     = Fulfilled (Some (Path.resolve "" [layout]))).
Proof.
  intros Habs Hext.
  assert (Hne : layout ≠ "") by (by destruct layout).
  rewrite !_resolveLayoutPath_string by done. unfold layout_file. cbn [fst].
  rewrite Hext.
  set (file := if String.eqb (Path.extname layout) "" then _ else _).
  assert (Hfile : Path.isAbsolute file = true).
  { subst file. destruct (String.eqb _ _); [|done].
    destruct layout; [done|]. by rewrite append_cons. }
  pose proof (λ cwd d, resolve_last_absolute cwd [d] file Hfile) as Hres.
  cbn [app] in Hres. rewrite !Hres.
  split; [done|]. intros Hx. subst file.
  destruct (String.eqb_spec (Path.extname layout) ""); [done|].
  pose proof (resolve_last_absolute "" [] layout Habs) as Hres'.
  cbn [app] in Hres'. by rewrite Hres'.
Qed.

Lemma absolute_layout_is_direct_witness :
  (_resolveLayoutPath demo_env (VStr "/opt/shared/frame.hbs") demo).1
  = Fulfilled (Some "/opt/shared/frame.hbs").
Proof.
  assert (Habs : Path.isAbsolute "/opt/shared/frame.hbs" = true) by reflexivity.
  assert (Hext : Path.extname "/opt/shared/frame.hbs" ≠ "") by (vm_compute; discriminate).
  rewrite (proj2 (absolute_layout_is_direct demo_env demo_env "/opt/shared/frame.hbs"
                    demo demo Habs eq_refl) Hext).
  vm_compute. reflexivity.
Defined.

(** ** Two keyspaces for templates *)

(** X11. The compiled and the precompiled templates are cached apart:
    [getTemplate] writes to the cache its [precompiled] option names and
    leaves the other as it is, whatever the outcome, so a template loaded
    in one form is still to be compiled when it is asked for in the other;
    [_getFile] and [_getDir] touch neither. *)
Theorem template_caches_apart env filePath options m :
  template_cache (negb (opt_precompiled options))
    (self (getTemplate env filePath options m).2)
  = template_cache (negb (opt_precompiled options)) (self m)
  ∧ (∀ pre, template_cache pre (self (_getFile env filePath options m).2)
            = template_cache pre (self m))
  ∧ (∀ pre, template_cache pre (self (_getDir env filePath options m).2)
            = template_cache pre (self m)).
Proof.
  split; [|split].
  - destruct (cached (opt_cache options)
                (template_cache (opt_precompiled options) (self m))
                (resolve1 env filePath)) as [template|] eqn:Hf.
    { by rewrite (getTemplate_hit _ _ _ _ template). }
    rewrite getTemplate_miss by done. cbn zeta. cbn [snd self].
    set (o := options_cache_encoding _ _).
    assert (Hl : ∀ pre,
              template_cache pre
                (self (bind (_getFile env (resolve1 env filePath) o)
                         (λ file, bind this
                            (λ h, compileTemplate env (opt_precompiled options) file
                                    (compilerOptions h))) m).2)
              = template_cache pre (self m)).
    { intros pre. unfold bind at 1.
      destruct (_getFile_template_caches env (resolve1 env filePath) o m) as [Hc Hp].
      destruct (_getFile env _ o m) as [[file|e] m1]; simpl in Hc, Hp.
      - unfold bind, this. rewrite compileTemplate_self. by destruct pre.
      - by destruct pre. }
    specialize (Hl (negb (opt_precompiled options))).
    by destruct (opt_precompiled options).
  - intros pre. destruct (_getFile_template_caches env filePath options m).
    by destruct pre.
  - intros pre. destruct (_getDir_template_caches env filePath options m).
    by destruct pre.
Qed.

(** ** The directories [renderView] leaves behind *)

Lemma _resolveLayoutPath_respects P env layoutPath :
  respects P (_resolveLayoutPath env layoutPath).
Proof.
  unfold _resolveLayoutPath. destruct (negb (truthy layoutPath)); [apply respects_ret|].
  apply respects_bind.
  - destruct layoutPath; try apply respects_throw. apply respects_ret.
  - intros s. apply respects_bind; [apply respects_this|]. intros; apply respects_ret.
Qed.

Lemma renderView_body_respects P env viewPath context ro :
  (∀ p enc, P (ReadFile p enc)) → (∀ pat d, P (Glob pat d)) →
  (∀ pre text o, P (Compile pre (JS.trim text) o)) →
  (∀ a c o, P (Invoke a c o)) →
  respects P (renderView_body env viewPath context ro).
Proof.
  intros Hr Hg Hc Hi. unfold renderView_body.
  apply respects_bind; [by apply render_respects|]. intros html.
  apply respects_bind; [apply _resolveLayoutPath_respects|]. intros [layoutPath|];
    [|apply respects_ret].
  destruct (negb _); [by apply render_respects|apply respects_ret].
Qed.

(** X12. What [renderView] does to the two directories outlasts the call,
    whether the rendering succeeds or not.  With a views root, the
    partials and layouts directories are afterwards the configured ones
    or, where the configuration has none, [partials/] and [layouts/] under
    that root, whatever an earlier call had left there; without a views
    root they are what the call found. *)
Theorem renderView_leaves_dirs env viewPath options m root :
  _resolveViewsPath env
    (js_and (prop options "settings") (member (prop options "settings") "views"))
    viewPath m = (Fulfilled root, m) →
  let h' := self (renderView env viewPath options m).2 in
  (truthy root = false →
     partialsDir h' = partialsDir (self m) ∧ layoutsDir h' = layoutsDir (self m))
  ∧ (∀ s, root = VStr s → s ≠ "" →
       partialsDir h'
       = partialsDir_or (cfg_partialsDir (config (self m))) (Path.join [s; "partials/"])
       ∧ layoutsDir h'
         = Some (string_or (cfg_layoutsDir (config (self m))) (Path.join [s; "layouts/"]))).
Proof.
  intros Hroot. cbn zeta.
  assert (Hdirs : partialsDir (self (renderView env viewPath options m).2)
                  = partialsDir (self (renderView_prepare env viewPath options m).2)
                  ∧ layoutsDir (self (renderView env viewPath options m).2)
                    = layoutsDir (self (renderView_prepare env viewPath options m).2)).
  { unfold renderView, bind.
    destruct (renderView_prepare env viewPath options m) as [[ro|e] m1]; [|done].
    pose proof (renderView_body_respects (λ _, True) env viewPath options ro
                  (λ _ _, I) (λ _ _, I) (λ _ _ _, I) (λ _ _ _, I) m1) as [Hs _].
    cbn [snd]. by destruct Hs as (_&_&Hl&_&Hp&_). }
  destruct Hdirs as [-> ->].
  by apply renderView_prepare_dirs.
Qed.

Lemma renderView_leaves_dirs_witness :
  let options : jsobj := {["settings" := VObj ({["views" := VStr "/srv/site"]})]} in
  let m1 := (renderView demo_env "/srv/site/home.hbs" options
               (Machine (create (cards_config None)) [])).2 in
  partialsDir (self m1) = Some (DirArray [card_dir None "A"; card_dir None "B"])
  ∧ layoutsDir (self m1) = Some "/srv/site/layouts/".
Proof.
  cbn zeta.
  exact (proj2 (renderView_leaves_dirs demo_env "/srv/site/home.hbs"
                  {["settings" := VObj ({["views" := VStr "/srv/site"]})]}
                  (Machine (create (cards_config None)) []) (VStr "/srv/site") eq_refl)
           "/srv/site" eq_refl ltac:(discriminate)).
Defined.

(** ** One resolution of the partials for a view *)

Lemma renderOptions_partials h options enc view helpers partials :
  prop (renderOptions h options enc view helpers partials) "partials" = partials.
Proof.
  unfold prop, renderOptions. cbn [list_to_map foldr uncurry].
  repeat (rewrite lookup_insert_ne by done). by rewrite lookup_insert_eq.
Qed.

Lemma renderView_prepare_partials env viewPath options m ro m1 :
  renderView_prepare env viewPath options m = (Fulfilled ro, m1) →
  ∃ partials, prop ro "partials" = VObj partials.
Proof.
  unfold renderView_prepare.
  intros (viewsPath & m0 & _ & Hrun)%bind_fulfilled.
  apply bind_fulfilled in Hrun as (view & m2 & _ & Hrun).
  unfold renderView_options in Hrun.
  apply bind_fulfilled in Hrun as (h & m3 & _ & Hrun).
  apply bind_fulfilled in Hrun as (registered & m4 & _ & Hrun).
  apply bind_fulfilled in Hrun as (h' & m5 & _ & [= <- _]).
  rewrite renderOptions_partials. by eexists.
Qed.

Lemma render_with_partials_no_glob env filePath context options m :
  truthy (prop options "partials") = true →
  grows (λ ev, ¬ is_glob ev) m (render env filePath context options m).2.
Proof.
  intros Hp. rewrite render_with_partials by done.
  set (o := options_cache_encoding _ _).
  assert (Hg : grows (λ ev, ¬ is_glob ev) m (getTemplate env filePath o m).2)
    by (apply getTemplate_respects; intros; intros []).
  destruct (getTemplate env filePath o m) as [[template|e] m1]; [|done].
  cbn [snd] in *. eapply grows_trans; [exact Hg|].
  split; [apply same_settings_refl|]. eexists [_]. split; [done|].
  constructor; [intros []|constructor].
Qed.

(** X13. [renderView] resolves the partials once, before it renders:
    the options it hands to [render] carry them, so neither the rendering
    of the view nor that of the layout lists a directory again. *)
Theorem renderView_lists_once env viewPath options m ro m1 :
  renderView_prepare env viewPath options m = (Fulfilled ro, m1) →
  truthy (prop ro "partials") = true
  ∧ ∃ evs, trace (renderView env viewPath options m).2 = trace m1 ++ evs
           ∧ Forall (λ ev, ¬ is_glob ev) evs.
Proof.
  intros Hprep.
  destruct (renderView_prepare_partials _ _ _ _ _ _ Hprep) as [partials Hp].
  assert (Ht : truthy (prop ro "partials") = true) by (by rewrite Hp).
  split; [done|].
  unfold renderView. rewrite (bind_eq _ _ _ _ _ Hprep). unfold renderView_body.
  pose proof (render_with_partials_no_glob env viewPath options ro m1 Ht) as Hview.
  unfold bind at 1.
  destruct (render env viewPath options ro m1) as [[html|e] m2]; cbn [snd] in Hview;
    [|apply Hview].
  pose proof (_resolveLayoutPath_pure env (prop ro "layout") m2) as Hpure.
  unfold bind at 1.
  destruct (_resolveLayoutPath env (prop ro "layout") m2) as [[layoutPath|e] m3];
    cbn [snd] in Hpure; subst m3; [|apply Hview].
  destruct layoutPath as [layoutPath|]; [|apply Hview].
  destruct (negb (String.eqb layoutPath "")); [|apply Hview].
  assert (Ht' : truthy (prop (<["layout" := VUndefined]> ro) "partials") = true).
  { unfold prop in *. by rewrite lookup_insert_ne. }
  pose proof (render_with_partials_no_glob env layoutPath
                (<["body" := VStr html]> options) _ m2 Ht') as Hlayout.
  destruct (grows_trans _ _ _ _ Hview Hlayout) as [_ Hev]. exact Hev.
Qed.

Lemma renderView_lists_once_witness :
  let m := Machine (create partials_config) [] in
  let options : jsobj := {["layout" := VStr "main"]} in
  ∃ evs, trace (renderView demo_env "views/home.hbs" options m).2
         = trace (renderView_prepare demo_env "views/home.hbs" options m).2 ++ evs
         ∧ Forall (λ ev, ¬ is_glob ev) evs.
Proof.
  cbn zeta.
  assert (Hnr : ¬ is_rejected
                  (renderView_prepare demo_env "views/home.hbs" {["layout" := VStr "main"]}
                     (Machine (create partials_config) [])).1)
    by (vm_compute; intros []).
  destruct (renderView_prepare demo_env "views/home.hbs" {["layout" := VStr "main"]}
              (Machine (create partials_config) [])) as [[ro|e] m1] eqn:Hr.
  - exact (proj2 (renderView_lists_once demo_env "views/home.hbs" _ _ ro m1 Hr)).
  - destruct Hnr. exact I.
Defined.

(** ** The folder listings *)

Lemma push_route_folders_spec disk root routeFile entries result :
  push_route_folders disk root routeFile entries result
  = result ++ route_folders disk root routeFile entries.
Proof.
  unfold push_route_folders, route_folders. revert result.
  induction entries as [|entry entries IH]; intros result; cbn [foldl].
  - by rewrite filter_nil, app_nil_r.
  - rewrite IH. rewrite filter_cons.
    destruct (dirent_isDirectory entry) eqn:Hd.
    + destruct (existsSync disk _) eqn:He.
      * rewrite decide_True by done. by rewrite fmap_cons, <- app_assoc.
      * rewrite decide_False; [done|]. by intros [_ ?].
    + rewrite decide_False; [done|]. by intros [? _].
Qed.

Lemma route_folders_nil disk root routeFile : route_folders disk root routeFile [] = [].
Proof. done. Qed.

Lemma findApp_run disk :
  findAppSubfoldersWithRouteTsx disk
  = match listing_if_exists disk (Path.resolve (disk_cwd disk) ["app"]) with
    | Fulfilled entries =>
        settled_map
          (λ entries', route_folders disk (Path.resolve (disk_cwd disk) ["app"])
                         "route.tsx" entries
                       ++ route_folders disk (Path.resolve (disk_cwd disk) ["src/app"])
                            "route.tsx" entries')
          (listing_if_exists disk (Path.resolve (disk_cwd disk) ["src/app"]))
    | Rejected e => Rejected e
    end.
Proof.
  unfold findAppSubfoldersWithRouteTsx, listing_if_exists. cbn [findApp_loop].
  destruct (existsSync disk (Path.resolve (disk_cwd disk) ["app"])).
  - destruct (readdir disk (Path.resolve (disk_cwd disk) ["app"])) as [entries|e]; [|done].
    rewrite push_route_folders_spec. cbn [app].
    destruct (existsSync disk (Path.resolve (disk_cwd disk) ["src/app"])).
    + destruct (readdir disk _) as [entries'|e]; [|done]. cbn [settled_map].
      by rewrite push_route_folders_spec.
    + cbn [settled_map]. by rewrite route_folders_nil, app_nil_r.
  - destruct (existsSync disk (Path.resolve (disk_cwd disk) ["src/app"])).
    + destruct (readdir disk _) as [entries'|e]; [|done]. cbn [settled_map].
      by rewrite push_route_folders_spec.
    + done.
Qed.

(** X14. [findAppSubfoldersWithRouteTsx] returns, by name, the directories
    of [app] that hold a [route.tsx] followed by those of [src/app], each
    group in the order of its listing and a name found under both roots
    twice.  A root that does not exist is passed over, so the function
    fails only when a root that exists cannot be listed, and returns the
    empty list when neither exists. *)
Theorem findApp_folders disk :
  let app := Path.resolve (disk_cwd disk) ["app"] in
  let src := Path.resolve (disk_cwd disk) ["src/app"] in
  findAppSubfoldersWithRouteTsx disk
  = match listing_if_exists disk app with
    | Fulfilled entries =>
        settled_map (λ entries', route_folders disk app "route.tsx" entries
                                 ++ route_folders disk src "route.tsx" entries')
          (listing_if_exists disk src)
    | Rejected e => Rejected e
    end
  ∧ (existsSync disk app = false → existsSync disk src = false →
     findAppSubfoldersWithRouteTsx disk = Fulfilled [])
  ∧ (∀ e, findAppSubfoldersWithRouteTsx disk = Rejected e →
       (existsSync disk app = true ∧ readdir disk app = Rejected e)
       ∨ (existsSync disk src = true ∧ readdir disk src = Rejected e)).
Proof.
  cbn zeta. split; [apply findApp_run|]. rewrite findApp_run. unfold listing_if_exists.
  split.
  - by intros -> ->.
  - intros e.
    destruct (existsSync disk (Path.resolve (disk_cwd disk) ["app"])).
    + destruct (readdir disk (Path.resolve (disk_cwd disk) ["app"])) as [entries|e'].
      * destruct (existsSync disk (Path.resolve (disk_cwd disk) ["src/app"])); [|done].
        destruct (readdir disk _) as [entries'|e']; [done|]. intros [= ->]. by right.
      * intros [= ->]. by left.
    + destruct (existsSync disk (Path.resolve (disk_cwd disk) ["src/app"])); [|done].
      destruct (readdir disk _) as [entries'|e']; [done|]. intros [= ->]. by right.
Qed.

Lemma findApp_folders_witness :
  findAppSubfoldersWithRouteTsx demo_disk = Fulfilled ["blog"].
Proof.
  rewrite (proj1 (findApp_folders demo_disk)). vm_compute. reflexivity.
Defined.

(** X15. [listFoldersWithRouteTs] lists [src/app] without asking whether
    it is there: when the listing fails the function fails with that
    error, having logged the path alone, also on a disk where
    [findAppSubfoldersWithRouteTsx] returns its folders; when the listing
    succeeds it returns the directories that hold a [route.ts], in the
    order of the listing, and has logged the path and the entries. *)
Theorem listFoldersWithRouteTs_unguarded disk :
  let src := Path.resolve (disk_cwd disk) ["src/app"] in
  (∀ e, readdir disk src = Rejected e →
     listFoldersWithRouteTs disk = (Rejected e, [LogPath "srcDir" src])
     ∧ (existsSync disk src = false →
        findAppSubfoldersWithRouteTsx disk
        = settled_map (route_folders disk (Path.resolve (disk_cwd disk) ["app"]) "route.tsx")
            (listing_if_exists disk (Path.resolve (disk_cwd disk) ["app"]))))
  ∧ (∀ entries, readdir disk src = Fulfilled entries →
       listFoldersWithRouteTs disk
       = (Fulfilled (route_folders disk src "route.ts" entries),
          [LogPath "srcDir" src; LogEntries "entries" entries])).
Proof.
  cbn zeta. split.
  - intros e He. unfold listFoldersWithRouteTs. rewrite He. split; [done|].
    intros Hno. rewrite findApp_run. unfold listing_if_exists at 2.
    rewrite Hno. destruct (listing_if_exists disk _) as [entries|e']; [|done].
    cbn [settled_map]. by rewrite route_folders_nil, app_nil_r.
  - intros entries He. unfold listFoldersWithRouteTs. rewrite He.
    by rewrite push_route_folders_spec.
Qed.

Lemma listFoldersWithRouteTs_unguarded_witness :
  listFoldersWithRouteTs demo_disk
  = (Rejected (FsError "ENOENT" "/proj/src/app"), [LogPath "srcDir" "/proj/src/app"])
  ∧ findAppSubfoldersWithRouteTsx demo_disk = Fulfilled ["blog"].
Proof.
  destruct (proj1 (listFoldersWithRouteTs_unguarded demo_disk)
              (FsError "ENOENT" "/proj/src/app") eq_refl) as [H1 H2].
  split; [exact H1|]. rewrite (H2 eq_refl). vm_compute. reflexivity.
Defined.

Lemma split_go_plain cur l :
  Forall (λ c, c ≠ Path.SLASH) l → Path.split_go cur l = [JS.str (reverse cur ++ l)].
Proof.
  intros Hl. revert cur. induction Hl as [|c l Hc _ IH]; intros cur; cbn [Path.split_go].
  - by rewrite app_nil_r.
  - destruct (Ascii.eqb_spec c Path.SLASH); [done|].
    rewrite IH, reverse_cons, <- app_assoc. done.
Qed.

Lemma str_chars s : JS.str (JS.chars s) = s.
Proof. apply String.string_of_list_ascii_of_string. Qed.

Lemma get_chars s i c : String.get i s = Some c → c ∈ JS.chars s.
Proof.
  revert i. induction s as [|a s IH]; intros [|i]; simpl; try done.
  - intros [= ->]. apply list_elem_of_here.
  - intros H. apply list_elem_of_further. by eapply IH.
Qed.

Lemma charIs_plain s i :
  Forall (λ c, c ≠ Path.SLASH) (JS.chars s) → JS.charIs s i Path.SLASH = false.
Proof.
  intros Hs. unfold JS.charIs. destruct (String.get i s) as [c|] eqn:Hc; [|done].
  apply get_chars in Hc. rewrite Forall_forall in Hs. specialize (Hs c Hc).
  by destruct (Ascii.eqb_spec c Path.SLASH).
Qed.

Lemma join_plain name : plain_name name → Path.join [name] = name.
Proof.
  intros (Hne & Hdot & Hdots & Hplain). unfold Path.join.
  rewrite filter_cons, decide_True, filter_nil by done. cbn [Path.joinWith].
  unfold Path.normalize, Path.isAbsolute.
  destruct (String.length name =? 0)%nat eqn:Hlen.
  { apply Nat.eqb_eq in Hlen. by destruct name. }
  rewrite !charIs_plain by done. cbn [negb].
  unfold Path.normalizeString, Path.split. rewrite split_go_plain by done.
  rewrite reverse_nil, app_nil_l, str_chars. cbn [foldl]. unfold Path.normalize_step.
  destruct (String.eqb_spec name ""); [done|].
  destruct (String.eqb_spec name "."); [done|].
  destruct (String.eqb_spec name ".."); [done|].
  cbn [orb]. rewrite reverse_singleton. cbn [Path.joinWith]. by rewrite Hlen.
Qed.

(** X16. [listFoldersInCurrentProject] returns the directories of the
    working directory, by the names the listing gives them and in its
    order, and fails when the working directory cannot be listed. *)
Theorem listFolders_names disk :
  (∀ entries, readdir disk (disk_cwd disk) = Fulfilled entries →
     Forall (λ entry, plain_name (dirent_name entry)) entries →
     listFoldersInCurrentProject disk
     = Fulfilled (dirent_name <$> filter (λ entry, dirent_isDirectory entry = true) entries))
  ∧ (∀ e, readdir disk (disk_cwd disk) = Rejected e →
       listFoldersInCurrentProject disk = Rejected e).
Proof.
  unfold listFoldersInCurrentProject. split.
  - intros entries -> Hplain. f_equal. apply list_fmap_ext.
    intros i entry Hi. apply join_plain.
    apply list_elem_of_lookup_2, list_elem_of_filter in Hi as [_ Hin].
    rewrite Forall_forall in Hplain. by apply Hplain.
  - by intros e ->.
Qed.

Lemma listFolders_names_witness : listFoldersInCurrentProject demo_disk = Fulfilled ["app"].
Proof.
  rewrite (proj1 (listFolders_names demo_disk) _ eq_refl).
  - reflexivity.
  - repeat constructor; try discriminate; intros [=].
Defined.
